(** * Risk-gated navigation engine: Snake-SHM and Vacuum-X

    A shallow embedding of the graph-search primitives, the structural
    risk assessor, the threshold policies and the panic state machines of
    [snake_shm_v0_3_2.py], [snake_shm_v0_3_4.py], [vacuum_x_v03.py] and
    [vacuum_x_coase_frontier.py], followed by the properties proved about
    them.

    Conventions.  Python integers are [Z].  Python floats are read as exact
    rationals ([Q]), rounding not modelled, with one exception: the
    comparison [risk >= threshold] of the two Snake agents, which decides
    the branch taken, is made in binary64 ([PrimFloat]), on the threshold
    computed in binary64 as the code computes it and on the binary64 value
    that [StructGate.analyze_risk] returns, an input of the agents.  The
    two stress monitors
    store their numbers in lowest terms ([Qred], which does not change the
    rational), so that long runs can be evaluated.  A Python [set] of
    cells is a list used only through membership tests and its length.
    The two breadth-first loops are unbounded [while] loops: they are
    written with a fuel argument, and the fuel handed to them by the
    top-level functions is proved sufficient ([bfs_search_spec],
    [flood_search_spec]).  NumPy's singular value decomposition and the
    random draws are inputs of the functions that use them. *)

From Stdlib Require Import ZArith QArith Qminmax List Bool Lia Lqa Permutation.
From Stdlib Require Import Floats.PrimFloat.
Import ListNotations.

Local Open Scope Z_scope.

(* ================================================================== *)
(** * Part I.  Definitions                                             *)
(* ================================================================== *)

(** ** Grid cells and moves (shared by all scripts) *)

Definition Pos : Type := (Z * Z)%type.

Definition pos_eqb (a b : Pos) : bool :=
  (fst a =? fst b) && (snd a =? snd b).

(** Membership in a Python set or list of cells. *)
Definition mem (p : Pos) (s : list Pos) : bool := existsb (pos_eqb p) s.

(** [np.clip(x, lo, hi)], that is [minimum(maximum(x, lo), hi)]. *)
Definition clip (x lo hi : Q) : Q := Qmin (Qmax x lo) hi.

(** Strict comparison of floats, [a < b]. *)
Definition Qlt_bool (a b : Q) : bool := negb (Qle_bool b a).

(** [pts - mean(pts, axis=0)] for a sequence of integer points. *)
Definition qsum (l : list Q) : Q := fold_right Qplus 0%Q l.
Definition centre (pts : list Pos) : list (Q * Q) :=
  let n := inject_Z (Z.of_nat (length pts)) in
  let mx := (qsum (map (fun p => inject_Z (fst p)) pts) / n)%Q in
  let my := (qsum (map (fun p => inject_Z (snd p)) pts) / n)%Q in
  map (fun p => ((inject_Z (fst p) - mx)%Q, (inject_Z (snd p) - my)%Q)) pts.

(** [np.linalg.svd] belongs to NumPy, not to the repository: the scripts
    are parameterised by a function [svd] that gives the vector [s] of
    singular values of the centred points, or [None] when the routine
    raises. *)
Definition svd_oracle : Type := list (Q * Q) -> option (list Q).

(** Binary64.  [float_of_Z] is the conversion of a Python integer to a
    float; it is exact below 2^53 in absolute value, where Python's true
    division [a / b] of two integers is the binary64 quotient of the two
    conversions. *)
Fixpoint float_of_pos (p : positive) : float :=
  match p with
  | xH => 1%float
  | xO p' => (2 * float_of_pos p')%float
  | xI p' => (2 * float_of_pos p' + 1)%float
  end.

Definition float_of_Z (z : Z) : float :=
  match z with
  | Z0 => 0%float
  | Zpos p => float_of_pos p
  | Zneg p => (- float_of_pos p)%float
  end.

(** The binary64 value that [StructGate.analyze_risk(snake_body, w, h)]
    returns.  It is computed with NumPy (mean, SVD, clip) and with
    rounding, so the agents take it as an input; [Snake.analyze_risk] below
    is its exact counterpart. *)
Definition risk_oracle : Type := list Pos -> Z -> Z -> float.

(** The result of a loop run with fuel. *)
Inductive run (A : Type) : Type :=
| Timeout : run A
| Ret : A -> run A.
Arguments Timeout {A}.
Arguments Ret {A} _.

(** Cells of a [w] x [h] grid, used only to bound the number of loop
    iterations. *)
Definition zrange (n : Z) : list Z := map Z.of_nat (seq 0 (Z.to_nat n)).
Definition grid_cells (w h : Z) : list Pos := list_prod (zrange w) (zrange h).
Definition search_fuel (w h : Z) : nat := S (S (length (grid_cells w h))).

Module Snake.

(** *** [Config] *)
Definition GRID_W : Z := 20.
Definition GRID_H : Z := 20.
Definition MAX_STEPS_WITHOUT_FOOD : Z := 200.
Definition MAX_TOTAL_STEPS : Z := 20000.
Definition W_TOPO : Q := 7 # 10.
Definition W_GEOM : Q := 3 # 10.
Definition SVD_ENTROPY_SCALE : Q := 5.
Definition RISK_THRESHOLD_BASE : Q := 35 # 100.
Definition RISK_HUNGER_GAIN : Q := 50 # 100.
Definition RESCUE_WINDOW : Z := 20.

(** The constants of the pricing formula as the binary64 values Python
    holds: 200, 0.35 (0x1.6666666666666p-2) and 0.50. *)
Definition MAX_STEPS_WITHOUT_FOOD_f : float := 200%float.
Definition RISK_THRESHOLD_BASE_f : float := 0x1.6666666666666p-2%float.
Definition RISK_HUNGER_GAIN_f : float := 0.5%float.

(** *** [Algs] *)
Inductive Move : Type := UP | DOWN | LEFT | RIGHT.

Definition MOVES : list (Move * (Z * Z)) :=
  [ (UP, (0, -1)); (DOWN, (0, 1)); (LEFT, (-1, 0)); (RIGHT, (1, 0)) ].

(** The guard of both searches:
    [0 <= nx < w and 0 <= ny < h and (nx, ny) not in obs_set]. *)
Definition passable (obstacles : list Pos) (w h : Z) (n : Pos) : bool :=
  (0 <=? fst n) && (fst n <? w) && (0 <=? snd n) && (snd n <? h)
  && negb (mem n obstacles).

(** The inner [for m_name, (dx, dy) in Algs.MOVES] loop, which is the same
    in [bfs_path] and [flood_fill_count] but for the item appended to the
    queue ([enq m_name (nx, ny)]). *)
Fixpoint expand {A : Type} (enq : Move -> Pos -> A) (ok : Pos -> bool)
    (c : Pos) (moves : list (Move * (Z * Z)))
    (q : list A) (visited : list Pos) : list A * list Pos :=
  match moves with
  | [] => (q, visited)
  | (m_name, (dx, dy)) :: rest =>
      let n := (fst c + dx, snd c + dy) in
      if ok n && negb (mem n visited)
      then expand enq ok c rest (q ++ [enq m_name n]) (n :: visited)
      else expand enq ok c rest q visited
  end.

(** The [while q] loop of [bfs_path].  [Ret (Some path)] is the path held
    by the queue entry of the goal when it is popped, [Ret None] the
    [return None] after the loop. *)
Fixpoint bfs_loop (fuel : nat) (goal : Pos) (ok : Pos -> bool)
    (q : list (Pos * list Move)) (visited : list Pos)
    : run (option (list Move)) :=
  match fuel with
  | O => Timeout
  | S fuel' =>
      match q with
      | [] => Ret None
      | (c, path) :: q' =>
          if pos_eqb c goal then Ret (Some path)
          else
            let '(q'', visited') :=
              expand (fun m n => (n, path ++ [m])) ok c MOVES q' visited in
            bfs_loop fuel' goal ok q'' visited'
      end
  end.

Definition bfs_search (start goal : Pos) (obstacles : list Pos) (w h : Z)
    : run (option (list Move)) :=
  bfs_loop (search_fuel w h) goal (passable obstacles w h)
           [(start, [])] [start].

(** [Algs.bfs_path]: [return path[0] if path else None]. *)
Definition bfs_path (start goal : Pos) (obstacles : list Pos) (w h : Z)
    : option Move :=
  match bfs_search start goal obstacles w h with
  | Ret (Some (m :: _)) => Some m
  | _ => None
  end.

(** The [while q] loop of [flood_fill_count]. *)
Fixpoint flood_loop (fuel : nat) (ok : Pos -> bool)
    (q : list Pos) (visited : list Pos) (count : Z) : run Z :=
  match fuel with
  | O => Timeout
  | S fuel' =>
      match q with
      | [] => Ret count
      | c :: q' =>
          let '(q'', visited') :=
            expand (fun _ n => n) ok c MOVES q' visited in
          flood_loop fuel' ok q'' visited' (count + 1)
      end
  end.

Definition flood_search (start : Pos) (obstacles : list Pos) (w h : Z)
    : run Z :=
  flood_loop (search_fuel w h) (passable obstacles w h) [start] [start] 0.

(** [Algs.flood_fill_count]. *)
Definition flood_fill_count (start : Pos) (obstacles : list Pos) (w h : Z)
    : Z :=
  match flood_search start obstacles w h with
  | Ret n => n
  | Timeout => 0
  end.

(** The loop of [Algs.get_max_reach_move], threading
    [(best_move, max_area)]. *)
Fixpoint max_reach_loop (moves : list (Move * (Z * Z))) (head : Pos)
    (obstacles : list Pos) (w h : Z) (best_move : option Move)
    (max_area : Z) : option Move :=
  match moves with
  | [] => best_move
  | (m_name, (dx, dy)) :: rest =>
      let n := (fst head + dx, snd head + dy) in
      if passable obstacles w h n then
        let area := flood_fill_count n obstacles w h in
        if max_area <? area
        then max_reach_loop rest head obstacles w h (Some m_name) area
        else max_reach_loop rest head obstacles w h best_move max_area
      else max_reach_loop rest head obstacles w h best_move max_area
  end.

Definition get_max_reach_move (head : Pos) (obstacles : list Pos) (w h : Z)
    : option Move :=
  max_reach_loop MOVES head obstacles w h None (-1).

(** *** [StructGate.analyze_risk] *)
Definition geom_risk_of (s : option (list Q)) : Q :=
  match s with
  | Some (s0 :: s1 :: _) =>
      let entropy := (s1 / (s0 + (1 # 100000000)))%Q in
      clip (1 - entropy * SVD_ENTROPY_SCALE)%Q 0%Q 1%Q
  | Some _ => clip (1 - 0 * SVD_ENTROPY_SCALE)%Q 0%Q 1%Q
  | None => 0%Q
  end.

Definition topo_risk_of (area : Z) (body_len : nat) : Q :=
  clip (1 - inject_Z area / inject_Z (Z.max 1 (Z.of_nat body_len)))%Q
       0%Q 1%Q.

Definition analyze_risk (svd : svd_oracle) (snake_body : list Pos)
    (w h : Z) : Q :=
  match snake_body with
  | head :: _ :: _ :: _ =>
      let geom_risk := geom_risk_of (svd (centre snake_body)) in
      let area := flood_fill_count head snake_body w h in
      let topo_risk := topo_risk_of area (length snake_body) in
      (W_TOPO * topo_risk + W_GEOM * geom_risk)%Q
  | _ => 0%Q                                  (* len(snake_body) < 3 *)
  end.

(** *** [SnakeGame], as far as the agent reads it *)
Record SnakeGame : Type := {
  snake : list Pos;
  food : Pos;
  w : Z;
  h : Z;
  steps_since_food : Z;
  steps_total : Z
}.

(** *** [BaseAgent] *)
Record BaseAgent : Type := {
  is_coase : bool;
  panic_history : list Z;
  in_panic : bool
}.

Definition BaseAgent_init (coase : bool) : BaseAgent :=
  {| is_coase := coase; panic_history := []; in_panic := false |}.

(** [if not self.in_panic: self.panic_history.append(...); self.in_panic = True] *)
Definition enter_panic (ag : BaseAgent) (now : Z) : BaseAgent :=
  if in_panic ag then ag
  else {| is_coase := is_coase ag;
          panic_history := panic_history ag ++ [now];
          in_panic := true |}.

(** [self.in_panic = False] *)
Definition leave_panic (ag : BaseAgent) : BaseAgent :=
  {| is_coase := is_coase ag;
     panic_history := panic_history ag;
     in_panic := false |}.

(** The exact values of [hunger_ratio] and [threshold]. *)
Definition hunger_ratio (hunger : Z) : Q :=
  Qmin 1%Q (inject_Z hunger / inject_Z MAX_STEPS_WITHOUT_FOOD)%Q.

Definition risk_threshold (hunger : Z) : Q :=
  (RISK_THRESHOLD_BASE + hunger_ratio hunger * RISK_HUNGER_GAIN)%Q.

(** [hunger_ratio] and [threshold] as [get_action] computes them, in
    binary64.  Python's [min(1.0, x)] is [x] when [x < 1.0] and [1.0]
    otherwise. *)
Definition hunger_ratio_f (hunger : Z) : float :=
  let x := (float_of_Z hunger / MAX_STEPS_WITHOUT_FOOD_f)%float in
  if (x <? 1)%float then x else 1%float.

Definition risk_threshold_f (hunger : Z) : float :=
  (RISK_THRESHOLD_BASE_f + hunger_ratio_f hunger * RISK_HUNGER_GAIN_f)%float.

(** [x if x else get_max_reach_move(...)]: a move name is a non-empty
    string, so only [None] is falsy. *)
Definition or_max_reach (action : option Move) (head : Pos)
    (body_no_tail : list Pos) (w h : Z) : option Move :=
  match action with
  | Some m => Some m
  | None => get_max_reach_move head body_no_tail w h
  end.

(** [BaseAgent.get_action].  The outer [None] is the [IndexError] of
    [state["snake"][0]] on an empty snake.  [risk_f] gives the value of
    [StructGate.analyze_risk]; the test [risk >= threshold] is the binary64
    comparison. *)
Definition get_action (risk_f : risk_oracle) (ag : BaseAgent)
    (game : SnakeGame) : option (option Move * BaseAgent) :=
  match snake game with
  | [] => None
  | head :: _ =>
      let body_no_tail := removelast (snake game) in
      let action := bfs_path head (food game) body_no_tail (w game) (h game) in
      let '(action, ag) :=
        if is_coase ag then
          let risk := risk_f (snake game) (w game) (h game) in
          let threshold := risk_threshold_f (steps_since_food game) in
          if (threshold <=? risk)%float then
            let ag := enter_panic ag (steps_total game) in
            let tail := last (snake game) head in
            let escape_move :=
              bfs_path head tail body_no_tail (w game) (h game) in
            (or_max_reach escape_move head body_no_tail (w game) (h game), ag)
          else (action, leave_panic ag)
        else (action, ag) in
      Some (or_max_reach action head body_no_tail (w game) (h game), ag)
  end.

(** The agent over the successive game states of one run. *)
Fixpoint run_agent (risk_f : risk_oracle) (ag : BaseAgent)
    (games : list SnakeGame) : option BaseAgent :=
  match games with
  | [] => Some ag
  | g :: rest =>
      match get_action risk_f ag g with
      | Some (_, ag') => run_agent risk_f ag' rest
      | None => None
      end
  end.

(** [rescue_count] of [run_experiment], computed once after the run. *)
Definition rescue_count (panic_history : list Z) (final_steps_total : Z) : Z :=
  Z.of_nat (length (filter (fun p => RESCUE_WINDOW <=? final_steps_total - p)
                           panic_history)).

End Snake.

(** ** Snake-SHM v0.3.4: the alpha sweep *)
Module SnakeSweep.
Import Snake.

(** [self.alpha = float(alpha)]. *)
Record SweepAgent : Type := {
  base : BaseAgent;
  alpha : float;
  steps_in_panic : Z
}.

Definition SweepAgent_init (a : float) : SweepAgent :=
  {| base := BaseAgent_init true; alpha := a; steps_in_panic := 0 |}.

(** The alpha injection, as [get_action] computes it in binary64:
    [effective_gain = Config.RISK_HUNGER_GAIN * self.alpha] and
    [threshold = Config.RISK_THRESHOLD_BASE + (hunger_ratio * effective_gain)]. *)
Definition effective_gain_f (a : float) : float :=
  (RISK_HUNGER_GAIN_f * a)%float.

Definition threshold_f (a : float) (hunger : Z) : float :=
  (RISK_THRESHOLD_BASE_f + hunger_ratio_f hunger * effective_gain_f a)%float.

(** The alphas of [run_clean_sweep]. *)
Definition SWEEP_ALPHAS : list float :=
  [0%float; 0.5%float; 1%float; 1.5%float; 2%float; 2.5%float; 3%float].

(** The exact value of the same formula, for a rational alpha:
    base + ratio * (gain * alpha), without rounding. *)
Definition effective_gain (a : Q) : Q := (RISK_HUNGER_GAIN * a)%Q.

Definition threshold_at (a ratio : Q) : Q :=
  (RISK_THRESHOLD_BASE + ratio * effective_gain a)%Q.

Definition threshold (a : Q) (hunger : Z) : Q :=
  threshold_at a (hunger_ratio hunger).

(** [SweepAgent.get_action]; [risk_f] and the comparison as in
    [Snake.get_action]. *)
Definition get_action (risk_f : risk_oracle) (ag : SweepAgent)
    (game : SnakeGame) : option (option Move * SweepAgent) :=
  match snake game with
  | [] => None
  | head :: _ =>
      let body_no_tail := removelast (snake game) in
      let action := bfs_path head (food game) body_no_tail (w game) (h game) in
      let risk := risk_f (snake game) (w game) (h game) in
      let th := threshold_f (alpha ag) (steps_since_food game) in
      let '(action, b) :=
        if (th <=? risk)%float then
          let b := enter_panic (base ag) (steps_total game) in
          let tail := last (snake game) head in
          let escape_move :=
            bfs_path head tail body_no_tail (w game) (h game) in
          (or_max_reach escape_move head body_no_tail (w game) (h game), b)
        else (action, leave_panic (base ag)) in
      let sip := if in_panic b then steps_in_panic ag + 1
                 else steps_in_panic ag in
      Some (or_max_reach action head body_no_tail (w game) (h game),
            {| base := b; alpha := alpha ag; steps_in_panic := sip |})
  end.

Fixpoint run_agent (risk_f : risk_oracle) (ag : SweepAgent)
    (games : list SnakeGame) : option SweepAgent :=
  match games with
  | [] => Some ag
  | g :: rest =>
      match get_action risk_f ag g with
      | Some (_, ag') => run_agent risk_f ag' rest
      | None => None
      end
  end.

End SnakeSweep.

(** ** Vacuum-X v0.3 *)
Module VacuumX.

(** *** [Cfg] *)
Definition W : Z := 12.
Definition H : Z := 12.
Definition BATTERY_MAX : Z := 60.
Definition LOW_BAT_BASE : Q := 20.
Definition PANIC_TH_BASE : Q := 80 # 100.
Definition ESCAPE_STEPS : Z := 4.
Definition COOLDOWN_STEPS : Z := 6.
Definition SVD_WINDOW : nat := 10.
Definition SVD_GAIN : Q := 5.
Definition LPI_RHO : Q := 75 # 100.
Definition DAMAGE_GAIN : Q := 2.
Definition STEP_DECAY : Q := 1 # 1000.
Definition COLLAPSE_DECAY : Q := 4 # 100.
Definition RECOVERY_GAIN : Q := 6 # 100.
Definition HUNGER_GAIN_BAT : Q := 20.
Definition HUNGER_GAIN_PANIC : Q := 40 # 100.
Definition BAT_PRESSURE_GAIN : Q := 25 # 100.
Definition RESCUE_WINDOW : Z := 12.
Definition LOCAL_REACH_DEPTH : Z := 30.

(** *** Grid world *)
Inductive Action : Type := UP | DOWN | LEFT | RIGHT | STAY.

Definition DIRS (a : Action) : Z * Z :=
  match a with
  | UP => (0, -1)
  | DOWN => (0, 1)
  | LEFT => (-1, 0)
  | RIGHT => (1, 0)
  | STAY => (0, 0)
  end.

(** [grid] is the array of 0 (free) and 1 (obstacle), indexed [grid[x, y]]. *)
Record VacuumWorld : Type := {
  w : Z;
  h : Z;
  grid : list (list Z);
  dock : Pos;
  pos : Pos;
  battery : Z;
  steps : Z
}.

Definition in_bounds (world : VacuumWorld) (p : Pos) : bool :=
  (0 <=? fst p) && (fst p <? w world) && (0 <=? snd p) && (snd p <? h world).

Definition grid_at (world : VacuumWorld) (p : Pos) : Z :=
  nth (Z.to_nat (snd p)) (nth (Z.to_nat (fst p)) (grid world) []) 0.

Definition is_free (world : VacuumWorld) (p : Pos) : bool :=
  in_bounds world p && (grid_at world p =? 0).

Definition move (p : Pos) (a : Action) : Pos :=
  (fst p + fst (DIRS a), snd p + snd (DIRS a)).

(** *** Reachability helpers *)

(** The [for a in ["UP", "DOWN", "LEFT", "RIGHT"]] loop of
    [local_reachable_count]. *)
Fixpoint reach_expand (world : VacuumWorld) (p : Pos) (acts : list Action)
    (q vis : list Pos) : list Pos * list Pos :=
  match acts with
  | [] => (q, vis)
  | a :: rest =>
      let np_ := move p a in
      if mem np_ vis then reach_expand world p rest q vis
      else if is_free world np_
           then reach_expand world p rest (q ++ [np_]) (np_ :: vis)
           else reach_expand world p rest q vis
  end.

(** [while q and expanded < max_expand]; [budget] is
    [max_expand - expanded].  The result is [vis]. *)
Fixpoint reach_loop (budget : nat) (world : VacuumWorld)
    (q vis : list Pos) : list Pos :=
  match budget with
  | O => vis
  | S budget' =>
      match q with
      | [] => vis
      | p :: q' =>
          let '(q'', vis') :=
            reach_expand world p [UP; DOWN; LEFT; RIGHT] q' vis in
          reach_loop budget' world q'' vis'
      end
  end.

Definition local_reachable_count (world : VacuumWorld) (start : Pos)
    (max_expand : Z) : Z :=
  Z.of_nat (length (reach_loop (Z.to_nat max_expand) world [start] [start])).

(** The loop of [choose_escape_action], threading [(best, best_score)]. *)
Fixpoint escape_loop (world : VacuumWorld) (acts : list Action)
    (best : option Action) (best_score : Z) : option Action :=
  match acts with
  | [] => best
  | a :: rest =>
      let np_ := move (pos world) a in
      if negb (is_free world np_) then escape_loop world rest best best_score
      else
        let score := local_reachable_count world np_ LOCAL_REACH_DEPTH in
        if best_score <? score
        then escape_loop world rest (Some a) score
        else escape_loop world rest best best_score
  end.

Definition choose_escape_action (world : VacuumWorld) : Action :=
  match escape_loop world [UP; DOWN; LEFT; RIGHT] None (-1) with
  | None => STAY           (* if boxed, allow STAY *)
  | Some a => a
  end.

(** *** [StructGate] *)

(** [deque(maxlen=window).append]. *)
Definition hist_update (window : nat) (hist : list Pos) (p : Pos)
    : list Pos :=
  if (length hist <? window)%nat then hist ++ [p]
  else tl (hist ++ [p]).

(** [StructGate.panic]. *)
Definition panic (svd : svd_oracle) (window : nat) (hist : list Pos) : Q :=
  if (length hist <? window)%nat then 0%Q
  else
    match svd (centre hist) with
    | Some (s0 :: s1 :: _) =>
        let entropy := (s1 / (s0 + (1 # 1000000)))%Q in
        let p := (1 - Qmin (entropy * SVD_GAIN) 1)%Q in
        clip p 0%Q 1%Q
    | Some _ => 0%Q                      (* len(s) < 2 *)
    | None => 0%Q                        (* except Exception *)
    end.

(** *** [LPIMonitor] *)
Record LPIMonitor : Type := { mon_H : Q; mon_lpi : Q }.

Definition LPIMonitor_init : LPIMonitor := {| mon_H := 1; mon_lpi := 0 |}.

(** [LPIMonitor.update]; the result is the new monitor, whose [mon_lpi]
    and [mon_H] are the first two returned values. *)
Definition LPIMonitor_update (m : LPIMonitor) (d_t : Q) (is_safe : bool)
    : LPIMonitor :=
  let H_prev := mon_H m in
  let delta_H := (- STEP_DECAY - COLLAPSE_DECAY * d_t)%Q in
  let delta_H := if is_safe then (delta_H + RECOVERY_GAIN)%Q else delta_H in
  let H' := clip (mon_H m + delta_H)%Q 0%Q 1%Q in
  let damage := Qmax 0%Q (H_prev - H')%Q in
  let lpi_raw := (DAMAGE_GAIN * damage)%Q in
  {| mon_H := Qred H';
     mon_lpi := Qred (LPI_RHO * mon_lpi m + (1 - LPI_RHO) * lpi_raw)%Q |}.

(** *** [AgentB_StructGate] *)
Inductive Mode : Type := NORMAL | ESCAPE | SURVIVAL.

Definition Mode_eqb (a b : Mode) : bool :=
  match a, b with
  | NORMAL, NORMAL | ESCAPE, ESCAPE | SURVIVAL, SURVIVAL => true
  | _, _ => false
  end.

(** [pending_rescue] holds [(t, start_risk)]; [start_pos] is never read. *)
Record AgentB_StructGate : Type := {
  mon : LPIMonitor;
  mode : Mode;
  escape_timer : Z;
  cooldown : Z;
  pending_rescue : option (Z * Q);
  panic_events : Z;
  panic_saved : Z;
  risk_drop_events : Z;
  risk_drop_success : Z
}.

Definition AgentB_StructGate_init : AgentB_StructGate :=
  {| mon := LPIMonitor_init; mode := NORMAL; escape_timer := 0;
     cooldown := 0; pending_rescue := None; panic_events := 0;
     panic_saved := 0; risk_drop_events := 0; risk_drop_success := 0 |}.

(** [AgentB_StructGate._dynamic_thresholds]. *)
Definition panic_threshold (lpi : Q) (battery : Z) : Q :=
  let bat_ratio := (inject_Z battery / inject_Z BATTERY_MAX)%Q in
  let battery_pressure := (1 - bat_ratio)%Q in
  let panic_th :=
    (PANIC_TH_BASE - lpi * HUNGER_GAIN_PANIC
     - BAT_PRESSURE_GAIN * battery_pressure)%Q in
  clip panic_th (20 # 100) (95 # 100).

Definition battery_threshold (lpi : Q) : Q :=
  let bat_th := (LOW_BAT_BASE + lpi * HUNGER_GAIN_BAT)%Q in
  clip bat_th 5 (inject_Z (BATTERY_MAX - 1)).

Definition _dynamic_thresholds (lpi : Q) (battery : Z) : Q * Q :=
  (panic_threshold lpi battery, battery_threshold lpi).

(** What one call of [act] reads from outside the agent, besides the loop
    index [t] of [state_cache]: the reading [d_t] of [self.gate.panic()],
    the world, and the two random draws ([random.choice] in NORMAL mode,
    [greedy_to_dock_action] in SURVIVAL mode). *)
Record Obs : Type := {
  o_dt : Q;
  o_world : VacuumWorld;
  o_random : Action;
  o_greedy : Action
}.

(** The rescue-window block of [act]. *)
Definition rescue_update (ag : AgentB_StructGate) (t : Z) (d_t : Q)
    : AgentB_StructGate :=
  match pending_rescue ag with
  | Some (t0, start_risk) =>
      if RESCUE_WINDOW <=? t - t0 then
        {| mon := mon ag; mode := mode ag; escape_timer := escape_timer ag;
           cooldown := cooldown ag;
           pending_rescue := None;
           panic_events := panic_events ag;
           panic_saved := panic_saved ag + 1;
           risk_drop_events := risk_drop_events ag + 1;
           risk_drop_success :=
             if Qlt_bool d_t (start_risk - (15 # 100))%Q
             then risk_drop_success ag + 1 else risk_drop_success ag |}
      else ag
  | None => ag
  end.

(** The mode machine and the action selection of [act]. *)
Definition mode_update (ag : AgentB_StructGate) (t : Z) (o : Obs)
    (panic_th bat_th : Q) : Action * AgentB_StructGate :=
  let d_t := o_dt o in
  let world := o_world o in
  let cooldown1 := if 0 <? cooldown ag then cooldown ag - 1 else cooldown ag in
  let target_mode := mode ag in
  let target_mode :=
    if Qlt_bool (inject_Z (battery world)) bat_th then SURVIVAL
    else target_mode in
  let trigger :=
    Mode_eqb target_mode NORMAL && (cooldown1 =? 0) && Qle_bool panic_th d_t in
  let target_mode := if trigger then ESCAPE else target_mode in
  let escape_timer1 := if trigger then ESCAPE_STEPS else escape_timer ag in
  let cooldown2 := if trigger then COOLDOWN_STEPS else cooldown1 in
  let panic_events1 :=
    if trigger then panic_events ag + 1 else panic_events ag in
  let pending1 := if trigger then Some (t, d_t) else pending_rescue ag in
  let target_mode :=
    if Mode_eqb (mode ag) ESCAPE && (escape_timer1 <=? 0) then NORMAL
    else target_mode in
  let a :=
    match target_mode with
    | SURVIVAL => o_greedy o
    | ESCAPE => choose_escape_action world
    | NORMAL => o_random o
    end in
  let escape_timer2 :=
    match target_mode with
    | ESCAPE => escape_timer1 - 1
    | _ => escape_timer1
    end in
  (a, {| mon := mon ag; mode := target_mode; escape_timer := escape_timer2;
         cooldown := cooldown2; pending_rescue := pending1;
         panic_events := panic_events1; panic_saved := panic_saved ag;
         risk_drop_events := risk_drop_events ag;
         risk_drop_success := risk_drop_success ag |}).

(** [AgentB_StructGate.act]. *)
Definition act (ag : AgentB_StructGate) (t : Z) (o : Obs)
    : Action * AgentB_StructGate :=
  let world := o_world o in
  let d_t := o_dt o in
  let m := LPIMonitor_update (mon ag) d_t (pos_eqb (pos world) (dock world)) in
  let lpi := mon_lpi m in
  let '(panic_th, bat_th) := _dynamic_thresholds lpi (battery world) in
  let ag :=
    {| mon := m; mode := mode ag; escape_timer := escape_timer ag;
       cooldown := cooldown ag; pending_rescue := pending_rescue ag;
       panic_events := panic_events ag; panic_saved := panic_saved ag;
       risk_drop_events := risk_drop_events ag;
       risk_drop_success := risk_drop_success ag |} in
  let ag := rescue_update ag t d_t in
  mode_update ag t o panic_th bat_th.

(** The agent over the calls of one [run_single], whose loop is
    [for t in range(max_steps)]: [run_from t ag obs] makes the calls at
    [t], [t + 1], ... *)
Fixpoint run_from (t : Z) (ag : AgentB_StructGate) (obs : list Obs)
    : AgentB_StructGate :=
  match obs with
  | [] => ag
  | o :: rest => run_from (t + 1) (snd (act ag t o)) rest
  end.

Definition run_single (obs : list Obs) : AgentB_StructGate :=
  run_from 0 AgentB_StructGate_init obs.

End VacuumX.

(** ** Vacuum-X v0.4: the Coase frontier probe *)
Module Frontier.

(** *** Config *)
Definition MAX_STEPS : Z := 2000.
Definition SVD_WINDOW : nat := 10.
Definition RESCUE_WINDOW : Z := 12.
Definition BASE_PANIC_TH : Q := 8 # 10.
Definition BASE_LOW_BAT : Q := 20.
Definition BAT_MAX : Z := 60.
Definition GAIN_PANIC : Q := 4 # 10.
Definition GAIN_BAT : Q := 20.
Definition GAIN_BAT_PRESSURE : Q := 25 # 100.
Definition LPI_RHO : Q := 75 # 100.

Inductive Action : Type := UP | DOWN | LEFT | RIGHT.

(** [VacuumWorld], as far as [choose] reads it ([world.pos] is read only
    to feed the trajectory window, whose reading is an input below). *)
Record VacuumWorld : Type := {
  battery : Z;
  steps : Z
}.

Definition done (world : VacuumWorld) : bool :=
  (battery world <=? 0) || (MAX_STEPS <=? steps world).

(** *** [StructGate] *)
Definition hist_update (hist : list Pos) (p : Pos) : list Pos :=
  if (length hist <? SVD_WINDOW)%nat then hist ++ [p]
  else tl (hist ++ [p]).

(** [StructGate.risk]. *)
Definition risk (svd : svd_oracle) (hist : list Pos) : Q :=
  if (length hist <? 5)%nat then 0%Q
  else
    match svd (centre hist) with
    | Some (s0 :: s1 :: _) =>
        let entropy := (s1 / (s0 + (1 # 1000000)))%Q in
        (1 - Qmin (entropy * 5) 1)%Q
    | Some _ => 0%Q
    | None => 0%Q
    end.

(** *** [LPIMonitor] *)
Record LPIMonitor : Type := { mon_H : Q; mon_LPI : Q }.

Definition LPIMonitor_init : LPIMonitor := {| mon_H := 1; mon_LPI := 0 |}.

(** [LPIMonitor.update(risk)], with [forced] left at its default. *)
Definition LPIMonitor_update (m : LPIMonitor) (r : Q) : LPIMonitor :=
  let damage := ((1 # 1000) + (5 # 100) * r)%Q in
  let H_prev := mon_H m in
  let H' := Qmax 0%Q (mon_H m - damage)%Q in
  let dH := Qmax 0%Q (H_prev - H')%Q in
  let raw := (r + dH)%Q in
  {| mon_H := Qred H';
     mon_LPI := Qred (LPI_RHO * mon_LPI m + (1 - LPI_RHO) * raw)%Q |}.

(** *** [CoaseAgent] *)
Inductive Mode : Type := NORMAL | PANIC | SURVIVAL.

Definition Mode_eqb (a b : Mode) : bool :=
  match a, b with
  | NORMAL, NORMAL | PANIC, PANIC | SURVIVAL, SURVIVAL => true
  | _, _ => false
  end.

Record CoaseAgent : Type := {
  alpha : Q;
  lpi : LPIMonitor;
  mode : Mode;
  panic_events : Z;
  panic_saved : Z;
  last_panic_step : option Z
}.

Definition CoaseAgent_init (a : Q) : CoaseAgent :=
  {| alpha := a; lpi := LPIMonitor_init; mode := NORMAL;
     panic_events := 0; panic_saved := 0; last_panic_step := None |}.

Definition panic_th (a lpi_now : Q) (battery_now : Z) : Q :=
  let bat_ratio := (1 - inject_Z battery_now / inject_Z BAT_MAX)%Q in
  (BASE_PANIC_TH - a * GAIN_PANIC * lpi_now
   - a * GAIN_BAT_PRESSURE * bat_ratio)%Q.

Definition low_bat_th (a lpi_now : Q) : Q :=
  (BASE_LOW_BAT + a * GAIN_BAT * lpi_now)%Q.

(** What one call of [choose] reads from outside the agent: the world,
    the reading [r] of [self.sg.risk()] and the draw of [random.choice]. *)
Record Obs : Type := {
  o_world : VacuumWorld;
  o_r : Q;
  o_random : Action
}.

(** The mode block of [choose]. *)
Definition mode_update (ag : CoaseAgent) (m : LPIMonitor) (o : Obs)
    : CoaseAgent :=
  let world := o_world o in
  let r := o_r o in
  let pth := panic_th (alpha ag) (mon_LPI m) (battery world) in
  let lth := low_bat_th (alpha ag) (mon_LPI m) in
  if Qlt_bool (inject_Z (battery world)) lth then
    {| alpha := alpha ag; lpi := m; mode := SURVIVAL;
       panic_events := panic_events ag; panic_saved := panic_saved ag;
       last_panic_step := last_panic_step ag |}
  else if Qlt_bool pth r then
    if negb (Mode_eqb (mode ag) PANIC) then
      {| alpha := alpha ag; lpi := m; mode := PANIC;
         panic_events := panic_events ag + 1; panic_saved := panic_saved ag;
         last_panic_step := Some (steps world) |}
    else
      {| alpha := alpha ag; lpi := m; mode := PANIC;
         panic_events := panic_events ag; panic_saved := panic_saved ag;
         last_panic_step := last_panic_step ag |}
  else
    {| alpha := alpha ag; lpi := m; mode := NORMAL;
       panic_events := panic_events ag; panic_saved := panic_saved ag;
       last_panic_step := last_panic_step ag |}.

(** The rescue-accounting block of [choose]. *)
Definition rescue_update (ag : CoaseAgent) (world : VacuumWorld)
    : CoaseAgent :=
  match last_panic_step ag with
  | Some s =>
      if steps world - s =? RESCUE_WINDOW then
        {| alpha := alpha ag; lpi := lpi ag; mode := mode ag;
           panic_events := panic_events ag;
           panic_saved :=
             if negb (done world) then panic_saved ag + 1
             else panic_saved ag;
           last_panic_step := None |}
      else ag
  | None => ag
  end.

(** [CoaseAgent.choose]. *)
Definition choose (ag : CoaseAgent) (o : Obs) : Action * CoaseAgent :=
  let m := LPIMonitor_update (lpi ag) (o_r o) in
  let ag := mode_update ag m o in
  let ag := rescue_update ag (o_world o) in
  let a :=
    match mode ag with
    | NORMAL => o_random o
    | SURVIVAL => LEFT
    | PANIC => o_random o
    end in
  (a, ag).

(** The agent over the calls of one run of [run_alpha]:
    [while not world.done(): act = agent.choose(world); world.step(act)]. *)
Fixpoint run_from (ag : CoaseAgent) (obs : list Obs) : CoaseAgent :=
  match obs with
  | [] => ag
  | o :: rest => run_from (snd (choose ag o)) rest
  end.

(** The worlds seen by the calls of one run: [world.step] adds one to
    [world.steps], which starts at 0, and the loop stops when
    [world.done()]. *)
Fixpoint clocked (t : Z) (obs : list Obs) : Prop :=
  match obs with
  | [] => True
  | o :: rest =>
      steps (o_world o) = t /\ done (o_world o) = false /\ clocked (t + 1) rest
  end.

End Frontier.

(** ** Specification vocabulary for the grid searches *)
Module SearchSpec.
Import Snake.

Definition delta (m : Move) : Z * Z :=
  match m with
  | UP => (0, -1)
  | DOWN => (0, 1)
  | LEFT => (-1, 0)
  | RIGHT => (1, 0)
  end.

(** The cell entered by move [m] from [c]. *)
Definition step (c : Pos) (m : Move) : Pos :=
  (fst c + fst (delta m), snd c + snd (delta m)).

(** [path_to ok s p c]: the moves [p], taken from [s], end in [c] and enter
    only cells allowed by [ok].  The start cell itself is not tested, as in
    the code. *)
Inductive path_to (ok : Pos -> bool) (s : Pos) : list Move -> Pos -> Prop :=
| path_nil : path_to ok s [] s
| path_snoc : forall p c m,
    path_to ok s p c -> ok (step c m) = true ->
    path_to ok s (p ++ [m]) (step c m).

Definition reach (ok : Pos -> bool) (s c : Pos) : Prop :=
  exists p, path_to ok s p c.

(** The move that undoes [m]. *)
Definition opposite (m : Move) : Move :=
  match m with UP => DOWN | DOWN => UP | LEFT => RIGHT | RIGHT => LEFT end.

Definition manhattan (a b : Pos) : Z :=
  Z.abs (fst a - fst b) + Z.abs (snd a - snd b).

Definition in_grid (w h : Z) (c : Pos) : Prop :=
  0 <= fst c < w /\ 0 <= snd c < h.

(** The cells newly visited by one run of the inner loop, with the move
    that discovered each, in the order of discovery. *)
Fixpoint fresh (ok : Pos -> bool) (c : Pos) (moves : list (Move * (Z * Z)))
    (visited : list Pos) : list (Move * Pos) :=
  match moves with
  | [] => []
  | (m, (dx, dy)) :: rest =>
      let n := (fst c + dx, snd c + dy) in
      if ok n && negb (mem n visited)
      then (m, n) :: fresh ok c rest (n :: visited)
      else fresh ok c rest visited
  end.

(** Number of cells of [cells] that are allowed and not yet visited: with
    the queue length, the quantity that each loop iteration decreases. *)
Definition unvisited (ok : Pos -> bool) (cells visited : list Pos) : nat :=
  length (filter (fun c => ok c && negb (mem c visited)) cells).

(** Cells that were visited and have left the queue. *)
Definition closed {A : Type} (cell_of : A -> Pos) (q : list A)
    (visited : list Pos) (c : Pos) : Prop :=
  In c visited /\ ~ In c (map cell_of q).

(** The queue holds paths of one length [d], then paths of length [d + 1]. *)
Definition layered (q : list (Pos * list Move)) : Prop :=
  exists d q1 q2,
    q = q1 ++ q2 /\
    Forall (fun e => length (snd e) = d) q1 /\
    Forall (fun e => length (snd e) = S d) q2.

(** Loop invariant of [bfs_path]. *)
Record bfs_inv (ok : Pos -> bool) (s goal : Pos)
    (q : list (Pos * list Move)) (visited : list Pos) : Prop := {
  bi_start : In s visited;
  bi_path : forall c p, In (c, p) q -> path_to ok s p c;
  bi_vis : forall c p, In (c, p) q -> In c visited;
  bi_layer : layered q;
  bi_min : forall c p, In (c, p) q ->
           forall p', path_to ok s p' c -> (length p <= length p')%nat;
  bi_closed : forall c, closed fst q visited c ->
              c <> goal /\ forall m, ok (step c m) = true ->
                                     In (step c m) visited
}.

(** Loop invariant of [flood_fill_count]. *)
Record flood_inv (ok : Pos -> bool) (s : Pos)
    (q visited : list Pos) (count : Z) : Prop := {
  fi_start : In s visited;
  fi_nodup : NoDup visited;
  fi_count : count + Z.of_nat (length q) = Z.of_nat (length visited);
  fi_vis : forall c, In c q -> In c visited;
  fi_reach : forall c, In c visited -> reach ok s c;
  fi_closed : forall c, closed (fun x => x) q visited c ->
              forall m, ok (step c m) = true -> In (step c m) visited
}.

(** [StructGate.analyze_risk] as the specification words its topological
    component: the area reachable from the head "over the obstacle set
    defined by the rest of the body".  To be compared with
    [Snake.analyze_risk], which passes the whole body. *)
Definition analyze_risk_rest_of_body (svd : svd_oracle)
    (snake_body : list Pos) (w h : Z) : Q :=
  match snake_body with
  | head :: _ :: _ :: _ =>
      let geom_risk := geom_risk_of (svd (centre snake_body)) in
      let area := flood_fill_count head (tl snake_body) w h in
      let topo_risk := topo_risk_of area (length snake_body) in
      (W_TOPO * topo_risk + W_GEOM * geom_risk)%Q
  | _ => 0%Q
  end.

(** Two free cells of one 4-connected component of the free region. *)
Definition same_component (obstacles : list Pos) (w h : Z) (a b : Pos)
    : Prop :=
  passable obstacles w h a = true /\
  passable obstacles w h b = true /\
  reach (passable obstacles w h) a b.

(** All four neighbours of [head] are out of bounds or obstacles. *)
Definition boxed (obstacles : list Pos) (w h : Z) (head : Pos) : Prop :=
  forall m, passable obstacles w h (step head m) = false.

End SearchSpec.

(** ** Specification vocabulary for the panic state machines *)
Module PanicSpec.

(** Number of steps of a trace of modes at which the mode passes from one
    that satisfies [from] to one that satisfies [to]; [prev] is the mode
    before the first step. *)
Fixpoint entries {M : Type} (from to : M -> bool) (prev : M)
    (trace : list M) : nat :=
  match trace with
  | [] => 0
  | m :: rest =>
      ((if from prev && to m then 1 else 0) + entries from to m rest)%nat
  end.

(** Snake: the flag [in_panic] after each call of a run ([true] is PANIC,
    [false] is NORMAL). *)
Fixpoint snake_flags (risk_f : risk_oracle) (ag : Snake.BaseAgent)
    (games : list Snake.SnakeGame) : list bool :=
  match games with
  | [] => []
  | g :: rest =>
      match Snake.get_action risk_f ag g with
      | Some (_, ag') => Snake.in_panic ag' :: snake_flags risk_f ag' rest
      | None => []
      end
  end.

Fixpoint sweep_flags (risk_f : risk_oracle) (ag : SnakeSweep.SweepAgent)
    (games : list Snake.SnakeGame) : list bool :=
  match games with
  | [] => []
  | g :: rest =>
      match SnakeSweep.get_action risk_f ag g with
      | Some (_, ag') =>
          Snake.in_panic (SnakeSweep.base ag') :: sweep_flags risk_f ag' rest
      | None => []
      end
  end.

(** Vacuum-X v0.3: the mode after each call of a run. *)
Fixpoint vacuum_modes (t : Z) (ag : VacuumX.AgentB_StructGate)
    (obs : list VacuumX.Obs) : list VacuumX.Mode :=
  match obs with
  | [] => []
  | o :: rest =>
      let ag' := snd (VacuumX.act ag t o) in
      VacuumX.mode ag' :: vacuum_modes (t + 1) ag' rest
  end.

(** The agent when call number [i] of the run begins. *)
Definition vacuum_at (obs : list VacuumX.Obs) (i : nat)
    : VacuumX.AgentB_StructGate :=
  VacuumX.run_single (firstn i obs).

(** Call [i] starts an episode; call [i] evaluates a rescue; call [i]
    counts a risk drop. *)
Definition vacuum_started (obs : list VacuumX.Obs) (i : nat) : Prop :=
  VacuumX.panic_events (vacuum_at obs (S i))
  = VacuumX.panic_events (vacuum_at obs i) + 1.

Definition vacuum_evaluated (obs : list VacuumX.Obs) (i : nat) : Prop :=
  VacuumX.panic_saved (vacuum_at obs (S i))
  = VacuumX.panic_saved (vacuum_at obs i) + 1.

Definition vacuum_risk_dropped (obs : list VacuumX.Obs) (i : nat) : Prop :=
  VacuumX.risk_drop_success (vacuum_at obs (S i))
  = VacuumX.risk_drop_success (vacuum_at obs i) + 1.

(** Coase frontier probe: the same notions. *)
Fixpoint frontier_modes (ag : Frontier.CoaseAgent) (obs : list Frontier.Obs)
    : list Frontier.Mode :=
  match obs with
  | [] => []
  | o :: rest =>
      let ag' := snd (Frontier.choose ag o) in
      Frontier.mode ag' :: frontier_modes ag' rest
  end.

Definition frontier_at (a : Q) (obs : list Frontier.Obs) (i : nat)
    : Frontier.CoaseAgent :=
  Frontier.run_from (Frontier.CoaseAgent_init a) (firstn i obs).

Definition frontier_started (a : Q) (obs : list Frontier.Obs) (i : nat)
    : Prop :=
  Frontier.panic_events (frontier_at a obs (S i))
  = Frontier.panic_events (frontier_at a obs i) + 1.

Definition frontier_evaluated (a : Q) (obs : list Frontier.Obs) (i : nat)
    : Prop :=
  Frontier.panic_saved (frontier_at a obs (S i))
  = Frontier.panic_saved (frontier_at a obs i) + 1.

(** *** Two runs used as test inputs *)

(** Vacuum-X v0.3, 28 calls.  The agent was spawned at (5,5) in a pocket:
    its four neighbours are obstacles (36 obstacles in all, the dock at
    (0,0) is free).  It cannot move, so the battery is [60 - t] at call
    [t], and the trajectory window, full from call 9 on, holds ten equal
    points, whose reading is 1. *)
Definition pocket_grid : list (list Z) :=
  map (fun x =>
         map (fun y =>
                if (10 <=? x) || ((x =? 9) && (y <? 8))
                   || mem (x, y) [(4, 5); (6, 5); (5, 4); (5, 6)]
                then 1 else 0)
             (zrange 12))
      (zrange 12).

(** The trajectory window of the pocket run after [k] updates. *)
Definition pocket_hist (k : nat) : list Pos :=
  fold_left (VacuumX.hist_update VacuumX.SVD_WINDOW) (repeat (5, 5) k) [].

Definition pocket_run : list VacuumX.Obs :=
  map (fun t =>
         {| VacuumX.o_dt := if 9 <=? t then 1%Q else 0%Q;
            VacuumX.o_world :=
              {| VacuumX.w := 12; VacuumX.h := 12;
                 VacuumX.grid := pocket_grid;
                 VacuumX.dock := (0, 0); VacuumX.pos := (5, 5);
                 VacuumX.battery := 60 - t; VacuumX.steps := t |};
            VacuumX.o_random := VacuumX.UP;
            VacuumX.o_greedy := VacuumX.STAY |})
      (zrange 28).

(** Coase frontier probe, alpha = 1, 52 calls.  The agent leaves the dock,
    wanders (reading 0) while the battery falls from 60 to 20, then homes
    to the dock in a straight line along the row y = 0; from call 49 on the
    window holds ten collinear points, whose reading is 1; at call 51 it is
    back on the dock, where the battery is 60 again. *)
Definition homing_run : list Frontier.Obs :=
  map (fun t =>
         {| Frontier.o_world :=
              {| Frontier.battery :=
                   if (t =? 0) || (t =? 51) then 60 else 60 - t;
                 Frontier.steps := t |};
            Frontier.o_r := if 49 <=? t then 1%Q else 0%Q;
            Frontier.o_random := Frontier.UP |})
      (zrange 52).

End PanicSpec.

(** ** Snake-SHM v0.3.2: the game and the run loop *)
Module SnakeEnv.
Import Snake.

Inductive Death : Type := ALIVE | Collision | Starvation.

(** [SnakeGame] in full: the part the agent reads ([Snake.SnakeGame]),
    [done] and [death]. *)
Record Game : Type := {
  state : SnakeGame;
  done : bool;
  death : Death
}.

(** [SnakeGame._spawn_food].  [draws] are the pairs
    [(random.randint(0, w - 1), random.randint(0, h - 1))] in the order
    they are drawn; the loop tries at most 100 of them. *)
Definition _spawn_food (draws : list Pos) (snake : list Pos) : Pos :=
  match find (fun p => negb (mem p snake)) (firstn 100 draws) with
  | Some p => p
  | None => (0, 0)
  end.

(** [SnakeGame.__init__], but for the seeding of the generators. *)
Definition SnakeGame_init (draws : list Pos) : Game :=
  let snake0 := [(GRID_W / 2, GRID_H / 2)] in
  {| state := {| snake := snake0; food := _spawn_food draws snake0;
                 w := GRID_W; h := GRID_H;
                 steps_since_food := 0; steps_total := 0 |};
     done := false;
     death := ALIVE |}.

(** The displacement chosen by the chain of string comparisons of
    [step]; any other action, [None] included, leaves it at (0, 0). *)
Definition action_delta (action : option Move) : Z * Z :=
  match action with
  | Some UP => (0, -1)
  | Some DOWN => (0, 1)
  | Some LEFT => (-1, 0)
  | Some RIGHT => (1, 0)
  | None => (0, 0)
  end.

(** [SnakeGame.step].  The outer [None] is the [IndexError] of
    [self.snake[0]] on an empty snake. *)
Definition step (draws : list Pos) (g : Game) (action : option Move)
    : option Game :=
  if done g then Some g
  else
    let s := state g in
    match snake s with
    | [] => None
    | head :: _ =>
        let total := steps_total s + 1 in
        let hunger := steps_since_food s + 1 in
        let n := (fst head + fst (action_delta action),
                  snd head + snd (action_delta action)) in
        if negb ((0 <=? fst n) && (fst n <? w s)
                 && (0 <=? snd n) && (snd n <? h s))
           || mem n (removelast (snake s))
        then
          Some {| state := {| snake := snake s; food := food s;
                              w := w s; h := h s;
                              steps_since_food := hunger;
                              steps_total := total |};
                  done := true;
                  death := Collision |}
        else
          let grown := n :: snake s in
          let eaten := pos_eqb n (food s) in
          let snake' := if eaten then grown else removelast grown in
          let hunger' := if eaten then 0 else hunger in
          let food' := if eaten then _spawn_food draws grown else food s in
          let starved := MAX_STEPS_WITHOUT_FOOD <=? hunger' in
          Some {| state := {| snake := snake'; food := food';
                              w := w s; h := h s;
                              steps_since_food := hunger';
                              steps_total := total |};
                  done := starved;
                  death := if starved then Starvation else death g |}
    end.

(** The loop of [run_experiment] for one seed:
    [while not game.done and game.steps_total < Config.MAX_TOTAL_STEPS].
    [draws k] are the draws available to the step taken when
    [steps_total] is [k].  [Ret None] is an [IndexError]. *)
Fixpoint play (fuel : nat) (risk_f : risk_oracle) (draws : Z -> list Pos)
    (ag : BaseAgent) (g : Game) : run (option (BaseAgent * Game)) :=
  match fuel with
  | O => Timeout
  | S fuel' =>
      if negb (done g) && (steps_total (state g) <? MAX_TOTAL_STEPS) then
        match get_action risk_f ag (state g) with
        | None => Ret None
        | Some (action, ag') =>
            match step (draws (steps_total (state g))) g action with
            | None => Ret None
            | Some g' => play fuel' risk_f draws ag' g'
            end
        end
      else Ret (Some (ag, g))
  end.

(** Fuel for [play]: one iteration per step still allowed, and one more
    to see the loop condition fail. *)
Definition play_fuel (g : Game) : nat :=
  S (Z.to_nat (MAX_TOTAL_STEPS - steps_total (state g))).

End SnakeEnv.

(** ** Vacuum-X v0.3: the world, the homing helper and the run loop *)
Module VacuumEnv.
Import VacuumX.

Definition STUCK_WINDOW : nat := 12.

(** Result of [VacuumWorld.step]: the world after the step, the new
    value of [recharge_cycles], and the entries [moved] and [done] of the
    returned dictionary. *)
Record StepResult : Type := {
  res_world : VacuumWorld;
  res_recharge_cycles : Z;
  res_moved : bool;
  res_done : bool
}.

(** [VacuumWorld.step]. *)
Definition step (world : VacuumWorld) (recharge_cycles : Z)
    (action : Action) : StepResult :=
  let np_ := move (pos world) action in
  let free := is_free world np_ in
  let pos' := if free then np_ else pos world in
  let moved := if free then negb (pos_eqb np_ (pos world)) else false in
  let at_dock := pos_eqb pos' (dock world) in
  let recharge' :=
    if at_dock && (battery world <? BATTERY_MAX) then recharge_cycles + 1
    else recharge_cycles in
  let battery' := if at_dock then BATTERY_MAX else battery world - 1 in
  {| res_world := {| w := w world; h := h world; grid := grid world;
                     dock := dock world; pos := pos';
                     battery := battery'; steps := steps world + 1 |};
     res_recharge_cycles := recharge';
     res_moved := moved;
     res_done := battery' <=? 0 |}.

(** The list [cand] of [greedy_to_dock_action] before it is shuffled. *)
Definition dock_candidates (world : VacuumWorld) : list Action :=
  let px := fst (pos world) in
  let py := snd (pos world) in
  let tx := fst (dock world) in
  let ty := snd (dock world) in
  (if px <? tx then [RIGHT] else [])
  ++ (if tx <? px then [LEFT] else [])
  ++ (if py <? ty then [DOWN] else [])
  ++ (if ty <? py then [UP] else []).

(** [greedy_to_dock_action].  [shuffle] is what [random.shuffle] makes of
    the candidates and [fallback] the draw of the final [random.choice]. *)
Definition greedy_to_dock_action (shuffle : list Action -> list Action)
    (fallback : Action) (world : VacuumWorld) : Action :=
  match find (fun a => is_free world (move (pos world) a))
             (shuffle (dock_candidates world)) with
  | Some a => a
  | None => fallback
  end.

(** [AgentA_Baseline.act]: the action and the mode. *)
Definition AgentA_act (world : VacuumWorld) (random greedy : Action)
    : Action * Mode :=
  if Qlt_bool (inject_Z (battery world)) LOW_BAT_BASE
  then (greedy, SURVIVAL)
  else (random, NORMAL).

(** [AgentB_StructGate] with its trajectory window. *)
Record AgentB_full : Type := {
  gate_hist : list Pos;
  agent : AgentB_StructGate
}.

Definition AgentB_full_init : AgentB_full :=
  {| gate_hist := []; agent := AgentB_StructGate_init |}.

(** The random draws of one loop iteration. *)
Record Draw : Type := {
  d_random : Action;
  d_shuffle : list Action -> list Action;
  d_fallback : Action
}.

(** What [act] observes in one iteration: the reading of the gate after
    its update, the world and the draws. *)
Definition observe (svd : svd_oracle) (hist : list Pos)
    (world : VacuumWorld) (d : Draw) : Obs :=
  {| o_dt := panic svd SVD_WINDOW hist;
     o_world := world;
     o_random := d_random d;
     o_greedy := greedy_to_dock_action (d_shuffle d) (d_fallback d) world |}.

(** [AgentB_StructGate.act], the update of the gate included. *)
Definition act_full (svd : svd_oracle) (a : AgentB_full) (t : Z)
    (world : VacuumWorld) (d : Draw) : Action * AgentB_full :=
  let hist := hist_update SVD_WINDOW (gate_hist a) (pos world) in
  let '(chosen, ag') := act (agent a) t (observe svd hist world d) in
  (chosen, {| gate_hist := hist; agent := ag' |}).

(** The state threaded by the loop of [run_single] (agent type "B"). *)
Record RunState : Type := {
  rs_world : VacuumWorld;
  rs_recharge_cycles : Z;
  rs_agent : AgentB_full;
  rs_moved_hist : list Z;
  rs_deadlock_steps : Z;
  rs_useful_moves : Z
}.

Definition RunState_init (world : VacuumWorld) : RunState :=
  {| rs_world := world; rs_recharge_cycles := 0;
     rs_agent := AgentB_full_init; rs_moved_hist := [];
     rs_deadlock_steps := 0; rs_useful_moves := 0 |}.

(** [deque(maxlen=Cfg.STUCK_WINDOW).append]. *)
Definition moved_update (hist : list Z) (x : Z) : list Z :=
  if (length hist <? STUCK_WINDOW)%nat then hist ++ [x]
  else tl (hist ++ [x]).

Definition zsum (l : list Z) : Z := fold_right Z.add 0 l.

(** One iteration of the loop of [run_single]; the boolean is
    [res["done"]]. *)
Definition run_iter (svd : svd_oracle) (t : Z) (d : Draw) (st : RunState)
    : RunState * bool :=
  let '(a, ag') := act_full svd (rs_agent st) t (rs_world st) d in
  let res := step (rs_world st) (rs_recharge_cycles st) a in
  let moved_hist := moved_update (rs_moved_hist st)
                      (if res_moved res then 1 else 0) in
  let useful := if res_moved res then rs_useful_moves st + 1
                else rs_useful_moves st in
  let deadlock :=
    if (length moved_hist =? STUCK_WINDOW)%nat && (zsum moved_hist =? 0)
    then rs_deadlock_steps st + 1 else rs_deadlock_steps st in
  ({| rs_world := res_world res;
      rs_recharge_cycles := res_recharge_cycles res;
      rs_agent := ag';
      rs_moved_hist := moved_hist;
      rs_deadlock_steps := deadlock;
      rs_useful_moves := useful |},
   res_done res).

(** The loop [for t in range(max_steps)] of [run_single], with its
    [break]: one element of [draws] per value of [t], from [t] on. *)
Fixpoint run_loop (svd : svd_oracle) (t : Z) (draws : list Draw)
    (st : RunState) : RunState :=
  match draws with
  | [] => st
  | d :: rest =>
      let '(st', finished) := run_iter svd t d st in
      if finished then st' else run_loop svd (t + 1) rest st'
  end.

(** [run_single] for agent type "B" on a given initial world. *)
Definition run_single (svd : svd_oracle) (world : VacuumWorld)
    (draws : list Draw) : RunState :=
  run_loop svd 0 draws (RunState_init world).

(** The observations made by the calls of [act] in that loop. *)
Fixpoint run_trace (svd : svd_oracle) (t : Z) (draws : list Draw)
    (st : RunState) : list Obs :=
  match draws with
  | [] => []
  | d :: rest =>
      let hist := hist_update SVD_WINDOW (gate_hist (rs_agent st))
                    (pos (rs_world st)) in
      let o := observe svd hist (rs_world st) d in
      let '(st', finished) := run_iter svd t d st in
      if finished then [o] else o :: run_trace svd (t + 1) rest st'
  end.

(** The rates of [summarize]: [(ps / pe) if pe > 0 else 0.0]. *)
Definition rate (num den : Z) : Q :=
  if 0 <? den then (inject_Z num / inject_Z den)%Q else 0%Q.

End VacuumEnv.

(** ** Vacuum-X v0.4: the world and the run loop *)
Module FrontierEnv.
Import Frontier.

Definition GRID_W : Z := 12.
Definition GRID_H : Z := 12.

(** [VacuumWorld] in full. *)
Record World : Type := {
  grid : list (list Z);
  pos : Pos;
  battery : Z;
  steps : Z
}.

(** What [CoaseAgent.choose] reads of it. *)
Definition view (world : World) : VacuumWorld :=
  {| Frontier.battery := battery world; Frontier.steps := steps world |}.

Definition grid_at (world : World) (p : Pos) : Z :=
  nth (Z.to_nat (snd p)) (nth (Z.to_nat (fst p)) (grid world) []) 0.

Definition action_delta (action : Action) : Z * Z :=
  match action with
  | UP => (0, -1)
  | DOWN => (0, 1)
  | LEFT => (-1, 0)
  | RIGHT => (1, 0)
  end.

(** [VacuumWorld.step]. *)
Definition step (world : World) (action : Action) : World :=
  let n := (fst (pos world) + fst (action_delta action),
            snd (pos world) + snd (action_delta action)) in
  let pos' :=
    if (0 <=? fst n) && (fst n <? GRID_W) && (0 <=? snd n) && (snd n <? GRID_H)
       && (grid_at world n =? 0)
    then n else pos world in
  let battery' := battery world - 1 in
  let battery' := if pos_eqb pos' (0, 0) then BAT_MAX else battery' in
  {| grid := grid world; pos := pos'; battery := battery';
     steps := steps world + 1 |}.

(** [CoaseAgent] with its trajectory window. *)
Record CoaseAgent_full : Type := {
  sg_hist : list Pos;
  agent : CoaseAgent
}.

Definition CoaseAgent_full_init (a : Q) : CoaseAgent_full :=
  {| sg_hist := []; agent := CoaseAgent_init a |}.

Definition observe (svd : svd_oracle) (hist : list Pos) (world : World)
    (random : Action) : Obs :=
  {| o_world := view world; o_r := risk svd hist; o_random := random |}.

(** [CoaseAgent.choose], the update of the window included. *)
Definition choose_full (svd : svd_oracle) (a : CoaseAgent_full)
    (world : World) (random : Action) : Action * CoaseAgent_full :=
  let hist := hist_update (sg_hist a) (pos world) in
  let '(chosen, ag') := choose (agent a) (observe svd hist world random) in
  (chosen, {| sg_hist := hist; agent := ag' |}).

(** The state threaded by the loop of [run_alpha] for one seed. *)
Record RunState : Type := {
  rs_world : World;
  rs_agent : CoaseAgent_full;
  rs_useful_steps : Z
}.

(** [while not world.done()] of [run_alpha]: one draw of [random.choice]
    is consumed per iteration; [Timeout] when the draws run out before
    the world is done. *)
Fixpoint run_loop (svd : svd_oracle) (draws : list Action) (st : RunState)
    : run RunState :=
  if done (view (rs_world st)) then Ret st
  else
    match draws with
    | [] => Timeout
    | d :: rest =>
        let '(act_, ag') :=
          choose_full svd (rs_agent st) (rs_world st) d in
        let world' := step (rs_world st) act_ in
        let useful :=
          if Mode_eqb (mode (agent ag')) NORMAL then rs_useful_steps st + 1
          else rs_useful_steps st in
        run_loop svd rest
          {| rs_world := world'; rs_agent := ag'; rs_useful_steps := useful |}
    end.

(** The observations made by the calls of [choose] in that loop. *)
Fixpoint run_trace (svd : svd_oracle) (draws : list Action) (st : RunState)
    : list Obs :=
  if done (view (rs_world st)) then []
  else
    match draws with
    | [] => []
    | d :: rest =>
        let hist := hist_update (sg_hist (rs_agent st)) (pos (rs_world st)) in
        let o := observe svd hist (rs_world st) d in
        let '(act_, ag') :=
          choose_full svd (rs_agent st) (rs_world st) d in
        let world' := step (rs_world st) act_ in
        let useful :=
          if Mode_eqb (mode (agent ag')) NORMAL then rs_useful_steps st + 1
          else rs_useful_steps st in
        o :: run_trace svd rest
               {| rs_world := world'; rs_agent := ag';
                  rs_useful_steps := useful |}
    end.

(** [save_rate] of [run_alpha] for one run:
    [saved / max(1, panic)]. *)
Definition save_rate (saved panic : Z) : Q :=
  (inject_Z saved / inject_Z (Z.max 1 panic))%Q.

End FrontierEnv.

(** ** Further specification vocabulary *)
Module MoreSpec.

(** The last [n] elements of a list. *)
Definition lastn {A : Type} (n : nat) (l : list A) : list A :=
  skipn (length l - n) l.

(** Number of [true] flags. *)
Definition count_true (l : list bool) : nat := length (filter (fun b => b) l).

(** Following the move returned by [bfs_path] for at most [n] steps, on
    fixed obstacles. *)
Fixpoint follow (n : nat) (c goal : Pos) (obstacles : list Pos) (w h : Z)
    : Pos :=
  match n with
  | O => c
  | S n' =>
      match Snake.bfs_path c goal obstacles w h with
      | Some m => follow n' (SearchSpec.step c m) goal obstacles w h
      | None => c
      end
  end.


(** The binary64 thresholds at one hunger lie between the base and the
    base plus the gain, for the Coase agent and for every alpha of [l]. *)
Definition within_on (l : list float) (hunger : Z) : bool :=
  (Snake.RISK_THRESHOLD_BASE_f <=? Snake.risk_threshold_f hunger)%float
  && (Snake.risk_threshold_f hunger
      <=? Snake.RISK_THRESHOLD_BASE_f + Snake.RISK_HUNGER_GAIN_f)%float
  && forallb
       (fun a =>
          (Snake.RISK_THRESHOLD_BASE_f <=? SnakeSweep.threshold_f a hunger)%float
          && (SnakeSweep.threshold_f a hunger
              <=? Snake.RISK_THRESHOLD_BASE_f
                  + SnakeSweep.effective_gain_f a)%float)
       l.

(** Consecutive cells of a snake are neighbours on the grid. *)
Fixpoint chain (l : list Pos) : Prop :=
  match l with
  | a :: ((b :: _) as rest) => SearchSpec.manhattan a b = 1 /\ chain rest
  | _ => True
  end.

End MoreSpec.

(* ================================================================== *)
(** * Part II.  Properties                                             *)
(* ================================================================== *)

(** ** Cells, membership and the grid *)

Lemma pos_eqb_eq (a b : Pos) : pos_eqb a b = true <-> a = b.
Proof.
  unfold pos_eqb. destruct a as [ax ay], b as [bx by']. simpl.
  rewrite andb_true_iff, !Z.eqb_eq. split.
  - intros [-> ->]. reflexivity.
  - intros E. inversion E. auto.
Qed.

Lemma pos_eqb_refl (a : Pos) : pos_eqb a a = true.
Proof. apply pos_eqb_eq. reflexivity. Qed.

Lemma pos_eqb_neq (a b : Pos) : pos_eqb a b = false <-> a <> b.
Proof.
  rewrite <- pos_eqb_eq. destruct (pos_eqb a b); split; congruence.
Qed.

Lemma pos_eq_dec (a b : Pos) : {a = b} + {a <> b}.
Proof.
  destruct (pos_eqb a b) eqn:E.
  - left. apply pos_eqb_eq. exact E.
  - right. apply pos_eqb_neq. exact E.
Qed.

Lemma mem_cons (p n : Pos) (s : list Pos) :
  mem p (n :: s) = pos_eqb p n || mem p s.
Proof. reflexivity. Qed.

Lemma mem_In (p : Pos) (s : list Pos) : mem p s = true <-> In p s.
Proof.
  unfold mem. rewrite existsb_exists. split.
  - intros [x [Hx E]]. apply pos_eqb_eq in E. subst. exact Hx.
  - intros Hp. exists p. split; [exact Hp | apply pos_eqb_refl].
Qed.

Lemma mem_not_In (p : Pos) (s : list Pos) : mem p s = false <-> ~ In p s.
Proof.
  rewrite <- mem_In. destruct (mem p s); split; congruence.
Qed.

Lemma in_zrange (n x : Z) : 0 <= x < n -> In x (zrange n).
Proof.
  intros Hx. unfold zrange. apply in_map_iff.
  exists (Z.to_nat x). split; [lia |]. apply in_seq. lia.
Qed.

Lemma in_grid_cells (w h : Z) (c : Pos) :
  0 <= fst c < w -> 0 <= snd c < h -> In c (grid_cells w h).
Proof.
  destruct c as [x y]. simpl. intros Hx Hy.
  unfold grid_cells. apply in_prod; apply in_zrange; assumption.
Qed.

Lemma passable_spec obstacles w h n :
  Snake.passable obstacles w h n = true <->
  SearchSpec.in_grid w h n /\ ~ In n obstacles.
Proof.
  unfold Snake.passable, SearchSpec.in_grid.
  rewrite !andb_true_iff, negb_true_iff, mem_not_In.
  rewrite !Z.leb_le, !Z.ltb_lt. tauto.
Qed.

Lemma passable_in_cells obstacles w h n :
  Snake.passable obstacles w h n = true -> In n (grid_cells w h).
Proof.
  intros Hp. apply passable_spec in Hp. destruct Hp as [[Hx Hy] _].
  apply in_grid_cells; assumption.
Qed.

(** ** The inner loop of the searches *)
Section Expand.
Import Snake SearchSpec.
Variable ok : Pos -> bool.

Lemma MOVES_delta : Forall (fun e => snd e = delta (fst e)) MOVES.
Proof. repeat constructor. Qed.

Lemma MOVES_all (m : Move) : In (m, delta m) MOVES.
Proof. destruct m; simpl; auto. Qed.

Lemma expand_fresh {A : Type} (enq : Move -> Pos -> A) c moves :
  forall q vis,
    expand enq ok c moves q vis =
    (q ++ map (fun e => enq (fst e) (snd e)) (fresh ok c moves vis),
     rev (map snd (fresh ok c moves vis)) ++ vis).
Proof.
  induction moves as [| [m [dx dy]] rest IH]; intros q vis; simpl.
  - rewrite app_nil_r. reflexivity.
  - destruct (ok (fst c + dx, snd c + dy)
              && negb (mem (fst c + dx, snd c + dy) vis)).
    + rewrite IH. simpl. rewrite <- !app_assoc. reflexivity.
    + apply IH.
Qed.

Lemma fresh_sound c moves :
  Forall (fun e => snd e = delta (fst e)) moves ->
  forall vis m n,
    In (m, n) (fresh ok c moves vis) ->
    n = step c m /\ ok n = true /\ ~ In n vis.
Proof.
  induction 1 as [| [m0 [dx dy]] rest Hd _ IH]; intros vis m n Hin;
    simpl in Hin.
  - contradiction.
  - simpl in Hd.
    destruct (ok (fst c + dx, snd c + dy)
              && negb (mem (fst c + dx, snd c + dy) vis)) eqn:E.
    + destruct Hin as [Heq | Hin].
      * inversion Heq; subst m n. apply andb_true_iff in E.
        destruct E as [E1 E2]. apply negb_true_iff, mem_not_In in E2.
        unfold step. rewrite <- Hd. simpl. auto.
      * apply IH in Hin. destruct Hin as [H1 [H2 H3]].
        repeat split; auto. intros Hv. apply H3. right. exact Hv.
    + apply IH in Hin. exact Hin.
Qed.

Lemma fresh_complete c moves :
  forall vis m d,
    In (m, d) moves -> ok (fst c + fst d, snd c + snd d) = true ->
    In (fst c + fst d, snd c + snd d)
       (rev (map snd (fresh ok c moves vis)) ++ vis).
Proof.
  induction moves as [| [m0 [dx dy]] rest IH]; intros vis m d Hin Hok;
    simpl in Hin.
  - contradiction.
  - simpl.
    destruct (ok (fst c + dx, snd c + dy)
              && negb (mem (fst c + dx, snd c + dy) vis)) eqn:E.
    + simpl. rewrite <- app_assoc. simpl.
      destruct Hin as [Heq | Hin].
      * inversion Heq; subst. simpl. apply in_or_app. right. left.
        reflexivity.
      * apply (IH (_ :: vis) m d Hin Hok).
    + destruct Hin as [Heq | Hin].
      * inversion Heq; subst. simpl in *. rewrite Hok in E. simpl in E.
        apply negb_false_iff, mem_In in E. apply in_or_app. right. exact E.
      * apply (IH vis m d Hin Hok).
Qed.

Lemma fresh_nodup c moves :
  forall vis, NoDup vis ->
    NoDup (rev (map snd (fresh ok c moves vis)) ++ vis).
Proof.
  induction moves as [| [m0 [dx dy]] rest IH]; intros vis Hnd; simpl.
  - exact Hnd.
  - destruct (ok (fst c + dx, snd c + dy)
              && negb (mem (fst c + dx, snd c + dy) vis)) eqn:E.
    + simpl. rewrite <- app_assoc. simpl. apply IH.
      apply andb_true_iff in E. destruct E as [_ E].
      apply negb_true_iff, mem_not_In in E. constructor; assumption.
    + apply IH. exact Hnd.
Qed.

Lemma fresh_length c moves :
  forall vis,
    length (rev (map snd (fresh ok c moves vis)) ++ vis)
    = (length (fresh ok c moves vis) + length vis)%nat.
Proof.
  intros vis. rewrite length_app, length_rev, length_map. reflexivity.
Qed.

(** Visiting one more allowed cell of [cells] lowers [unvisited]. *)
Lemma unvisited_cons_le cells vis n :
  (unvisited ok cells (n :: vis) <= unvisited ok cells vis)%nat.
Proof.
  unfold unvisited. induction cells as [| x xs IH]; cbn [filter length];
    [lia |].
  rewrite mem_cons.
  destruct (ok x), (pos_eqb x n), (mem x vis); cbn [andb orb negb length];
    lia.
Qed.

Lemma unvisited_cons_lt cells vis n :
  In n cells -> ok n = true -> ~ In n vis ->
  (unvisited ok cells (n :: vis) < unvisited ok cells vis)%nat.
Proof.
  unfold unvisited. intros Hin Hok Hnv.
  induction cells as [| x xs IH]; cbn [filter length]; [contradiction |].
  rewrite mem_cons.
  destruct Hin as [-> | Hin].
  - rewrite Hok, pos_eqb_refl.
    apply mem_not_In in Hnv. rewrite Hnv. cbn [andb orb negb length].
    pose proof (unvisited_cons_le xs vis n) as Hle. unfold unvisited in Hle.
    lia.
  - specialize (IH Hin).
    destruct (ok x), (pos_eqb x n), (mem x vis); cbn [andb orb negb length];
      lia.
Qed.

Lemma fresh_measure cells c moves :
  (forall n, ok n = true -> In n cells) ->
  forall vis,
    (unvisited ok cells (rev (map snd (fresh ok c moves vis)) ++ vis)
     + length (fresh ok c moves vis) <= unvisited ok cells vis)%nat.
Proof.
  intros Hcells.
  induction moves as [| [m0 [dx dy]] rest IH]; intros vis; cbn [fresh].
  - cbn [map rev app length]. lia.
  - destruct (ok (fst c + dx, snd c + dy)
              && negb (mem (fst c + dx, snd c + dy) vis)) eqn:E.
    + cbn [map snd rev length]. rewrite <- app_assoc. cbn [app].
      apply andb_true_iff in E. destruct E as [E1 E2].
      apply negb_true_iff, mem_not_In in E2.
      specialize (IH ((fst c + dx, snd c + dy) :: vis)).
      pose proof (unvisited_cons_lt cells vis _ (Hcells _ E1) E1 E2) as Hlt.
      rewrite Nat.add_succ_r. apply Nat.le_succ_l.
      eapply Nat.le_lt_trans; [exact IH | exact Hlt].
    + apply IH.
Qed.

End Expand.

(** ** Paths *)
Section Paths.
Import Snake SearchSpec.
Variable ok : Pos -> bool.

Lemma path_to_cons s m p c :
  ok (step s m) = true -> path_to ok (step s m) p c ->
  path_to ok s (m :: p) c.
Proof.
  intros Hok Hp. induction Hp as [| p c m' Hp IH Hc].
  - apply (path_snoc ok s [] s m (path_nil ok s) Hok).
  - change (m :: p ++ [m']) with ((m :: p) ++ [m']).
    apply path_snoc; assumption.
Qed.

Lemma path_to_uncons s p c :
  path_to ok s p c ->
  match p with
  | [] => c = s
  | m :: p' => ok (step s m) = true /\ path_to ok (step s m) p' c
  end.
Proof.
  induction 1 as [| p c m Hp IH Hc].
  - reflexivity.
  - destruct p as [| m0 p0]; simpl in *.
    + subst c. split; [exact Hc | constructor].
    + destruct IH as [H1 H2]. split; [exact H1 |].
      apply path_snoc; assumption.
Qed.

Lemma path_to_app s p1 c p2 e :
  path_to ok s p1 c -> path_to ok c p2 e -> path_to ok s (p1 ++ p2) e.
Proof.
  intros H1 H2. induction H2 as [| p c' m Hp IH Hc].
  - rewrite app_nil_r. exact H1.
  - rewrite app_assoc. apply path_snoc; assumption.
Qed.

Lemma reach_refl s : reach ok s s.
Proof. exists []. constructor. Qed.

Lemma reach_trans a b c : reach ok a b -> reach ok b c -> reach ok a c.
Proof.
  intros [p1 H1] [p2 H2]. exists (p1 ++ p2).
  eapply path_to_app; eassumption.
Qed.

Lemma reach_step a c m :
  reach ok a c -> ok (step c m) = true -> reach ok a (step c m).
Proof.
  intros [p Hp] Hok. exists (p ++ [m]). apply path_snoc; assumption.
Qed.

(** Cells entered along a path are allowed. *)
Lemma path_to_ok s p c : path_to ok s p c -> c = s \/ ok c = true.
Proof. induction 1; auto. Qed.

Lemma step_opposite c m : step (step c m) (opposite m) = c.
Proof.
  destruct c as [x y]. destruct m; unfold step; simpl; f_equal; lia.
Qed.

(** From an allowed start, every path can be walked back. *)
Lemma reach_sym a b : ok a = true -> reach ok a b -> reach ok b a.
Proof.
  intros Ha [p Hp]. induction Hp as [| p c m Hp IH Hc].
  - apply reach_refl.
  - apply reach_trans with c; [| exact IH].
    exists [opposite m]. apply path_to_cons.
    + rewrite step_opposite.
      destruct (path_to_ok _ _ _ Hp) as [-> | Hok]; assumption.
    + rewrite step_opposite. constructor.
Qed.

(** A move changes the Manhattan distance to any cell by at most one. *)
Lemma manhattan_step c m g :
  manhattan c g - 1 <= manhattan (step c m) g <= manhattan c g + 1.
Proof.
  destruct c as [x y], g as [gx gy].
  destruct m; unfold manhattan, step; simpl; lia.
Qed.

Lemma path_manhattan s p c g :
  path_to ok s p c -> manhattan s g <= manhattan c g + Z.of_nat (length p).
Proof.
  induction 1 as [| p c m Hp IH Hc].
  - simpl. lia.
  - rewrite length_app. simpl.
    pose proof (manhattan_step c m g). lia.
Qed.

End Paths.

(** ** Correctness of the breadth-first search *)
Section BfsCorrect.
Import Snake SearchSpec.
Variable ok : Pos -> bool.
Variable cells : list Pos.
Hypothesis ok_cells : forall n, ok n = true -> In n cells.
Variables s goal : Pos.

Lemma in_map_fst (q : list (Pos * list Move)) c :
  In c (map fst q) <-> exists p, In (c, p) q.
Proof.
  rewrite in_map_iff. split.
  - intros [[c' p] [E H]]. simpl in E. subst. eauto.
  - intros [p H]. exists (c, p). auto.
Qed.

(** Every cell that has a path shorter than all paths in the queue is
    closed. *)
Lemma bfs_inv_below q vis :
  bfs_inv ok s goal q vis ->
  forall p' u, path_to ok s p' u ->
    (forall c p, In (c, p) q -> (length p' < length p)%nat) ->
    closed fst q vis u.
Proof.
  intros I p' u Hp. induction Hp as [| p0 v m Hp IH Hv]; intros Hlt.
  - split; [apply (bi_start _ _ _ _ _ I) |].
    intros Hin. apply in_map_fst in Hin. destruct Hin as [p Hin].
    specialize (Hlt _ _ Hin).
    pose proof (bi_min _ _ _ _ _ I _ _ Hin [] (path_nil ok s)) as Hm.
    simpl in *. lia.
  - assert (Hc : closed fst q vis v).
    { apply IH. intros c p Hin. specialize (Hlt c p Hin).
      rewrite length_app in Hlt. simpl in Hlt. lia. }
    split.
    + apply (bi_closed _ _ _ _ _ I v Hc). exact Hv.
    + intros Hin. apply in_map_fst in Hin. destruct Hin as [p Hin].
      specialize (Hlt _ _ Hin).
      pose proof (bi_min _ _ _ _ _ I _ _ Hin (p0 ++ [m])
                    (path_snoc ok s p0 v m Hp Hv)) as Hm.
      lia.
Qed.

Lemma layered_front c p q :
  layered ((c, p) :: q) ->
  forall c' p', In (c', p') ((c, p) :: q) -> (length p <= length p')%nat.
Proof.
  intros [d [q1 [q2 [E [H1 H2]]]]] c' p' Hin.
  rewrite E in Hin. apply in_app_or in Hin.
  rewrite Forall_forall in H1, H2.
  destruct q1 as [| e q1'].
  - simpl in E. subst q2.
    pose proof (H2 (c, p) (or_introl eq_refl)) as Hp. simpl in Hp.
    destruct Hin as [[] | Hin]. apply H2 in Hin. simpl in Hin. lia.
  - simpl in E. inversion E; subst e.
    pose proof (H1 (c, p) (or_introl eq_refl)) as Hp. simpl in Hp.
    destruct Hin as [Hin | Hin].
    + apply H1 in Hin. simpl in Hin. lia.
    + apply H2 in Hin. simpl in Hin. lia.
Qed.

Lemma layered_next c p q (new : list (Pos * list Move)) :
  layered ((c, p) :: q) ->
  Forall (fun e => length (snd e) = S (length p)) new ->
  layered (q ++ new).
Proof.
  intros [d [q1 [q2 [E [H1 H2]]]]] Hnew.
  destruct q1 as [| e q1'].
  - simpl in E. subst q2. apply Forall_cons_iff in H2.
    destruct H2 as [Hp H2]. simpl in Hp.
    exists (S d), q, new. repeat split; auto.
    rewrite <- Hp. exact Hnew.
  - simpl in E. inversion E; subst e q. apply Forall_cons_iff in H1.
    destruct H1 as [Hp H1]. simpl in Hp. subst d.
    exists (length p), q1', (q2 ++ new). repeat split; auto.
    + rewrite app_assoc. reflexivity.
    + apply Forall_app. split; assumption.
Qed.

Lemma bfs_inv_init : bfs_inv ok s goal [(s, [])] [s].
Proof.
  constructor.
  - left. reflexivity.
  - intros c p [E | []]. inversion E; subst. constructor.
  - intros c p [E | []]. inversion E; subst. left. reflexivity.
  - exists 0%nat, [(s, [])], []. repeat split; auto.
  - intros c p [E | []]. inversion E; subst. simpl. lia.
  - intros c [Hin Hout]. exfalso. apply Hout. exact Hin.
Qed.

Lemma bfs_inv_step c p q vis :
  bfs_inv ok s goal ((c, p) :: q) vis -> c <> goal ->
  bfs_inv ok s goal
    (q ++ map (fun e => (snd e, p ++ [fst e])) (fresh ok c MOVES vis))
    (rev (map snd (fresh ok c MOVES vis)) ++ vis).
Proof.
  intros I Hng.
  set (fr := fresh ok c MOVES vis).
  assert (Hfr : forall m n, In (m, n) fr ->
                            n = step c m /\ ok n = true /\ ~ In n vis).
  { intros m n. apply fresh_sound. apply MOVES_delta. }
  assert (Hnew : forall c' p',
             In (c', p') (map (fun e => (snd e, p ++ [fst e])) fr) ->
             exists m, In (m, c') fr /\ p' = p ++ [m]).
  { intros c' p' Hin. apply in_map_iff in Hin.
    destruct Hin as [[m n] [E Hin]]. simpl in E. inversion E; subst.
    exists m. auto. }
  constructor.
  - apply in_or_app. right. apply (bi_start _ _ _ _ _ I).
  - intros c' p' Hin. apply in_app_or in Hin. destruct Hin as [Hin | Hin].
    + apply (bi_path _ _ _ _ _ I). right. exact Hin.
    + destruct (Hnew _ _ Hin) as [m [Hm ->]].
      destruct (Hfr _ _ Hm) as [-> [Hok _]].
      apply path_snoc; [| exact Hok].
      apply (bi_path _ _ _ _ _ I). left. reflexivity.
  - intros c' p' Hin. apply in_app_or in Hin. apply in_or_app.
    destruct Hin as [Hin | Hin].
    + right. apply (bi_vis _ _ _ _ _ I c' p'). right. exact Hin.
    + left. destruct (Hnew _ _ Hin) as [m [Hm _]].
      apply in_rev. rewrite rev_involutive.
      apply in_map_iff. exists (m, c'). auto.
  - apply (layered_next c p).
    + apply (bi_layer _ _ _ _ _ I).
    + apply Forall_forall. intros [c' p'] Hin.
      destruct (Hnew _ _ Hin) as [m [_ ->]]. simpl.
      rewrite length_app. simpl. lia.
  - intros c' p' Hin. apply in_app_or in Hin. destruct Hin as [Hin | Hin].
    + apply (bi_min _ _ _ _ _ I). right. exact Hin.
    + destruct (Hnew _ _ Hin) as [m [Hm ->]].
      destruct (Hfr _ _ Hm) as [Hc' [Hok Hnv]].
      intros p'' Hp''. rewrite length_app. simpl.
      destruct (le_lt_dec (length p + 1) (length p'')) as [Hle | Hlt];
        [exact Hle | exfalso].
      inversion Hp'' as [E1 E2 | p0 v m' Hp0 Hv E1 E2].
      * apply Hnv. rewrite <- E2. apply (bi_start _ _ _ _ _ I).
      * apply Hnv. rewrite <- E2.
        assert (Hcl : closed fst ((c, p) :: q) vis v).
        { apply (bfs_inv_below _ _ I p0 v Hp0).
          intros c1 p1 Hin1.
          pose proof (layered_front _ _ _ (bi_layer _ _ _ _ _ I) _ _ Hin1).
          rewrite <- E1, length_app in Hlt. simpl in Hlt. lia. }
        apply (bi_closed _ _ _ _ _ I v Hcl). exact Hv.
  - intros x [Hx Hnq].
    assert (Hxv : In x vis).
    { apply in_app_or in Hx. destruct Hx as [Hx | Hx]; [| exact Hx].
      exfalso. apply Hnq. rewrite map_app. apply in_or_app. right.
      apply in_rev in Hx. apply in_map_iff in Hx.
      destruct Hx as [[m n] [E Hin]]. simpl in E. subst n.
      apply in_map_iff. exists (x, p ++ [m]). split; [reflexivity |].
      apply in_map_iff. exists (m, x). auto. }
    destruct (pos_eq_dec x c) as [-> | Hxc].
    + split; [exact Hng |]. intros m Hok.
      apply (fresh_complete ok c MOVES vis m (delta m) (MOVES_all m) Hok).
    + assert (Hcl : closed fst ((c, p) :: q) vis x).
      { split; [exact Hxv |]. simpl. intros [E | Hin]; [congruence |].
        apply Hnq. rewrite map_app. apply in_or_app. left. exact Hin. }
      destruct (bi_closed _ _ _ _ _ I x Hcl) as [H1 H2].
      split; [exact H1 |]. intros m Hok. apply in_or_app. right. auto.
Qed.

(** The loop: it ends within the fuel, finds a shortest allowed path when
    it returns one, and returns none only when there is no path. *)
Lemma bfs_loop_spec fuel :
  forall q vis,
    bfs_inv ok s goal q vis ->
    (length q + unvisited ok cells vis < fuel)%nat ->
    match bfs_loop fuel goal ok q vis with
    | Timeout => False
    | Ret (Some p) =>
        path_to ok s p goal /\
        forall p', path_to ok s p' goal -> (length p <= length p')%nat
    | Ret None => forall p', ~ path_to ok s p' goal
    end.
Proof.
  induction fuel as [| fuel IH]; intros q vis I Hm; [lia |].
  cbn [bfs_loop]. destruct q as [| [c p] q].
  - intros p' Hp'.
    assert (Hcl : closed (@fst Pos (list Move)) [] vis goal).
    { apply (bfs_inv_below _ _ I p' goal Hp'). intros c p []. }
    destruct (bi_closed _ _ _ _ _ I goal Hcl) as [Hne _]. congruence.
  - destruct (pos_eqb c goal) eqn:E.
    + apply pos_eqb_eq in E. subst c. split.
      * apply (bi_path _ _ _ _ _ I). left. reflexivity.
      * apply (bi_min _ _ _ _ _ I). left. reflexivity.
    + apply pos_eqb_neq in E. rewrite expand_fresh.
      apply IH.
      * apply bfs_inv_step; assumption.
      * pose proof (fresh_measure ok cells c MOVES ok_cells vis) as Hfm.
        rewrite length_app, length_map. simpl in Hm. lia.
Qed.

End BfsCorrect.

Lemma unvisited_le ok cells vis :
  (SearchSpec.unvisited ok cells vis <= length cells)%nat.
Proof. unfold SearchSpec.unvisited. apply filter_length_le. Qed.

(** [bfs_path]'s search ends within its fuel; a returned path is a
    shortest allowed path from [start] to [goal]; no path is returned only
    when [goal] cannot be reached. *)
Theorem bfs_search_spec start goal obstacles w h :
  match Snake.bfs_search start goal obstacles w h with
  | Timeout => False
  | Ret (Some p) =>
      SearchSpec.path_to (Snake.passable obstacles w h) start p goal /\
      forall p', SearchSpec.path_to (Snake.passable obstacles w h) start p' goal ->
                 (length p <= length p')%nat
  | Ret None =>
      forall p', ~ SearchSpec.path_to (Snake.passable obstacles w h) start p' goal
  end.
Proof.
  unfold Snake.bfs_search.
  apply (bfs_loop_spec (Snake.passable obstacles w h) (grid_cells w h)
           (passable_in_cells obstacles w h) start goal).
  - apply bfs_inv_init.
  - unfold search_fuel. simpl.
    pose proof (unvisited_le (Snake.passable obstacles w h)
                  (grid_cells w h) [start]).
    lia.
Qed.

(** ** Correctness of the flood fill *)
Section FloodCorrect.
Import Snake SearchSpec.
Variable ok : Pos -> bool.
Variable cells : list Pos.
Hypothesis ok_cells : forall n, ok n = true -> In n cells.
Variable s : Pos.

Lemma flood_inv_init : flood_inv ok s [s] [s] 0.
Proof.
  constructor.
  - left. reflexivity.
  - constructor; [intros [] | constructor].
  - reflexivity.
  - auto.
  - intros c [<- | []]. apply reach_refl.
  - intros c [Hin Hout]. exfalso. apply Hout. simpl. exact Hin.
Qed.

Lemma flood_inv_step c q vis count :
  flood_inv ok s (c :: q) vis count ->
  flood_inv ok s
    (q ++ map (fun e => snd e) (fresh ok c MOVES vis))
    (rev (map snd (fresh ok c MOVES vis)) ++ vis)
    (count + 1).
Proof.
  intros I.
  set (fr := fresh ok c MOVES vis).
  assert (Hfr : forall m n, In (m, n) fr ->
                            n = step c m /\ ok n = true /\ ~ In n vis).
  { intros m n. apply fresh_sound. apply MOVES_delta. }
  assert (Hc : reach ok s c).
  { apply (fi_reach _ _ _ _ _ I). apply (fi_vis _ _ _ _ _ I). left.
    reflexivity. }
  constructor.
  - apply in_or_app. right. apply (fi_start _ _ _ _ _ I).
  - apply fresh_nodup. apply (fi_nodup _ _ _ _ _ I).
  - pose proof (fi_count _ _ _ _ _ I) as Hcnt.
    rewrite !length_app, length_rev, !length_map. simpl in Hcnt. lia.
  - intros x Hin. apply in_app_or in Hin. apply in_or_app.
    destruct Hin as [Hin | Hin].
    + right. apply (fi_vis _ _ _ _ _ I). right. exact Hin.
    + left. apply in_rev. rewrite rev_involutive. exact Hin.
  - intros x Hin. apply in_app_or in Hin. destruct Hin as [Hin | Hin].
    + apply in_rev in Hin. apply in_map_iff in Hin.
      destruct Hin as [[m n] [E Hin]]. simpl in E. subst n.
      destruct (Hfr _ _ Hin) as [-> [Hok _]].
      apply reach_step; assumption.
    + apply (fi_reach _ _ _ _ _ I). exact Hin.
  - intros x [Hx Hnq] m Hok. rewrite map_id in Hnq.
    assert (Hxv : In x vis).
    { apply in_app_or in Hx. destruct Hx as [Hx | Hx]; [| exact Hx].
      exfalso. apply Hnq. apply in_or_app. right.
      apply in_rev in Hx. exact Hx. }
    destruct (pos_eq_dec x c) as [-> | Hxc].
    + apply (fresh_complete ok c MOVES vis m (delta m) (MOVES_all m) Hok).
    + apply in_or_app. right.
      apply (fi_closed _ _ _ _ _ I x); [| exact Hok].
      split; [exact Hxv |]. rewrite map_id. intros [E | Hin]; [congruence |].
      apply Hnq. apply in_or_app. left. exact Hin.
Qed.

(** The loop ends within the fuel and returns the number of cells that can
    be reached from [s]. *)
Lemma flood_loop_spec fuel :
  forall q vis count,
    flood_inv ok s q vis count ->
    (length q + unvisited ok cells vis < fuel)%nat ->
    exists comp,
      flood_loop fuel ok q vis count = Ret (Z.of_nat (length comp)) /\
      NoDup comp /\
      forall c, In c comp <-> reach ok s c.
Proof.
  induction fuel as [| fuel IH]; intros q vis count I Hm; [lia |].
  cbn [flood_loop]. destruct q as [| c q].
  - exists vis. split; [| split].
    + pose proof (fi_count _ _ _ _ _ I) as Hcnt. simpl in Hcnt.
      f_equal. lia.
    + apply (fi_nodup _ _ _ _ _ I).
    + intros c. split; [apply (fi_reach _ _ _ _ _ I) |].
      intros [p Hp]. induction Hp as [| p v m Hp IHp Hv].
      * apply (fi_start _ _ _ _ _ I).
      * apply (fi_closed _ _ _ _ _ I v); [| exact Hv].
        split; [exact IHp | simpl; tauto].
  - rewrite expand_fresh. apply IH.
    + apply flood_inv_step. exact I.
    + pose proof (fresh_measure ok cells c MOVES ok_cells vis) as Hfm.
      rewrite length_app, length_map. simpl in Hm. lia.
Qed.

End FloodCorrect.

(** [flood_fill_count]'s search ends within its fuel, and its result is
    the number of cells that can be reached from [start]. *)
Theorem flood_search_spec start obstacles w h :
  exists comp,
    Snake.flood_search start obstacles w h = Ret (Z.of_nat (length comp)) /\
    NoDup comp /\
    forall c, In c comp <->
              SearchSpec.reach (Snake.passable obstacles w h) start c.
Proof.
  unfold Snake.flood_search.
  apply (flood_loop_spec (Snake.passable obstacles w h) (grid_cells w h)
           (passable_in_cells obstacles w h) start).
  - apply flood_inv_init.
  - unfold search_fuel. simpl.
    pose proof (unvisited_le (Snake.passable obstacles w h)
                  (grid_cells w h) [start]).
    lia.
Qed.

Lemma flood_fill_count_spec start obstacles w h :
  exists comp,
    Snake.flood_fill_count start obstacles w h = Z.of_nat (length comp) /\
    Snake.flood_search start obstacles w h
      = Ret (Snake.flood_fill_count start obstacles w h) /\
    NoDup comp /\
    forall c, In c comp <->
              SearchSpec.reach (Snake.passable obstacles w h) start c.
Proof.
  destruct (flood_search_spec start obstacles w h) as [comp [E [Hnd Hc]]].
  exists comp. unfold Snake.flood_fill_count. rewrite E. auto.
Qed.

(** ** The obstacle test matters only off the visited cells *)
Section Congruence.
Import Snake SearchSpec.
Variables ok ok' : Pos -> bool.

Lemma expand_congr {A : Type} (enq : Move -> Pos -> A) c moves :
  forall q vis,
    (forall n, ~ In n vis -> ok n = ok' n) ->
    expand enq ok c moves q vis = expand enq ok' c moves q vis.
Proof.
  induction moves as [| [m [dx dy]] rest IH]; intros q vis Hagree;
    cbn [expand]; [reflexivity |].
  destruct (mem (fst c + dx, snd c + dy) vis) eqn:E.
  - rewrite !andb_false_r. apply IH. exact Hagree.
  - apply mem_not_In in E. rewrite (Hagree _ E).
    destruct (ok' (fst c + dx, snd c + dy)); cbn [andb negb].
    + apply IH. intros n Hn. apply Hagree. intros Hv. apply Hn. right.
      exact Hv.
    + apply IH. exact Hagree.
Qed.

Lemma flood_loop_congr fuel :
  forall q vis count,
    (forall n, ~ In n vis -> ok n = ok' n) ->
    flood_loop fuel ok q vis count = flood_loop fuel ok' q vis count.
Proof.
  induction fuel as [| fuel IH]; intros q vis count Hagree;
    cbn [flood_loop]; [reflexivity |].
  destruct q as [| c q]; [reflexivity |].
  rewrite <- (expand_congr (fun _ n => n) c MOVES q vis Hagree).
  rewrite expand_fresh. apply IH.
  intros n Hn. apply Hagree. intros Hv. apply Hn. apply in_or_app. right.
  exact Hv.
Qed.

End Congruence.

(** ** Shortest paths on the grid *)

(** In a grid without obstacles, a path as long as the Manhattan distance
    joins any two cells. *)
Lemma straight_path w h (n : nat) :
  forall a b,
    SearchSpec.in_grid w h a -> SearchSpec.in_grid w h b ->
    SearchSpec.manhattan a b = Z.of_nat n ->
    exists p, SearchSpec.path_to (Snake.passable [] w h) a p b /\ length p = n.
Proof.
  induction n as [| n IH]; intros [ax ay] [bx by'] Ha Hb Hd.
  - unfold SearchSpec.manhattan in Hd. simpl in Hd.
    assert (ax = bx) by lia. assert (ay = by') by lia. subst.
    exists []. split; [constructor | reflexivity].
  - assert (Hm : exists m,
               SearchSpec.in_grid w h (SearchSpec.step (ax, ay) m) /\
               SearchSpec.manhattan (SearchSpec.step (ax, ay) m) (bx, by')
               = Z.of_nat n).
    { revert Ha Hb Hd.
      unfold SearchSpec.in_grid, SearchSpec.manhattan, SearchSpec.step.
      cbn [fst snd]. intros Ha Hb Hd.
      destruct (Z_lt_le_dec ax bx); [exists Snake.RIGHT; simpl; lia |].
      destruct (Z_lt_le_dec bx ax); [exists Snake.LEFT; simpl; lia |].
      destruct (Z_lt_le_dec ay by'); [exists Snake.DOWN; simpl; lia |].
      exists Snake.UP; simpl; lia. }
    destruct Hm as [m [Hg Hd']].
    destruct (IH _ _ Hg Hb Hd') as [p [Hp Hl]].
    exists (m :: p). split; [| simpl; congruence].
    apply path_to_cons; [| exact Hp].
    apply passable_spec. split; [exact Hg | intros []].
Qed.

(** C6: in an obstacle-free grid, for start and goal cells of the grid
    with start distinct from goal, the search of [bfs_path] ends with a path
    whose length equals the Manhattan distance, and the first move, which
    [bfs_path] returns, strictly decreases the Manhattan distance to the
    goal.  On the 20x20 empty grid from (10,10) to (15,10) the result is
    RIGHT and the path has 5 moves. *)
Theorem bfs_path_obstacle_free :
  (forall w h start goal,
      SearchSpec.in_grid w h start -> SearchSpec.in_grid w h goal ->
      start <> goal ->
      exists m p,
        Snake.bfs_search start goal [] w h = Ret (Some (m :: p)) /\
        Snake.bfs_path start goal [] w h = Some m /\
        SearchSpec.manhattan (SearchSpec.step start m) goal
          < SearchSpec.manhattan start goal /\
        Z.of_nat (length (m :: p)) = SearchSpec.manhattan start goal) /\
  Snake.bfs_path (10, 10) (15, 10) [] 20 20 = Some Snake.RIGHT /\
  Snake.bfs_search (10, 10) (15, 10) [] 20 20
    = Ret (Some [Snake.RIGHT; Snake.RIGHT; Snake.RIGHT; Snake.RIGHT;
                 Snake.RIGHT]).
Proof.
  split; [| split; vm_compute; reflexivity].
  intros w h start goal Hs Hg Hne.
  set (ok := Snake.passable [] w h).
  assert (Hpos : 0 < SearchSpec.manhattan start goal).
  { destruct start as [sx sy], goal as [gx gy].
    unfold SearchSpec.manhattan. simpl.
    assert (sx <> gx \/ sy <> gy) as [H | H]
        by (destruct (Z.eq_dec sx gx); [right; congruence | left; assumption]);
      lia. }
  destruct (straight_path w h (Z.to_nat (SearchSpec.manhattan start goal))
              start goal Hs Hg ltac:(lia)) as [p0 [Hp0 Hl0]].
  pose proof (bfs_search_spec start goal [] w h) as Hspec.
  unfold Snake.bfs_path.
  destruct (Snake.bfs_search start goal [] w h) as [| [p |]];
    [contradiction | | exfalso; apply (Hspec p0 Hp0)].
  destruct Hspec as [Hp Hmin].
  pose proof (Hmin p0 Hp0) as Hle.
  pose proof (path_manhattan ok start p goal goal Hp) as Hge.
  assert (Hgg : SearchSpec.manhattan goal goal = 0)
    by (unfold SearchSpec.manhattan; lia).
  assert (Hlen : Z.of_nat (length p) = SearchSpec.manhattan start goal)
    by lia.
  destruct p as [| m p]; [simpl in Hlen; lia |].
  exists m, p. repeat split; [| exact Hlen].
  apply path_to_uncons in Hp. destruct Hp as [_ Hp].
  pose proof (path_manhattan ok (SearchSpec.step start m) p goal goal Hp).
  simpl length in Hlen. lia.
Qed.

Lemma bfs_path_obstacle_free_witness :
  SearchSpec.in_grid 3 3 (0, 0) /\ SearchSpec.in_grid 3 3 (1, 2) /\
  (0, 0) <> (1, 2) /\
  exists m p,
    Snake.bfs_search (0, 0) (1, 2) [] 3 3 = Ret (Some (m :: p)) /\
    Snake.bfs_path (0, 0) (1, 2) [] 3 3 = Some m /\
    SearchSpec.manhattan (SearchSpec.step (0, 0) m) (1, 2)
      < SearchSpec.manhattan (0, 0) (1, 2) /\
    Z.of_nat (length (m :: p)) = SearchSpec.manhattan (0, 0) (1, 2).
Proof.
  assert (H1 : SearchSpec.in_grid 3 3 (0, 0))
    by (unfold SearchSpec.in_grid; simpl; lia).
  assert (H2 : SearchSpec.in_grid 3 3 (1, 2))
    by (unfold SearchSpec.in_grid; simpl; lia).
  assert (H3 : (0, 0) <> (1, 2)) by discriminate.
  split; [exact H1 |]. split; [exact H2 |]. split; [exact H3 |].
  apply (proj1 bfs_path_obstacle_free 3 3 (0, 0) (1, 2) H1 H2 H3).
Defined.

(** C10: the search of [bfs_path] always ends, and [bfs_path] returns no
    move exactly when the goal is the start cell or cannot be reached; in
    particular it returns none when called with the goal equal to the
    start, as it does for an unreachable goal. *)
Theorem bfs_path_none_iff :
  forall start goal obstacles w h,
    (exists r, Snake.bfs_search start goal obstacles w h = Ret r) /\
    Snake.bfs_search start start obstacles w h = Ret (Some []) /\
    Snake.bfs_path start start obstacles w h = None /\
    (Snake.bfs_path start goal obstacles w h = None <->
     start = goal \/
     ~ SearchSpec.reach (Snake.passable obstacles w h) start goal).
Proof.
  intros start goal obstacles w h.
  assert (Hself : Snake.bfs_search start start obstacles w h = Ret (Some [])).
  { unfold Snake.bfs_search, search_fuel. cbn [Snake.bfs_loop].
    rewrite pos_eqb_refl. reflexivity. }
  pose proof (bfs_search_spec start goal obstacles w h) as Hspec.
  unfold Snake.bfs_path. rewrite Hself.
  destruct (Snake.bfs_search start goal obstacles w h) as [| [p |]];
    [contradiction | |].
  - destruct Hspec as [Hp Hmin]. repeat split; eauto.
    + destruct p as [| m p]; [| discriminate].
      intros _. left. apply path_to_uncons in Hp. simpl in Hp. auto.
    + destruct p as [| m p]; [reflexivity |].
      intros [E | Hn].
      * subst goal.
        pose proof (Hmin [] (SearchSpec.path_nil _ start)) as Hle.
        simpl in Hle. lia.
      * exfalso. apply Hn. exists (m :: p). exact Hp.
  - repeat split; eauto.
    intros _. right. intros [p Hp]. apply (Hspec p Hp).
Qed.

(** ** Reachable area *)

(** C8: for every obstacle set and every two free cells of one
    4-connected component of the free region, [flood_fill_count] returns
    the same count from either cell. *)
Theorem flood_fill_count_same_component :
  forall obstacles w h a b,
    SearchSpec.same_component obstacles w h a b ->
    Snake.flood_fill_count a obstacles w h
    = Snake.flood_fill_count b obstacles w h.
Proof.
  intros obstacles w h a b [Ha [Hb Hab]].
  destruct (flood_fill_count_spec a obstacles w h) as [ca [Ea [_ [Hna Hca]]]].
  destruct (flood_fill_count_spec b obstacles w h) as [cb [Eb [_ [Hnb Hcb]]]].
  rewrite Ea, Eb. f_equal.
  apply Permutation_length. apply NoDup_Permutation; try assumption.
  intros c. rewrite Hca, Hcb. split; intros Hc.
  - apply reach_trans with a; [| exact Hc].
    apply reach_sym; assumption.
  - apply reach_trans with b; assumption.
Qed.

Lemma flood_fill_count_same_component_witness :
  SearchSpec.same_component [(1, 1)] 3 3 (0, 0) (2, 2) /\
  Snake.flood_fill_count (0, 0) [(1, 1)] 3 3
  = Snake.flood_fill_count (2, 2) [(1, 1)] 3 3.
Proof.
  assert (Hc : SearchSpec.same_component [(1, 1)] 3 3 (0, 0) (2, 2)).
  { split; [reflexivity | split; [reflexivity |]].
    exists [Snake.RIGHT; Snake.RIGHT; Snake.DOWN; Snake.DOWN].
    repeat (apply path_to_cons; [reflexivity |]). constructor. }
  split; [exact Hc |].
  apply (flood_fill_count_same_component [(1, 1)] 3 3 (0, 0) (2, 2) Hc).
Defined.

(** Obstacle sets that differ only at the start cell give the same count. *)
Lemma flood_fill_count_congr start obstacles obstacles' w h :
  (forall n, n <> start -> (In n obstacles <-> In n obstacles')) ->
  Snake.flood_fill_count start obstacles w h
  = Snake.flood_fill_count start obstacles' w h.
Proof.
  intros Hagree. unfold Snake.flood_fill_count, Snake.flood_search.
  rewrite (flood_loop_congr (Snake.passable obstacles w h)
             (Snake.passable obstacles' w h)); [reflexivity |].
  intros n Hn. unfold Snake.passable. f_equal. f_equal.
  assert (Hne : n <> start) by (intros ->; apply Hn; left; reflexivity).
  specialize (Hagree n Hne).
  destruct (mem n obstacles) eqn:E1, (mem n obstacles') eqn:E2;
    try reflexivity; exfalso.
  - apply mem_In in E1. apply mem_not_In in E2. tauto.
  - apply mem_In in E2. apply mem_not_In in E1. tauto.
Qed.

(** C9: [flood_fill_count] counts the start cell even when it belongs to
    the obstacle set (the count is the size of a duplicate-free list of the
    reachable cells, which contains the start, so it is at least 1).
    Hence, for every snake body, the count from the head is the same over
    the full body, over the body after its first element, and over the
    body with every occurrence of the head removed; and [analyze_risk],
    which passes the full body, equals the reading that passes the rest of
    the body. *)
Theorem flood_fill_count_start_in_obstacles :
  (forall start obstacles w h,
      1 <= Snake.flood_fill_count start obstacles w h /\
      exists comp,
        Snake.flood_fill_count start obstacles w h = Z.of_nat (length comp) /\
        NoDup comp /\ In start comp /\
        forall c, In c comp <->
                  SearchSpec.reach (Snake.passable obstacles w h) start c) /\
  (forall head rest w h,
      Snake.flood_fill_count head (head :: rest) w h
      = Snake.flood_fill_count head rest w h /\
      Snake.flood_fill_count head (head :: rest) w h
      = Snake.flood_fill_count head
          (filter (fun c => negb (pos_eqb c head)) (head :: rest)) w h) /\
  (forall svd snake_body w h,
      Snake.analyze_risk svd snake_body w h
      = SearchSpec.analyze_risk_rest_of_body svd snake_body w h).
Proof.
  assert (Hrest : forall head rest w h,
             Snake.flood_fill_count head (head :: rest) w h
             = Snake.flood_fill_count head rest w h).
  { intros head rest w h. apply flood_fill_count_congr.
    intros n Hn. simpl. split; [intros [E | H]; congruence || exact H | auto]. }
  split; [| split].
  - intros start obstacles w h.
    destruct (flood_fill_count_spec start obstacles w h)
      as [comp [E [_ [Hnd Hc]]]].
    assert (Hin : In start comp) by (apply Hc; apply reach_refl).
    split.
    + rewrite E. destruct comp; [contradiction | simpl length; lia].
    + exists comp. auto.
  - intros head rest w h. split; [apply Hrest |].
    apply flood_fill_count_congr. intros n Hn.
    rewrite filter_In, negb_true_iff, pos_eqb_neq. tauto.
  - intros svd snake_body w h.
    unfold Snake.analyze_risk, SearchSpec.analyze_risk_rest_of_body.
    destruct snake_body as [| head [| b1 [| b2 rest]]]; try reflexivity.
    cbn [tl]. rewrite Hrest. reflexivity.
Qed.

(** ** Thresholds and risk scores *)

Lemma clip_bounds (x lo hi : Q) :
  (lo <= hi)%Q -> (lo <= clip x lo hi)%Q /\ (clip x lo hi <= hi)%Q.
Proof.
  intros Hle. unfold clip. split.
  - apply Q.min_glb; [apply Q.le_max_r | exact Hle].
  - apply Q.le_min_r.
Qed.

Lemma inject_Z_nonneg (z : Z) : 0 <= z -> (0 <= inject_Z z)%Q.
Proof. intros Hz. unfold Qle. simpl. lia. Qed.

Lemma hunger_ratio_range (hunger : Z) :
  0 <= hunger ->
  (0 <= Snake.hunger_ratio hunger)%Q /\ (Snake.hunger_ratio hunger <= 1)%Q.
Proof.
  intros Hh. unfold Snake.hunger_ratio. split.
  - apply Q.min_glb; [discriminate |].
    apply Qle_shift_div_l; [reflexivity |].
    rewrite Qmult_0_l. apply inject_Z_nonneg. exact Hh.
  - apply Q.le_min_l.
Qed.

(** The formula base + ratio * (gain * alpha) over the rationals, without
    rounding, is strictly increasing in alpha for a positive ratio. *)
Lemma threshold_exact_strictly_increasing (ratio a1 a2 : Q) :
  (0 < ratio)%Q -> (a1 < a2)%Q ->
  (SnakeSweep.threshold_at a1 ratio < SnakeSweep.threshold_at a2 ratio)%Q.
Proof.
  intros Hr Ha.
  unfold SnakeSweep.threshold_at, SnakeSweep.effective_gain,
    Snake.RISK_THRESHOLD_BASE, Snake.RISK_HUNGER_GAIN.
  nra.
Qed.




(** C3, as stated, fails: the sweep threshold of Snake-SHM v0.3.4 at
    alpha = 3, one of the swept values, and hunger 199 is 1.8425, above 1,
    in exact arithmetic and in binary64 alike; [get_action] compares it
    with the risk at every call, without clamping it. *)
Lemma threshold_not_clamped :
  In 3%float SnakeSweep.SWEEP_ALPHAS /\
  (1 < SnakeSweep.threshold 3 199)%Q /\
  (1 <? SnakeSweep.threshold_f 3 199)%float = true.
Proof.
  split; [do 6 right; left; reflexivity |].
  split; vm_compute; reflexivity.
Qed.

(** C3, amended: in Vacuum-X v0.3 the risk threshold is clamped into
    [0.20, 0.95] and the battery threshold into [5, 59] for every stress
    level and battery.  The other thresholds are not clamped.  For a hunger
    counter at least 0 the Snake v0.3.2 threshold lies in [0.35, 0.85] and
    the v0.3.4 sweep threshold at alpha at least 0 in
    [0.35, 0.35 + 0.5 * alpha], which exceeds 1 from alpha = 1.3 on.  The
    Coase frontier threshold at alpha and stress at least 0 and battery at
    most 60 is at most 0.8; and whenever [choose] compares it with the
    risk, that is when the battery is not below the battery threshold, it
    is at least 0 for every alpha from 0 to 4, the range of the sweep.
    The bounds of the two Snake thresholds also hold of the values
    computed in binary64, for every hunger from 0 to 200 and every alpha of
    the sweep. *)
Theorem threshold_ranges :
  (forall lpi battery,
      (20 # 100 <= VacuumX.panic_threshold lpi battery)%Q /\
      (VacuumX.panic_threshold lpi battery <= 95 # 100)%Q /\
      (5 <= VacuumX.battery_threshold lpi)%Q /\
      (VacuumX.battery_threshold lpi <= 59)%Q) /\
  (forall hunger,
      0 <= hunger ->
      (35 # 100 <= Snake.risk_threshold hunger)%Q /\
      (Snake.risk_threshold hunger <= 85 # 100)%Q) /\
  (forall a hunger,
      (0 <= a)%Q -> 0 <= hunger ->
      (35 # 100 <= SnakeSweep.threshold a hunger)%Q /\
      (SnakeSweep.threshold a hunger <= (35 # 100) + (50 # 100) * a)%Q) /\
  (forall a lpi battery,
      (0 <= a)%Q -> (0 <= lpi)%Q -> battery <= 60 ->
      (Frontier.panic_th a lpi battery <= 8 # 10)%Q) /\
  (forall a lpi battery,
      (0 <= a)%Q -> (a <= 4)%Q -> (0 <= lpi)%Q -> battery <= 60 ->
      Qlt_bool (inject_Z battery) (Frontier.low_bat_th a lpi) = false ->
      (0 <= Frontier.panic_th a lpi battery)%Q /\
      (Frontier.panic_th a lpi battery <= 8 # 10)%Q) /\
  (forall hunger a,
      0 <= hunger <= Snake.MAX_STEPS_WITHOUT_FOOD ->
      In a SnakeSweep.SWEEP_ALPHAS ->
      (Snake.RISK_THRESHOLD_BASE_f <=? Snake.risk_threshold_f hunger)%float
      = true /\
      (Snake.risk_threshold_f hunger
       <=? Snake.RISK_THRESHOLD_BASE_f + Snake.RISK_HUNGER_GAIN_f)%float
      = true /\
      (Snake.RISK_THRESHOLD_BASE_f <=? SnakeSweep.threshold_f a hunger)%float
      = true /\
      (SnakeSweep.threshold_f a hunger
       <=? Snake.RISK_THRESHOLD_BASE_f + SnakeSweep.effective_gain_f a)%float
      = true).
Proof.
  assert (Hup : forall a lpi battery,
             (0 <= a)%Q -> (0 <= lpi)%Q -> battery <= 60 ->
             (Frontier.panic_th a lpi battery <= 8 # 10)%Q).
  { intros a lpi battery Ha Hl Hb.
    unfold Frontier.panic_th, Frontier.BASE_PANIC_TH, Frontier.GAIN_PANIC,
      Frontier.GAIN_BAT_PRESSURE, Frontier.BAT_MAX.
    assert (Hr : (0 <= 1 - inject_Z battery / inject_Z 60)%Q).
    { assert (Hq : (inject_Z battery / inject_Z 60 <= 1)%Q).
      { apply Qle_shift_div_r; [reflexivity |].
        rewrite Qmult_1_l. unfold Qle. simpl. lia. }
      lra. }
    generalize dependent (1 - inject_Z battery / inject_Z 60)%Q.
    intros r Hr. nra. }
  split; [| split; [| split; [| split; [exact Hup | split]]]].
  - intros lpi battery. unfold VacuumX.panic_threshold, VacuumX.battery_threshold.
    repeat split; apply clip_bounds; vm_compute; discriminate.
  - intros hunger Hh. destruct (hunger_ratio_range hunger Hh) as [H0 H1].
    unfold Snake.risk_threshold, Snake.RISK_THRESHOLD_BASE,
      Snake.RISK_HUNGER_GAIN.
    split; lra.
  - intros a hunger Ha Hh. destruct (hunger_ratio_range hunger Hh) as [H0 H1].
    unfold SnakeSweep.threshold, SnakeSweep.threshold_at,
      SnakeSweep.effective_gain, Snake.RISK_THRESHOLD_BASE,
      Snake.RISK_HUNGER_GAIN.
    split; nra.
  - intros a lpi battery Ha Ha4 Hl Hb Hcmp.
    split; [| apply Hup; assumption].
    unfold Qlt_bool in Hcmp. apply negb_false_iff in Hcmp.
    apply Qle_bool_iff in Hcmp.
    unfold Frontier.low_bat_th, Frontier.BASE_LOW_BAT, Frontier.GAIN_BAT
      in Hcmp.
    unfold Frontier.panic_th, Frontier.BASE_PANIC_TH, Frontier.GAIN_PANIC,
      Frontier.GAIN_BAT_PRESSURE, Frontier.BAT_MAX.
    assert (Hq : (inject_Z battery <= 60)%Q)
      by (change 60%Q with (inject_Z 60); rewrite <- Zle_Qle; exact Hb).
    assert (E : (inject_Z battery / inject_Z 60
                 == inject_Z battery * (1 # 60))%Q)
      by (unfold Qdiv; reflexivity).
    rewrite E. set (x := inject_Z battery) in *. clearbody x.
    nra.
  - intros hunger a Hh Ha.
    assert (Hall : forallb (MoreSpec.within_on SnakeSweep.SWEEP_ALPHAS)
                           (zrange 201) = true)
      by (vm_compute; reflexivity).
    rewrite forallb_forall in Hall.
    specialize (Hall hunger
                  ltac:(apply in_zrange;
                        unfold Snake.MAX_STEPS_WITHOUT_FOOD in Hh; lia)).
    unfold MoreSpec.within_on in Hall.
    apply andb_true_iff in Hall. destruct Hall as [Hall Hsw].
    apply andb_true_iff in Hall. destruct Hall as [Hlo Hhi].
    rewrite forallb_forall in Hsw. specialize (Hsw a Ha).
    apply andb_true_iff in Hsw. destruct Hsw as [Hslo Hshi].
    repeat split; assumption.
Qed.

Lemma threshold_ranges_witness :
  0 <= 199 /\ (0 <= 3)%Q /\ (3 <= 4)%Q /\ (0 <= 1 # 10)%Q /\ 40 <= 60 /\
  Qlt_bool (inject_Z 40) (Frontier.low_bat_th 3 (1 # 10)) = false /\
  0 <= 199 <= Snake.MAX_STEPS_WITHOUT_FOOD /\
  In 3%float SnakeSweep.SWEEP_ALPHAS /\
  (35 # 100 <= Snake.risk_threshold 199)%Q /\
  (SnakeSweep.threshold 3 199 <= (35 # 100) + (50 # 100) * 3)%Q /\
  (0 <= Frontier.panic_th 3 (1 # 10) 40)%Q /\
  (Frontier.panic_th 3 (1 # 10) 40 <= 8 # 10)%Q /\
  (SnakeSweep.threshold_f 3 199
   <=? Snake.RISK_THRESHOLD_BASE_f + SnakeSweep.effective_gain_f 3)%float
  = true.
Proof.
  assert (H1 : 0 <= 199) by lia.
  assert (H2 : (0 <= 3)%Q) by discriminate.
  assert (H2' : (3 <= 4)%Q) by discriminate.
  assert (H3 : (0 <= 1 # 10)%Q) by discriminate.
  assert (H4 : 40 <= 60) by lia.
  assert (H5 : Qlt_bool (inject_Z 40) (Frontier.low_bat_th 3 (1 # 10))
               = false) by reflexivity.
  assert (H6 : 0 <= 199 <= Snake.MAX_STEPS_WITHOUT_FOOD)
    by (unfold Snake.MAX_STEPS_WITHOUT_FOOD; lia).
  assert (H7 : In 3%float SnakeSweep.SWEEP_ALPHAS)
    by (do 6 right; left; reflexivity).
  split; [exact H1 |]. split; [exact H2 |]. split; [exact H2' |].
  split; [exact H3 |]. split; [exact H4 |]. split; [exact H5 |].
  split; [exact H6 |]. split; [exact H7 |].
  split; [| split; [| split; [| split]]].
  - apply (proj1 (proj2 threshold_ranges) 199 H1).
  - apply (proj1 (proj2 (proj2 threshold_ranges)) 3%Q 199 H2 H1).
  - apply (proj1 (proj2 (proj2 (proj2 (proj2 threshold_ranges))))
             3%Q (1 # 10)%Q 40 H2 H2' H3 H4 H5).
  - apply (proj1 (proj2 (proj2 (proj2 (proj2 threshold_ranges))))
             3%Q (1 # 10)%Q 40 H2 H2' H3 H4 H5).
  - apply (proj2 (proj2 (proj2 (proj2 (proj2 threshold_ranges))))
             199 3%float H6 H7).
Defined.

Lemma geom_risk_range (s : option (list Q)) :
  (0 <= Snake.geom_risk_of s)%Q /\ (Snake.geom_risk_of s <= 1)%Q.
Proof.
  unfold Snake.geom_risk_of.
  destruct s as [[| s0 [| s1 rest]] |];
    try (apply clip_bounds; discriminate).
  split; discriminate.
Qed.

Lemma entropy_nonneg (s0 s1 eps : Q) :
  (0 <= s0)%Q -> (0 <= s1)%Q -> (0 < eps)%Q -> (0 <= s1 / (s0 + eps))%Q.
Proof.
  intros H0 H1 He. apply Qle_shift_div_l; lra.
Qed.

(** C5, as stated, fails for the resource-constrained variant of the
    Coase frontier probe: its window holds 10 points, and with 5 equal
    points in it (a window that is not yet full, whose centred matrix is
    zero and has singular values 0 and 0) the risk is 1, not 0. *)
Lemma frontier_risk_before_window_full :
  let hist := [(0, 0); (0, 0); (0, 0); (0, 0); (0, 0)] in
  let svd : svd_oracle := fun _ => Some [0%Q; 0%Q] in
  (length hist < Frontier.SVD_WINDOW)%nat /\
  Forall (fun p => (fst p == 0)%Q /\ (snd p == 0)%Q) (centre hist) /\
  (Frontier.risk svd hist == 1)%Q /\
  ~ (Frontier.risk svd hist == 0)%Q.
Proof.
  cbv zeta. split; [vm_compute; lia |]. split.
  - repeat constructor.
  - split; [reflexivity | discriminate].
Qed.

(** C5, amended: the risk score lies in [0,1] for every input of
    [analyze_risk] (Snake) and of [StructGate.panic] (Vacuum-X v0.3), and
    for every input of [StructGate.risk] (Coase frontier) whose first two
    singular values are not negative.  It is exactly 0 with fewer than 3
    body points in Snake, with a window that is not yet full in Vacuum-X
    v0.3, and with fewer than 5 points in the Coase frontier probe, whose
    window holds 10. *)
Theorem risk_score_range :
  (forall svd snake_body w h,
      (0 <= Snake.analyze_risk svd snake_body w h)%Q /\
      (Snake.analyze_risk svd snake_body w h <= 1)%Q) /\
  (forall svd snake_body w h,
      (length snake_body < 3)%nat ->
      Snake.analyze_risk svd snake_body w h = 0%Q) /\
  (forall svd window hist,
      (0 <= VacuumX.panic svd window hist)%Q /\
      (VacuumX.panic svd window hist <= 1)%Q) /\
  (forall svd window hist,
      (length hist < window)%nat -> VacuumX.panic svd window hist = 0%Q) /\
  (forall svd hist,
      (forall s0 s1 rest, svd (centre hist) = Some (s0 :: s1 :: rest) ->
                          (0 <= s0)%Q /\ (0 <= s1)%Q) ->
      (0 <= Frontier.risk svd hist)%Q /\ (Frontier.risk svd hist <= 1)%Q) /\
  (forall svd hist,
      (length hist < 5)%nat -> Frontier.risk svd hist = 0%Q).
Proof.
  split; [| split; [| split; [| split; [| split]]]].
  - intros svd snake_body w h. unfold Snake.analyze_risk.
    destruct snake_body as [| head [| b1 [| b2 rest]]];
      try (split; discriminate).
    destruct (geom_risk_range (svd (centre (head :: b1 :: b2 :: rest))))
      as [G0 G1].
    assert (T : (0 <= Snake.topo_risk_of
                   (Snake.flood_fill_count head (head :: b1 :: b2 :: rest) w h)
                   (length (head :: b1 :: b2 :: rest)))%Q /\
                (Snake.topo_risk_of
                   (Snake.flood_fill_count head (head :: b1 :: b2 :: rest) w h)
                   (length (head :: b1 :: b2 :: rest)) <= 1)%Q)
      by (apply clip_bounds; discriminate).
    destruct T as [T0 T1].
    unfold Snake.W_TOPO, Snake.W_GEOM. split; lra.
  - intros svd snake_body w h Hl.
    destruct snake_body as [| head [| b1 [| b2 rest]]]; try reflexivity.
    simpl in Hl. lia.
  - intros svd window hist. unfold VacuumX.panic.
    destruct (length hist <? window)%nat; [split; discriminate |].
    destruct (svd (centre hist)) as [[| s0 [| s1 rest]] |];
      try (split; discriminate).
    apply clip_bounds. discriminate.
  - intros svd window hist Hl. unfold VacuumX.panic.
    apply Nat.ltb_lt in Hl. rewrite Hl. reflexivity.
  - intros svd hist Hs. unfold Frontier.risk.
    destruct (length hist <? 5)%nat; [split; discriminate |].
    destruct (svd (centre hist)) as [[| s0 [| s1 rest]] |] eqn:E;
      try (split; discriminate).
    destruct (Hs s0 s1 rest eq_refl) as [H0 H1].
    pose proof (entropy_nonneg s0 s1 (1 # 1000000) H0 H1 eq_refl) as He.
    pose proof (Q.le_min_r (s1 / (s0 + (1 # 1000000)) * 5) 1) as Hr.
    assert (Hm : (0 <= Qmin (s1 / (s0 + (1 # 1000000)) * 5) 1)%Q).
    { apply Q.min_glb; [| discriminate].
      generalize dependent (s1 / (s0 + (1 # 1000000)))%Q. intros e He _.
      lra. }
    split; lra.
  - intros svd hist Hl. unfold Frontier.risk.
    apply Nat.ltb_lt in Hl. rewrite Hl. reflexivity.
Qed.

Lemma risk_score_range_witness :
  let svd : svd_oracle := fun _ => Some [2%Q; 1%Q] in
  let hist : list Pos := [(0, 0); (1, 0); (1, 1); (2, 1); (2, 2)] in
  let body : list Pos := [(0, 0); (1, 0)] in
  (forall s0 s1 rest, svd (centre hist) = Some (s0 :: s1 :: rest) ->
                      (0 <= s0)%Q /\ (0 <= s1)%Q) /\
  ((0 <= Frontier.risk svd hist)%Q /\ (Frontier.risk svd hist <= 1)%Q) /\
  (length body < 3)%nat /\
  Snake.analyze_risk svd body 20 20 = 0%Q /\
  (length hist < 10)%nat /\
  VacuumX.panic svd 10 hist = 0%Q /\
  (length body < 5)%nat /\
  Frontier.risk svd body = 0%Q.
Proof.
  intros svd hist body.
  assert (Hs : forall s0 s1 rest,
             svd (centre hist) = Some (s0 :: s1 :: rest) ->
             (0 <= s0)%Q /\ (0 <= s1)%Q).
  { intros s0 s1 rest E. inversion E; subst. split; discriminate. }
  assert (L3 : (length body < 3)%nat) by (simpl; lia).
  assert (L10 : (length hist < 10)%nat) by (simpl; lia).
  assert (L5 : (length body < 5)%nat) by (simpl; lia).
  split; [exact Hs |].
  split;
    [apply (proj1 (proj2 (proj2 (proj2 (proj2 risk_score_range)))) svd hist Hs) |].
  split; [exact L3 |].
  split; [apply (proj1 (proj2 risk_score_range) svd body 20 20 L3) |].
  split; [exact L10 |].
  split;
    [apply (proj1 (proj2 (proj2 (proj2 risk_score_range))) svd 10%nat hist L10) |].
  split; [exact L5 |].
  apply (proj2 (proj2 (proj2 (proj2 (proj2 risk_score_range)))) svd body L5).
Defined.

(** ** The navigation decision *)

Lemma flood_fill_count_pos start obstacles w h :
  1 <= Snake.flood_fill_count start obstacles w h.
Proof.
  destruct (flood_fill_count_spec start obstacles w h)
    as [comp [E [_ [_ Hc]]]].
  assert (Hin : In start comp) by (apply Hc; apply reach_refl).
  rewrite E. destruct comp; [contradiction | simpl length; lia].
Qed.

Lemma bfs_path_first_move start goal obstacles w h m :
  Snake.bfs_path start goal obstacles w h = Some m ->
  Snake.passable obstacles w h (SearchSpec.step start m) = true.
Proof.
  unfold Snake.bfs_path.
  pose proof (bfs_search_spec start goal obstacles w h) as Hspec.
  destruct (Snake.bfs_search start goal obstacles w h) as [| [[| m' p] |]];
    try discriminate.
  intros E. inversion E; subst m'. destruct Hspec as [Hp _].
  apply path_to_uncons in Hp. apply Hp.
Qed.

Lemma boxed_bfs_path obstacles w h head goal :
  SearchSpec.boxed obstacles w h head ->
  Snake.bfs_path head goal obstacles w h = None.
Proof.
  intros Hb. destruct (Snake.bfs_path head goal obstacles w h) as [m |] eqn:E;
    [| reflexivity].
  apply bfs_path_first_move in E. rewrite Hb in E. discriminate.
Qed.

Lemma max_reach_loop_spec head obstacles w h moves :
  Forall (fun e => snd e = SearchSpec.delta (fst e)) moves ->
  forall best max_area,
    (best = None -> max_area < 1) ->
    (Snake.max_reach_loop moves head obstacles w h best max_area = None <->
     best = None /\
     forall m d, In (m, d) moves ->
       Snake.passable obstacles w h (SearchSpec.step head m) = false) /\
    (forall m,
        Snake.max_reach_loop moves head obstacles w h best max_area = Some m ->
        best = Some m \/
        Snake.passable obstacles w h (SearchSpec.step head m) = true).
Proof.
  induction 1 as [| [m0 [dx dy]] rest Hd _ IH]; intros best max_area Hinv;
    cbn [Snake.max_reach_loop].
  - split; [| auto]. split; [intros ->; split; [reflexivity | intros ? ? []] |].
    intros [-> _]. reflexivity.
  - simpl in Hd.
    assert (Hstep : (fst head + dx, snd head + dy) = SearchSpec.step head m0)
      by (unfold SearchSpec.step; rewrite <- Hd; reflexivity).
    rewrite Hstep.
    destruct (Snake.passable obstacles w h (SearchSpec.step head m0)) eqn:Ep.
    + pose proof (flood_fill_count_pos (SearchSpec.step head m0)
                    obstacles w h) as Hpos.
      destruct (max_area <?
                Snake.flood_fill_count (SearchSpec.step head m0) obstacles w h)
        eqn:El.
      * destruct (IH (Some m0)
                    (Snake.flood_fill_count (SearchSpec.step head m0)
                       obstacles w h)
                    ltac:(discriminate)) as [IH1 IH2].
        split.
        -- split; [intros E; apply IH1 in E; destruct E; discriminate |].
           intros [_ Hall].
           specialize (Hall m0 (dx, dy) (or_introl eq_refl)). congruence.
        -- intros m E. apply IH2 in E. destruct E as [E | E]; [| auto].
           inversion E; subst. auto.
      * apply Z.ltb_ge in El.
        destruct best as [b |]; [| specialize (Hinv eq_refl); lia].
        destruct (IH (Some b) max_area ltac:(discriminate)) as [IH1 IH2].
        split; [| exact IH2].
        split; [intros E; apply IH1 in E; destruct E; discriminate |].
        intros [E _]. discriminate.
    + destruct (IH best max_area Hinv) as [IH1 IH2].
      split; [| exact IH2].
      rewrite IH1. split; intros [Hb Hall]; split; try exact Hb.
      * intros m d [E | Hin]; [inversion E; subst; exact Ep | eauto].
      * intros m d Hin. apply (Hall m d). right. exact Hin.
Qed.

Lemma get_max_reach_move_spec head obstacles w h :
  (Snake.get_max_reach_move head obstacles w h = None <->
   SearchSpec.boxed obstacles w h head) /\
  (forall m, Snake.get_max_reach_move head obstacles w h = Some m ->
             Snake.passable obstacles w h (SearchSpec.step head m) = true).
Proof.
  unfold Snake.get_max_reach_move.
  destruct (max_reach_loop_spec head obstacles w h Snake.MOVES MOVES_delta
              None (-1) ltac:(lia)) as [H1 H2].
  split.
  - rewrite H1. unfold SearchSpec.boxed. split.
    + intros [_ Hall] m. apply (Hall m _ (MOVES_all m)).
    + intros Hb. split; [reflexivity | intros m d _; apply Hb].
  - intros m E. destruct (H2 m E) as [E' | E']; [discriminate | exact E'].
Qed.

(** Vacuum-X: the budgeted reachability count is at least 1. *)
Lemma reach_expand_length world p acts :
  forall q vis,
    (length vis <= length (snd (VacuumX.reach_expand world p acts q vis)))%nat.
Proof.
  induction acts as [| a rest IH]; intros q vis; cbn [VacuumX.reach_expand].
  - simpl. lia.
  - destruct (mem (VacuumX.move p a) vis); [apply IH |].
    destruct (VacuumX.is_free world (VacuumX.move p a)); [| apply IH].
    specialize (IH (q ++ [VacuumX.move p a]) (VacuumX.move p a :: vis)).
    simpl in IH. lia.
Qed.

Lemma reach_loop_length budget world :
  forall q vis,
    (length vis <= length (VacuumX.reach_loop budget world q vis))%nat.
Proof.
  induction budget as [| b IH]; intros q vis; cbn [VacuumX.reach_loop];
    [lia |].
  destruct q as [| p q]; [lia |].
  pose proof (reach_expand_length world p
                [VacuumX.UP; VacuumX.DOWN; VacuumX.LEFT; VacuumX.RIGHT] q vis)
    as Hle.
  destruct (VacuumX.reach_expand world p
              [VacuumX.UP; VacuumX.DOWN; VacuumX.LEFT; VacuumX.RIGHT] q vis)
    as [q'' vis'].
  simpl in Hle. specialize (IH q'' vis'). lia.
Qed.

Lemma local_reachable_count_pos world start max_expand :
  1 <= VacuumX.local_reachable_count world start max_expand.
Proof.
  unfold VacuumX.local_reachable_count.
  pose proof (reach_loop_length (Z.to_nat max_expand) world [start] [start])
    as Hle.
  simpl in Hle. lia.
Qed.

Lemma escape_loop_spec world acts :
  forall best best_score,
    (best = None -> best_score < 1) ->
    (VacuumX.escape_loop world acts best best_score = None <->
     best = None /\
     forall a, In a acts ->
       VacuumX.is_free world (VacuumX.move (VacuumX.pos world) a) = false) /\
    (forall a,
        VacuumX.escape_loop world acts best best_score = Some a ->
        best = Some a \/
        (In a acts /\
         VacuumX.is_free world (VacuumX.move (VacuumX.pos world) a) = true)).
Proof.
  induction acts as [| a0 rest IH]; intros best best_score Hinv;
    cbn [VacuumX.escape_loop].
  - split; [| auto]. split; [intros ->; split; [reflexivity | intros ? []] |].
    intros [-> _]. reflexivity.
  - destruct (VacuumX.is_free world (VacuumX.move (VacuumX.pos world) a0))
      eqn:Ef; cbn [negb].
    + pose proof (local_reachable_count_pos world
                    (VacuumX.move (VacuumX.pos world) a0)
                    VacuumX.LOCAL_REACH_DEPTH) as Hpos.
      destruct (best_score <?
                VacuumX.local_reachable_count world
                  (VacuumX.move (VacuumX.pos world) a0)
                  VacuumX.LOCAL_REACH_DEPTH) eqn:El.
      * destruct (IH (Some a0)
                    (VacuumX.local_reachable_count world
                       (VacuumX.move (VacuumX.pos world) a0)
                       VacuumX.LOCAL_REACH_DEPTH)
                    ltac:(discriminate)) as [IH1 IH2].
        split.
        -- split; [intros E; apply IH1 in E; destruct E; discriminate |].
           intros [_ Hall]. specialize (Hall a0 (or_introl eq_refl)).
           congruence.
        -- intros a E. apply IH2 in E. destruct E as [E | [E1 E2]].
           ++ inversion E; subst. right. split; [left; reflexivity | exact Ef].
           ++ right. split; [right; exact E1 | exact E2].
      * apply Z.ltb_ge in El.
        destruct best as [b |]; [| specialize (Hinv eq_refl); lia].
        destruct (IH (Some b) best_score ltac:(discriminate)) as [IH1 IH2].
        split.
        -- split; [intros E; apply IH1 in E; destruct E; discriminate |].
           intros [E _]. discriminate.
        -- intros a E. apply IH2 in E. destruct E as [E | [E1 E2]]; [auto |].
           right. split; [right; exact E1 | exact E2].
    + destruct (IH best best_score Hinv) as [IH1 IH2].
      split.
      * rewrite IH1. split; intros [Hb Hall]; split; try exact Hb.
        -- intros a [<- | Hin]; [exact Ef | auto].
        -- intros a Hin. apply Hall. right. exact Hin.
      * intros a E. apply IH2 in E. destruct E as [E | [E1 E2]]; [auto |].
        right. split; [right; exact E1 | exact E2].
Qed.

Lemma or_max_reach_spec a head obstacles w h :
  (Snake.or_max_reach a head obstacles w h = None <->
   a = None /\ SearchSpec.boxed obstacles w h head) /\
  (forall m, Snake.or_max_reach a head obstacles w h = Some m ->
             a = Some m \/
             Snake.passable obstacles w h (SearchSpec.step head m) = true).
Proof.
  destruct (get_max_reach_move_spec head obstacles w h) as [H1 H2].
  unfold Snake.or_max_reach. destruct a as [m0 |].
  - split; [split; [discriminate | intros [E _]; discriminate] | auto].
  - split; [rewrite H1; tauto | auto].
Qed.

(** The action returned by [get_action] is [or_max_reach a1] where [a1] is
    the path move to the food, or the escape move with its own fallback. *)
Lemma final_action_spec head food_pos tail_pos obstacles w h a1 :
  a1 = Snake.bfs_path head food_pos obstacles w h \/
  a1 = Snake.or_max_reach (Snake.bfs_path head tail_pos obstacles w h)
         head obstacles w h ->
  let a := Snake.or_max_reach a1 head obstacles w h in
  (a = None <-> SearchSpec.boxed obstacles w h head) /\
  (forall m, a = Some m ->
             Snake.passable obstacles w h (SearchSpec.step head m) = true) /\
  (Snake.bfs_path head food_pos obstacles w h = None ->
   Snake.bfs_path head tail_pos obstacles w h = None ->
   a = Snake.get_max_reach_move head obstacles w h).
Proof.
  intros Ha1 a. subst a.
  destruct (or_max_reach_spec a1 head obstacles w h) as [N1 S1].
  destruct (or_max_reach_spec (Snake.bfs_path head tail_pos obstacles w h)
              head obstacles w h) as [N2 S2].
  split; [| split].
  - rewrite N1. split; [tauto |]. intros Hb. split; [| exact Hb].
    destruct Ha1 as [-> | ->].
    + apply boxed_bfs_path. exact Hb.
    + apply N2. split; [apply boxed_bfs_path |]; exact Hb.
  - intros m E. apply S1 in E. destruct E as [E | E]; [| exact E].
    destruct Ha1 as [Ha1 | Ha1]; rewrite Ha1 in E.
    + apply bfs_path_first_move in E. exact E.
    + apply S2 in E. destruct E as [E | E]; [| exact E].
      apply bfs_path_first_move in E. exact E.
  - intros EX EY. destruct Ha1 as [-> | ->].
    + rewrite EX. reflexivity.
    + rewrite EY. unfold Snake.or_max_reach.
      destruct (Snake.get_max_reach_move head obstacles w h); reflexivity.
Qed.

(** C4, as stated, fails for the Snake engine: with the head in the
    corner (0,0) and its two grid neighbours occupied by the body, every
    search fails, [get_max_reach_move] returns none, and [get_action]
    returns [None], for the greedy agent, the Coase agent and the sweep
    agent alike, whatever the risk and whatever alpha. *)
Lemma snake_boxed_get_action_none :
  let game :=
    {| Snake.snake := [(0, 0); (0, 1); (1, 1); (1, 0); (2, 0)];
       Snake.food := (5, 5); Snake.w := 20; Snake.h := 20;
       Snake.steps_since_food := 3; Snake.steps_total := 10 |} in
  SearchSpec.boxed (removelast (Snake.snake game)) 20 20 (0, 0) /\
  (forall risk_f : risk_oracle,
      option_map fst (Snake.get_action risk_f (Snake.BaseAgent_init false) game)
      = Some None /\
      option_map fst (Snake.get_action risk_f (Snake.BaseAgent_init true) game)
      = Some None /\
      forall a,
        option_map fst
          (SnakeSweep.get_action risk_f (SnakeSweep.SweepAgent_init a) game)
        = Some None).
Proof.
  cbv zeta. split; [intros m; destruct m; reflexivity |].
  intros risk_f. split; [vm_compute; reflexivity |]. split.
  - unfold Snake.get_action.
    cbn [Snake.snake Snake.is_coase Snake.BaseAgent_init].
    destruct (PrimFloat.leb _ _); vm_compute; reflexivity.
  - intros a. unfold SnakeSweep.get_action. cbn [Snake.snake].
    destruct (PrimFloat.leb _ _); vm_compute; reflexivity.
Qed.

(** C4, amended.  Snake: on a non-empty snake [get_action] returns; when
    neither the path to the food nor the escape path gives a move, the
    result is that of [get_max_reach_move]; every move it returns enters a
    cell that is in bounds and off the body without its tail; and it
    returns [None] exactly when all four neighbours of the head are
    blocked or out of bounds (no no-op action is substituted).  Vacuum-X
    v0.3: [choose_escape_action] returns STAY, which leaves the position
    unchanged, exactly when all four neighbours are blocked or out of
    bounds, and otherwise a move into a free cell; it is the action of
    [act] whenever the agent is left in ESCAPE mode. *)
Theorem navigation_decision_fallback :
  (forall risk_f ag game head rest,
      Snake.snake game = head :: rest ->
      exists a ag',
        Snake.get_action risk_f ag game = Some (a, ag') /\
        (a = None <->
         SearchSpec.boxed (removelast (Snake.snake game))
           (Snake.w game) (Snake.h game) head) /\
        (forall m, a = Some m ->
           Snake.passable (removelast (Snake.snake game))
             (Snake.w game) (Snake.h game) (SearchSpec.step head m) = true) /\
        (Snake.bfs_path head (Snake.food game)
           (removelast (Snake.snake game)) (Snake.w game) (Snake.h game)
         = None ->
         Snake.bfs_path head (last (Snake.snake game) head)
           (removelast (Snake.snake game)) (Snake.w game) (Snake.h game)
         = None ->
         a = Snake.get_max_reach_move head (removelast (Snake.snake game))
               (Snake.w game) (Snake.h game))) /\
  (forall world,
      (VacuumX.choose_escape_action world = VacuumX.STAY <->
       forall d, d <> VacuumX.STAY ->
         VacuumX.is_free world (VacuumX.move (VacuumX.pos world) d) = false) /\
      (VacuumX.choose_escape_action world <> VacuumX.STAY ->
       VacuumX.is_free world
         (VacuumX.move (VacuumX.pos world) (VacuumX.choose_escape_action world))
       = true) /\
      VacuumX.move (VacuumX.pos world) VacuumX.STAY = VacuumX.pos world) /\
  (forall ag t o,
      VacuumX.mode (snd (VacuumX.act ag t o)) = VacuumX.ESCAPE ->
      fst (VacuumX.act ag t o) = VacuumX.choose_escape_action (VacuumX.o_world o)).
Proof.
  split; [| split].
  - intros risk_f ag game head rest Hs. unfold Snake.get_action. rewrite Hs.
    rewrite <- Hs.
    destruct (Snake.is_coase ag);
      [destruct (PrimFloat.leb
                   (Snake.risk_threshold_f (Snake.steps_since_food game))
                   (risk_f (Snake.snake game) (Snake.w game)
                      (Snake.h game))) |];
      eexists; eexists; (split; [reflexivity |]);
      apply final_action_spec; auto.
  - intros world. unfold VacuumX.choose_escape_action.
    destruct (escape_loop_spec world
                [VacuumX.UP; VacuumX.DOWN; VacuumX.LEFT; VacuumX.RIGHT]
                None (-1) ltac:(lia)) as [H1 H2].
    destruct (VacuumX.escape_loop world
                [VacuumX.UP; VacuumX.DOWN; VacuumX.LEFT; VacuumX.RIGHT]
                None (-1)) as [a |] eqn:E.
    + destruct (H2 a eq_refl) as [Hb | [Hin Hf]]; [discriminate |].
      assert (Hns : a <> VacuumX.STAY)
        by (simpl in Hin; intuition (subst; discriminate)).
      split; [| split].
      * split; [intros Ea; contradiction |].
        intros Hall. rewrite (Hall a Hns) in Hf. discriminate.
      * intros _. exact Hf.
      * destruct (VacuumX.pos world) as [x y]. unfold VacuumX.move. simpl.
        f_equal; lia.
    + destruct (proj1 H1 eq_refl) as [_ Hall].
      split; [| split].
      * split; [| reflexivity]. intros _ d Hd. apply Hall.
        destruct d; simpl; auto. contradiction.
      * intros Hc. contradiction.
      * destruct (VacuumX.pos world) as [x y]. unfold VacuumX.move. simpl.
        f_equal; lia.
  - intros ag t o. unfold VacuumX.act, VacuumX._dynamic_thresholds.
    unfold VacuumX.mode_update. cbn [fst snd VacuumX.mode]. 
    match goal with
    | |- ?m = _ -> match ?m' with _ => _ end = _ =>
        change m' with m; destruct m; intros; try discriminate; reflexivity
    end.
Qed.

Lemma navigation_decision_fallback_witness :
  let game :=
    {| Snake.snake := [(1, 1); (2, 1); (2, 0); (3, 0)]; Snake.food := (3, 1);
       Snake.w := 4; Snake.h := 2;
       Snake.steps_since_food := 12; Snake.steps_total := 30 |} in
  let risk_f : risk_oracle := fun _ _ _ => 1%float in
  Snake.snake game = (1, 1) :: [(2, 1); (2, 0); (3, 0)] /\
  Snake.bfs_path (1, 1) (Snake.food game)
    (removelast (Snake.snake game)) (Snake.w game) (Snake.h game) = None /\
  Snake.bfs_path (1, 1) (last (Snake.snake game) (1, 1))
    (removelast (Snake.snake game)) (Snake.w game) (Snake.h game) = None /\
  exists a ag',
    Snake.get_action risk_f (Snake.BaseAgent_init true) game = Some (a, ag') /\
    a = Snake.get_max_reach_move (1, 1) (removelast (Snake.snake game))
          (Snake.w game) (Snake.h game) /\
    a = Some Snake.UP /\
    Snake.passable (removelast (Snake.snake game))
      (Snake.w game) (Snake.h game) (SearchSpec.step (1, 1) Snake.UP) = true.
Proof.
  intros game risk_f.
  assert (Hs : Snake.snake game = (1, 1) :: [(2, 1); (2, 0); (3, 0)])
    by reflexivity.
  assert (H1 : Snake.bfs_path (1, 1) (Snake.food game)
                 (removelast (Snake.snake game)) (Snake.w game) (Snake.h game)
               = None) by (vm_compute; reflexivity).
  assert (H2 : Snake.bfs_path (1, 1) (last (Snake.snake game) (1, 1))
                 (removelast (Snake.snake game)) (Snake.w game) (Snake.h game)
               = None) by (vm_compute; reflexivity).
  split; [exact Hs |]. split; [exact H1 |]. split; [exact H2 |].
  destruct (proj1 navigation_decision_fallback risk_f
              (Snake.BaseAgent_init true) game (1, 1)
              [(2, 1); (2, 0); (3, 0)] Hs)
    as [a [ag' [Hg [_ [Hp Hf]]]]].
  exists a, ag'.
  assert (Ha : a = Some Snake.UP)
    by (rewrite (Hf H1 H2); vm_compute; reflexivity).
  split; [exact Hg |]. split; [exact (Hf H1 H2) |]. split; [exact Ha |].
  exact (Hp Snake.UP Ha).
Defined.

(** ** The panic state machines: episodes *)

Lemma entries_stay {M : Type} (from to : M -> bool) trace :
  forall prev,
    from prev = false -> Forall (fun m => from m = false) trace ->
    PanicSpec.entries from to prev trace = 0%nat.
Proof.
  induction trace as [| m rest IH]; intros prev Hp Hall; simpl;
    [reflexivity |].
  inversion Hall; subst. rewrite Hp. simpl. apply IH; assumption.
Qed.

(** Snake: one call appends an episode exactly when it passes from NORMAL
    to PANIC. *)
Lemma snake_enter_leave ag now :
  Snake.panic_history (Snake.enter_panic ag now)
  = (if negb (Snake.in_panic ag) then Snake.panic_history ag ++ [now]
     else Snake.panic_history ag) /\
  Snake.in_panic (Snake.enter_panic ag now) = true /\
  Snake.panic_history (Snake.leave_panic ag) = Snake.panic_history ag /\
  Snake.in_panic (Snake.leave_panic ag) = false.
Proof.
  unfold Snake.enter_panic, Snake.leave_panic.
  destruct (Snake.in_panic ag) eqn:E; simpl; auto.
Qed.

Lemma snake_get_action_history risk_f ag g a ag' :
  Snake.get_action risk_f ag g = Some (a, ag') ->
  Snake.panic_history ag'
  = if negb (Snake.in_panic ag) && Snake.in_panic ag'
    then Snake.panic_history ag ++ [Snake.steps_total g]
    else Snake.panic_history ag.
Proof.
  unfold Snake.get_action. destruct (Snake.snake g) as [| head rest];
    [discriminate |].
  destruct (snake_enter_leave ag (Snake.steps_total g)) as [H1 [H2 [H3 H4]]].
  destruct (Snake.is_coase ag);
    [destruct (PrimFloat.leb _ _) |]; intros E; inversion E; subst; clear E.
  - rewrite H1, H2. destruct (Snake.in_panic ag); reflexivity.
  - rewrite H3, H4. rewrite andb_false_r. reflexivity.
  - destruct (Snake.in_panic ag'); reflexivity.
Qed.

Lemma sweep_get_action_history risk_f ag g a ag' :
  SnakeSweep.get_action risk_f ag g = Some (a, ag') ->
  Snake.panic_history (SnakeSweep.base ag')
  = if negb (Snake.in_panic (SnakeSweep.base ag))
       && Snake.in_panic (SnakeSweep.base ag')
    then Snake.panic_history (SnakeSweep.base ag) ++ [Snake.steps_total g]
    else Snake.panic_history (SnakeSweep.base ag).
Proof.
  unfold SnakeSweep.get_action. destruct (Snake.snake g) as [| head rest];
    [discriminate |].
  destruct (snake_enter_leave (SnakeSweep.base ag) (Snake.steps_total g))
    as [H1 [H2 [H3 H4]]].
  destruct (PrimFloat.leb _ _); intros E; inversion E; subst; clear E;
    cbn [SnakeSweep.base].
  - rewrite H1, H2. destruct (Snake.in_panic (SnakeSweep.base ag));
      reflexivity.
  - rewrite H3, H4. rewrite andb_false_r. reflexivity.
Qed.

Lemma snake_run_history risk_f games :
  forall ag ag',
    Snake.run_agent risk_f ag games = Some ag' ->
    length (Snake.panic_history ag')
    = (length (Snake.panic_history ag)
       + PanicSpec.entries negb (fun b => b) (Snake.in_panic ag)
           (PanicSpec.snake_flags risk_f ag games))%nat.
Proof.
  induction games as [| g rest IH]; intros ag ag' Hrun; simpl in *.
  - inversion Hrun; subst. lia.
  - destruct (Snake.get_action risk_f ag g) as [[a ag1] |] eqn:E;
      [| discriminate].
    rewrite (IH ag1 ag' Hrun). simpl.
    rewrite (snake_get_action_history risk_f ag g a ag1 E).
    destruct (negb (Snake.in_panic ag) && Snake.in_panic ag1);
      [rewrite length_app; simpl |]; lia.
Qed.

Lemma sweep_run_history risk_f games :
  forall ag ag',
    SnakeSweep.run_agent risk_f ag games = Some ag' ->
    length (Snake.panic_history (SnakeSweep.base ag'))
    = (length (Snake.panic_history (SnakeSweep.base ag))
       + PanicSpec.entries negb (fun b => b)
           (Snake.in_panic (SnakeSweep.base ag))
           (PanicSpec.sweep_flags risk_f ag games))%nat.
Proof.
  induction games as [| g rest IH]; intros ag ag' Hrun; simpl in *.
  - inversion Hrun; subst. lia.
  - destruct (SnakeSweep.get_action risk_f ag g) as [[a ag1] |] eqn:E;
      [| discriminate].
    rewrite (IH ag1 ag' Hrun). simpl.
    rewrite (sweep_get_action_history risk_f ag g a ag1 E).
    destruct (negb (Snake.in_panic (SnakeSweep.base ag))
              && Snake.in_panic (SnakeSweep.base ag1));
      [rewrite length_app; simpl |]; lia.
Qed.

(** Vacuum-X v0.3: what one call of [act] does to the accounting. *)
Lemma vacuum_mode_update_fields ag t o panic_th bat_th :
  let ag' := snd (VacuumX.mode_update ag t o panic_th bat_th) in
  let started :=
    VacuumX.Mode_eqb (VacuumX.mode ag) VacuumX.NORMAL
    && VacuumX.Mode_eqb (VacuumX.mode ag') VacuumX.ESCAPE in
  VacuumX.panic_events ag'
  = VacuumX.panic_events ag + (if started then 1 else 0) /\
  VacuumX.panic_saved ag' = VacuumX.panic_saved ag /\
  VacuumX.risk_drop_events ag' = VacuumX.risk_drop_events ag /\
  VacuumX.risk_drop_success ag' = VacuumX.risk_drop_success ag /\
  VacuumX.pending_rescue ag'
  = (if started then Some (t, VacuumX.o_dt o) else VacuumX.pending_rescue ag).
Proof.
  destruct ag as [m md et cd pr pe ps rde rds].
  unfold VacuumX.mode_update. cbv zeta.
  cbn [snd VacuumX.mode VacuumX.cooldown VacuumX.escape_timer
       VacuumX.pending_rescue VacuumX.panic_events VacuumX.panic_saved
       VacuumX.risk_drop_events VacuumX.risk_drop_success].
  destruct (Qlt_bool (inject_Z (VacuumX.battery (VacuumX.o_world o))) bat_th);
    destruct md; cbn [VacuumX.Mode_eqb andb];
    try (destruct ((if 0 <? cd then cd - 1 else cd) =? 0);
         destruct (Qle_bool panic_th (VacuumX.o_dt o)));
    cbn [VacuumX.Mode_eqb andb];
    try (destruct (et <=? 0));
    cbn [VacuumX.Mode_eqb andb];
    repeat split; try lia; reflexivity.
Qed.

Lemma vacuum_act_step ag t o :
  let ag' := snd (VacuumX.act ag t o) in
  let evaluated :=
    match VacuumX.pending_rescue ag with
    | Some (t0, _) => VacuumX.RESCUE_WINDOW <=? t - t0
    | None => false
    end in
  let dropped :=
    match VacuumX.pending_rescue ag with
    | Some (_, start_risk) =>
        Qlt_bool (VacuumX.o_dt o) (start_risk - (15 # 100))%Q
    | None => false
    end in
  let started :=
    VacuumX.Mode_eqb (VacuumX.mode ag) VacuumX.NORMAL
    && VacuumX.Mode_eqb (VacuumX.mode ag') VacuumX.ESCAPE in
  VacuumX.panic_events ag'
  = VacuumX.panic_events ag + (if started then 1 else 0) /\
  VacuumX.panic_saved ag'
  = VacuumX.panic_saved ag + (if evaluated then 1 else 0) /\
  VacuumX.risk_drop_events ag'
  = VacuumX.risk_drop_events ag + (if evaluated then 1 else 0) /\
  VacuumX.risk_drop_success ag'
  = VacuumX.risk_drop_success ag + (if evaluated && dropped then 1 else 0) /\
  VacuumX.pending_rescue ag'
  = (if started then Some (t, VacuumX.o_dt o)
     else if evaluated then None else VacuumX.pending_rescue ag).
Proof.
  destruct ag as [m md et cd pr pe ps rde rds].
  unfold VacuumX.act, VacuumX._dynamic_thresholds. cbv zeta.
  cbn [VacuumX.mon VacuumX.mode VacuumX.cooldown VacuumX.escape_timer
       VacuumX.pending_rescue VacuumX.panic_events VacuumX.panic_saved
       VacuumX.risk_drop_events VacuumX.risk_drop_success].
  match goal with
  | |- context [VacuumX.mode_update ?a t o ?p ?b] =>
      pose proof (vacuum_mode_update_fields a t o p b) as Hm;
      cbv zeta in Hm;
      destruct (VacuumX.mode_update a t o p b) as [act_ ag'] eqn:Eu
  end.
  cbn [snd] in *.
  destruct Hm as [H1 [H2 [H3 [H4 H5]]]].
  revert H1 H2 H3 H4 H5. clear Eu.
  unfold VacuumX.rescue_update.
  cbn [VacuumX.pending_rescue].
  destruct pr as [[t0 r0] |]; [destruct (VacuumX.RESCUE_WINDOW <=? t - t0) |];
    cbn [VacuumX.mon VacuumX.mode VacuumX.cooldown VacuumX.escape_timer
         VacuumX.pending_rescue VacuumX.panic_events VacuumX.panic_saved
         VacuumX.risk_drop_events VacuumX.risk_drop_success andb];
    intros H1 H2 H3 H4 H5; rewrite H1, H2, H3, H4, H5;
    repeat split; try lia;
    try (destruct (Qlt_bool (VacuumX.o_dt o) (r0 - (15 # 100))); lia);
    destruct (VacuumX.Mode_eqb md VacuumX.NORMAL
              && VacuumX.Mode_eqb (VacuumX.mode ag') VacuumX.ESCAPE);
    reflexivity.
Qed.

Lemma vacuum_run_events obs :
  forall t ag,
    VacuumX.panic_events (VacuumX.run_from t ag obs)
    = VacuumX.panic_events ag
      + Z.of_nat (PanicSpec.entries
                    (fun m => VacuumX.Mode_eqb m VacuumX.NORMAL)
                    (fun m => VacuumX.Mode_eqb m VacuumX.ESCAPE)
                    (VacuumX.mode ag) (PanicSpec.vacuum_modes t ag obs)).
Proof.
  induction obs as [| o rest IH]; intros t ag;
    cbn [VacuumX.run_from PanicSpec.vacuum_modes PanicSpec.entries].
  - lia.
  - rewrite IH.
    destruct (vacuum_act_step ag t o) as [H1 _]. cbv zeta in H1.
    rewrite H1.
    destruct (VacuumX.Mode_eqb (VacuumX.mode ag) VacuumX.NORMAL
              && VacuumX.Mode_eqb
                   (VacuumX.mode (snd (VacuumX.act ag t o))) VacuumX.ESCAPE);
      lia.
Qed.

(** Coase frontier probe: what one call of [choose] does. *)
Lemma frontier_choose_step ag o :
  let ag' := snd (Frontier.choose ag o) in
  let world := Frontier.o_world o in
  let started :=
    negb (Frontier.Mode_eqb (Frontier.mode ag) Frontier.PANIC)
    && Frontier.Mode_eqb (Frontier.mode ag') Frontier.PANIC in
  let pending :=
    if started then Some (Frontier.steps world)
    else Frontier.last_panic_step ag in
  let due :=
    match pending with
    | Some s => Frontier.steps world - s =? Frontier.RESCUE_WINDOW
    | None => false
    end in
  Frontier.alpha ag' = Frontier.alpha ag /\
  Frontier.panic_events ag'
  = Frontier.panic_events ag + (if started then 1 else 0) /\
  Frontier.panic_saved ag'
  = Frontier.panic_saved ag
    + (if due && negb (Frontier.done world) then 1 else 0) /\
  Frontier.last_panic_step ag' = (if due then None else pending).
Proof.
  destruct ag as [a m md pe ps lp].
  unfold Frontier.choose, Frontier.mode_update, Frontier.rescue_update.
  cbv zeta.
  cbn [Frontier.alpha Frontier.lpi Frontier.mode Frontier.panic_events
       Frontier.panic_saved Frontier.last_panic_step].
  destruct (Qlt_bool (inject_Z (Frontier.battery (Frontier.o_world o))) _);
    [| destruct (Qlt_bool _ (Frontier.o_r o)); [destruct md |]];
    repeat (cbn [Frontier.Mode_eqb negb andb snd Frontier.alpha Frontier.lpi
                 Frontier.mode Frontier.panic_events Frontier.panic_saved
                 Frontier.last_panic_step];
            match goal with
            | |- context [match ?x with Some _ => _ | None => _ end] =>
                is_var x; destruct x
            | |- context [if ?c then _ else _] => destruct c eqn:?
            end);
    cbn [Frontier.Mode_eqb negb andb snd Frontier.alpha Frontier.lpi
         Frontier.mode Frontier.panic_events Frontier.panic_saved
         Frontier.last_panic_step];
    repeat split; try lia; try reflexivity; try congruence.
Qed.

Lemma frontier_run_events obs :
  forall ag,
    Frontier.panic_events (Frontier.run_from ag obs)
    = Frontier.panic_events ag
      + Z.of_nat (PanicSpec.entries
                    (fun m => negb (Frontier.Mode_eqb m Frontier.PANIC))
                    (fun m => Frontier.Mode_eqb m Frontier.PANIC)
                    (Frontier.mode ag) (PanicSpec.frontier_modes ag obs)).
Proof.
  induction obs as [| o rest IH]; intros ag;
    cbn [Frontier.run_from PanicSpec.frontier_modes PanicSpec.entries].
  - lia.
  - rewrite IH.
    destruct (frontier_choose_step ag o) as [_ [H1 _]]. cbv zeta in H1.
    rewrite H1.
    destruct (negb (Frontier.Mode_eqb (Frontier.mode ag) Frontier.PANIC)
              && Frontier.Mode_eqb
                   (Frontier.mode (snd (Frontier.choose ag o))) Frontier.PANIC);
      lia.
Qed.

(** C2, as stated, fails for the Coase frontier probe: in the homing run
    the agent goes from SURVIVAL straight to PANIC at call 51, which
    records an episode although the run has no NORMAL-to-PANIC
    transition. *)
Lemma frontier_episode_from_survival :
  let ag0 := Frontier.CoaseAgent_init 1 in
  let modes := PanicSpec.frontier_modes ag0 PanicSpec.homing_run in
  Frontier.clocked 0 PanicSpec.homing_run /\
  skipn 50 modes = [Frontier.SURVIVAL; Frontier.PANIC] /\
  Frontier.panic_events (Frontier.run_from ag0 PanicSpec.homing_run) = 1 /\
  PanicSpec.entries (fun m => Frontier.Mode_eqb m Frontier.NORMAL)
    (fun m => Frontier.Mode_eqb m Frontier.PANIC) Frontier.NORMAL modes
  = 0%nat.
Proof.
  cbv zeta. split; [| repeat split; vm_compute; reflexivity].
  vm_compute. repeat split.
Qed.

(** C2, amended: the recorded panic-episode count grows by the number of
    steps at which the agent passes into PANIC (ESCAPE) from another mode:
    from NORMAL in Snake-SHM (base and sweep agents) and in Vacuum-X v0.3,
    from NORMAL or SURVIVAL in the Coase frontier probe.  Steps spent in
    PANIC are not counted: a trace that stays in PANIC, however long, has
    no such entry. *)
Theorem episodes_count_mode_entries :
  (forall risk_f ag games ag',
      Snake.run_agent risk_f ag games = Some ag' ->
      length (Snake.panic_history ag')
      = (length (Snake.panic_history ag)
         + PanicSpec.entries negb (fun b => b) (Snake.in_panic ag)
             (PanicSpec.snake_flags risk_f ag games))%nat) /\
  (forall risk_f ag games ag',
      SnakeSweep.run_agent risk_f ag games = Some ag' ->
      length (Snake.panic_history (SnakeSweep.base ag'))
      = (length (Snake.panic_history (SnakeSweep.base ag))
         + PanicSpec.entries negb (fun b => b)
             (Snake.in_panic (SnakeSweep.base ag))
             (PanicSpec.sweep_flags risk_f ag games))%nat) /\
  (forall t ag obs,
      VacuumX.panic_events (VacuumX.run_from t ag obs)
      = VacuumX.panic_events ag
        + Z.of_nat (PanicSpec.entries
                      (fun m => VacuumX.Mode_eqb m VacuumX.NORMAL)
                      (fun m => VacuumX.Mode_eqb m VacuumX.ESCAPE)
                      (VacuumX.mode ag) (PanicSpec.vacuum_modes t ag obs))) /\
  (forall ag obs,
      Frontier.panic_events (Frontier.run_from ag obs)
      = Frontier.panic_events ag
        + Z.of_nat (PanicSpec.entries
                      (fun m => negb (Frontier.Mode_eqb m Frontier.PANIC))
                      (fun m => Frontier.Mode_eqb m Frontier.PANIC)
                      (Frontier.mode ag) (PanicSpec.frontier_modes ag obs))) /\
  (forall (M : Type) (from to : M -> bool) prev trace,
      from prev = false -> Forall (fun m => from m = false) trace ->
      PanicSpec.entries from to prev trace = 0%nat).
Proof.
  split; [intros risk_f ag games ag'; apply snake_run_history |].
  split; [intros risk_f ag games ag'; apply sweep_run_history |].
  split; [intros t ag obs; apply vacuum_run_events |].
  split; [intros ag obs; apply frontier_run_events |].
  intros M from to prev trace. apply entries_stay.
Qed.

Lemma episodes_count_mode_entries_witness :
  let risk_f : risk_oracle := fun _ _ _ => 0.75%float in
  let game :=
    {| Snake.snake := [(0, 0); (0, 1); (1, 1); (1, 0); (2, 0)];
       Snake.food := (5, 5); Snake.w := 20; Snake.h := 20;
       Snake.steps_since_food := 3; Snake.steps_total := 10 |} in
  let ag := Snake.BaseAgent_init true in
  let ag' := {| Snake.is_coase := true; Snake.panic_history := [10];
                Snake.in_panic := true |} in
  let stay := repeat true 60 in
  let sw := SnakeSweep.SweepAgent_init 1%float in
  let sw' :=
    {| SnakeSweep.base := ag'; SnakeSweep.alpha := 1%float;
       SnakeSweep.steps_in_panic := 3 |} in
  Snake.run_agent risk_f ag [game; game; game] = Some ag' /\
  length (Snake.panic_history ag')
  = (length (Snake.panic_history ag)
     + PanicSpec.entries negb (fun b => b) (Snake.in_panic ag)
         (PanicSpec.snake_flags risk_f ag [game; game; game]))%nat /\
  SnakeSweep.run_agent risk_f sw [game; game; game] = Some sw' /\
  length (Snake.panic_history (SnakeSweep.base sw'))
  = (length (Snake.panic_history (SnakeSweep.base sw))
     + PanicSpec.entries negb (fun b => b)
         (Snake.in_panic (SnakeSweep.base sw))
         (PanicSpec.sweep_flags risk_f sw [game; game; game]))%nat /\
  negb true = false /\
  Forall (fun m => negb m = false) stay /\
  PanicSpec.entries negb (fun b => b) true stay = 0%nat.
Proof.
  intros risk_f game ag ag' stay sw sw'.
  assert (Hrun : Snake.run_agent risk_f ag [game; game; game] = Some ag')
    by (vm_compute; reflexivity).
  assert (Hsw : SnakeSweep.run_agent risk_f sw [game; game; game] = Some sw')
    by (vm_compute; reflexivity).
  assert (Hall : Forall (fun m => negb m = false) stay)
    by (apply Forall_forall; intros m Hm; apply repeat_spec in Hm; subst;
        reflexivity).
  split; [exact Hrun |].
  split; [apply (proj1 episodes_count_mode_entries risk_f ag _ ag' Hrun) |].
  split; [exact Hsw |].
  split; [apply (proj1 (proj2 episodes_count_mode_entries) risk_f sw _ sw' Hsw) |].
  split; [reflexivity |].
  split; [exact Hall |].
  apply (proj2 (proj2 (proj2 (proj2 episodes_count_mode_entries)))
           bool negb (fun b => b) true stay eq_refl Hall).
Defined.

(** ** The panic state machines: rescue accounting *)

Lemma firstn_snoc {A : Type} (l : list A) :
  forall i x, nth_error l i = Some x -> firstn (S i) l = firstn i l ++ [x].
Proof.
  induction l as [| y l IH]; intros [| i] x E; simpl in *; try discriminate.
  - inversion E; subst. reflexivity.
  - f_equal. apply IH. exact E.
Qed.

Lemma nth_error_lt {A : Type} (l : list A) i :
  (i < length l)%nat -> exists x, nth_error l i = Some x.
Proof.
  intros Hi. destruct (nth_error l i) as [x |] eqn:E; [eauto |].
  apply nth_error_None in E. lia.
Qed.

Lemma bump_iff (x : Z) (b : bool) :
  x + (if b then 1 else 0) = x + 1 <-> b = true.
Proof. destruct b; split; intros; try reflexivity; try lia; discriminate. Qed.

Section VacuumRescue.
Import VacuumX PanicSpec.

Lemma vacuum_run_from_app l1 :
  forall t ag l2,
    run_from t ag (l1 ++ l2)
    = run_from (t + Z.of_nat (length l1)) (run_from t ag l1) l2.
Proof.
  induction l1 as [| o l1 IH]; intros t ag l2;
    cbn [app run_from length].
  - f_equal. lia.
  - rewrite IH. f_equal. lia.
Qed.

Lemma vacuum_at_S obs i o :
  nth_error obs i = Some o ->
  vacuum_at obs (S i) = snd (act (vacuum_at obs i) (Z.of_nat i) o).
Proof.
  intros E. unfold vacuum_at, run_single.
  rewrite (firstn_snoc obs i o E), vacuum_run_from_app.
  cbn [run_from]. rewrite length_firstn.
  assert (Hi : (i < length obs)%nat)
    by (apply nth_error_Some; congruence).
  rewrite Nat.min_l by lia. reflexivity.
Qed.

Lemma vacuum_at_beyond obs i :
  (length obs <= i)%nat -> vacuum_at obs (S i) = vacuum_at obs i.
Proof.
  intros Hi. unfold vacuum_at. rewrite !firstn_all2 by lia. reflexivity.
Qed.

Lemma vacuum_started_in_run obs i :
  vacuum_started obs i -> (i < length obs)%nat.
Proof.
  unfold vacuum_started. intros Hs.
  destruct (le_lt_dec (length obs) i) as [Hle | Hlt]; [| exact Hlt].
  rewrite (vacuum_at_beyond obs i Hle) in Hs. lia.
Qed.

(** The facts of [vacuum_act_step] at call [i] of a run. *)
Lemma vacuum_call obs i o :
  nth_error obs i = Some o ->
  let evaluated :=
    match pending_rescue (vacuum_at obs i) with
    | Some (t0, _) => RESCUE_WINDOW <=? Z.of_nat i - t0
    | None => false
    end in
  let dropped :=
    match pending_rescue (vacuum_at obs i) with
    | Some (_, start_risk) => Qlt_bool (o_dt o) (start_risk - (15 # 100))%Q
    | None => false
    end in
  exists started : bool,
    (vacuum_started obs i <-> started = true) /\
    (vacuum_evaluated obs i <-> evaluated = true) /\
    (vacuum_risk_dropped obs i <-> evaluated && dropped = true) /\
    pending_rescue (vacuum_at obs (S i))
    = (if started then Some (Z.of_nat i, o_dt o)
       else if evaluated then None else pending_rescue (vacuum_at obs i)).
Proof.
  intros E evaluated dropped.
  unfold vacuum_started, vacuum_evaluated, vacuum_risk_dropped.
  rewrite (vacuum_at_S obs i o E).
  destruct (vacuum_act_step (vacuum_at obs i) (Z.of_nat i) o)
    as [H1 [H2 [_ [H4 H5]]]].
  cbv zeta in H1, H2, H4, H5. fold evaluated in H2, H4, H5.
  fold dropped in H4.
  eexists. rewrite H1, H2, H4, H5, !bump_iff.
  split; [reflexivity |]. split; [reflexivity |]. split; reflexivity.
Qed.

(** The pending rescue is the last episode started, if it is at most one
    window old; otherwise no episode started within the last window. *)
Lemma vacuum_pending_inv obs :
  forall i, (i <= length obs)%nat ->
    match pending_rescue (vacuum_at obs i) with
    | Some (s, r) =>
        exists k o0,
          s = Z.of_nat k /\ (k < i <= k + 12)%nat /\
          vacuum_started obs k /\
          nth_error obs k = Some o0 /\ r = o_dt o0 /\
          forall j, (k < j < i)%nat -> ~ vacuum_started obs j
    | None =>
        forall k, (k < i <= k + 12)%nat -> ~ vacuum_started obs k
    end.
Proof.
  induction i as [| i IH]; intros Hi.
  - unfold vacuum_at. cbn. intros k Hk. lia.
  - specialize (IH ltac:(lia)).
    destruct (nth_error_lt obs i ltac:(lia)) as [o E].
    destruct (vacuum_call obs i o E) as [started [Hs [_ [_ Hp]]]].
    rewrite Hp. clear Hp.
    destruct started.
    + exists i, o. repeat split; try lia; try assumption.
      apply Hs. reflexivity.
    + assert (Hns : ~ vacuum_started obs i)
        by (intros Hc; apply Hs in Hc; discriminate).
      destruct (pending_rescue (vacuum_at obs i)) as [[s r] |].
      * destruct IH as [k [o0 [Hk [Hr [Hst [Ho [Hd Hno]]]]]]].
        subst s. unfold RESCUE_WINDOW.
        destruct (12 <=? Z.of_nat i - Z.of_nat k) eqn:Ew.
        -- apply Z.leb_le in Ew. intros k2 Hk2.
           destruct (Nat.eq_dec k2 i) as [-> | Hne]; [exact Hns |].
           apply Hno. lia.
        -- apply Z.leb_gt in Ew.
           exists k, o0. repeat split; try lia; try assumption.
           intros j Hj.
           destruct (Nat.eq_dec j i) as [-> | Hne]; [exact Hns |].
           apply Hno. lia.
      * intros k2 Hk2.
        destruct (Nat.eq_dec k2 i) as [-> | Hne]; [exact Hns |].
        apply IH. lia.
Qed.

Lemma vacuum_rescue_characterised obs i :
  (i < length obs)%nat ->
  (vacuum_evaluated obs i <->
   exists k,
     Z.of_nat i = Z.of_nat k + RESCUE_WINDOW /\
     vacuum_started obs k /\
     forall j, (k < j < i)%nat -> ~ vacuum_started obs j) /\
  (vacuum_risk_dropped obs i <->
   vacuum_evaluated obs i /\
   exists k o0 o,
     Z.of_nat i = Z.of_nat k + RESCUE_WINDOW /\
     nth_error obs k = Some o0 /\ nth_error obs i = Some o /\
     (o_dt o < o_dt o0 - (15 # 100))%Q).
Proof.
  intros Hi.
  destruct (nth_error_lt obs i Hi) as [o E].
  destruct (vacuum_call obs i o E) as [started [_ [He [Hd _]]]].
  pose proof (vacuum_pending_inv obs i ltac:(lia)) as Hinv.
  rewrite He, Hd. clear He Hd.
  unfold RESCUE_WINDOW in *.
  destruct (pending_rescue (vacuum_at obs i)) as [[s r] |].
  - destruct Hinv as [k [o0 [Hk [Hr [Hst [Ho [Hdt Hno]]]]]]]. subst s r.
    split.
    + rewrite Z.leb_le. split.
      * intros Hw. exists k. repeat split; [lia | exact Hst | exact Hno].
      * intros [k' [Hk' [Hst' Hno']]].
        destruct (lt_eq_lt_dec k k') as [[Hlt | Heq] | Hgt]; [| lia |].
        -- exfalso. apply (Hno k'); [lia | exact Hst'].
        -- exfalso. apply (Hno' k); [lia | exact Hst].
    + rewrite andb_true_iff, Z.leb_le. unfold Qlt_bool.
      rewrite negb_true_iff, <- not_true_iff_false, Qle_bool_iff.
      split.
      * intros [Hw Hq]. split; [exact Hw |].
        exists k, o0, o. repeat split; try assumption; try lia.
        apply Qnot_le_lt. exact Hq.
      * intros [Hw [k' [o0' [o' [Hk' [Ho' [Eo' Hq]]]]]]].
        split; [exact Hw |].
        assert (k' = k) by lia. subst k'.
        rewrite Ho in Ho'. inversion Ho'; subst o0'.
        rewrite E in Eo'. inversion Eo'; subst o'.
        apply Qlt_not_le. exact Hq.
  - split.
    + split; [discriminate |].
      intros [k [Hk [Hst _]]]. exfalso. apply (Hinv k); [lia | exact Hst].
    + split; [discriminate |]. intros [Hc _]. discriminate.
Qed.

End VacuumRescue.

Section FrontierRescue.
Import Frontier PanicSpec.
Variable a : Q.

Lemma frontier_run_from_app l1 :
  forall ag l2,
    run_from ag (l1 ++ l2) = run_from (run_from ag l1) l2.
Proof.
  induction l1 as [| o l1 IH]; intros ag l2; cbn [app run_from];
    [reflexivity | apply IH].
Qed.

Lemma frontier_at_S obs i o :
  nth_error obs i = Some o ->
  frontier_at a obs (S i) = snd (choose (frontier_at a obs i) o).
Proof.
  intros E. unfold frontier_at.
  rewrite (firstn_snoc obs i o E), frontier_run_from_app. reflexivity.
Qed.

Lemma frontier_at_beyond obs i :
  (length obs <= i)%nat -> frontier_at a obs (S i) = frontier_at a obs i.
Proof.
  intros Hi. unfold frontier_at. rewrite !firstn_all2 by lia. reflexivity.
Qed.

Lemma clocked_nth obs :
  forall t i o,
    clocked t obs -> nth_error obs i = Some o ->
    steps (o_world o) = t + Z.of_nat i /\ done (o_world o) = false.
Proof.
  induction obs as [| o0 rest IH]; intros t i o Hc E.
  - destruct i; discriminate.
  - destruct Hc as [Hs [Hd Hc]]. destruct i as [| i]; simpl in E.
    + inversion E; subst. split; [lia | exact Hd].
    + destruct (IH (t + 1) i o Hc E) as [H1 H2]. split; [lia | exact H2].
Qed.

(** The facts of [frontier_choose_step] at call [i] of a run. *)
Lemma frontier_call obs i o :
  clocked 0 obs -> nth_error obs i = Some o ->
  exists started : bool,
    (frontier_started a obs i <-> started = true) /\
    let pending :=
      if started then Some (Z.of_nat i)
      else last_panic_step (frontier_at a obs i) in
    let due :=
      match pending with
      | Some s => Z.of_nat i - s =? RESCUE_WINDOW
      | None => false
      end in
    (frontier_evaluated a obs i <-> due = true) /\
    last_panic_step (frontier_at a obs (S i))
    = (if due then None else pending).
Proof.
  intros Hc E. destruct (clocked_nth obs 0 i o Hc E) as [Hst Hd].
  unfold frontier_started, frontier_evaluated.
  rewrite (frontier_at_S obs i o E).
  destruct (frontier_choose_step (frontier_at a obs i) o)
    as [_ [H1 [H2 H3]]].
  cbv zeta in H1, H2, H3. rewrite Hd, Hst in *. cbn [negb] in H2.
  rewrite Z.add_0_l in *.
  eexists. rewrite H1, H2, H3, !bump_iff. cbv zeta.
  split; [reflexivity |]. split; [| reflexivity].
  rewrite andb_true_r. reflexivity.
Qed.

Lemma frontier_pending_inv obs :
  clocked 0 obs ->
  forall i, (i <= length obs)%nat ->
    match last_panic_step (frontier_at a obs i) with
    | Some s =>
        exists k,
          s = Z.of_nat k /\ (k < i <= k + 12)%nat /\
          frontier_started a obs k /\
          forall j, (k < j < i)%nat -> ~ frontier_started a obs j
    | None =>
        forall k, (k < i <= k + 12)%nat -> ~ frontier_started a obs k
    end.
Proof.
  intros Hc. induction i as [| i IH]; intros Hi.
  - unfold frontier_at. cbn. intros k Hk. lia.
  - specialize (IH ltac:(lia)).
    destruct (nth_error_lt obs i ltac:(lia)) as [o E].
    destruct (frontier_call obs i o Hc E) as [started [Hs [_ Hp]]].
    cbv zeta in Hp. rewrite Hp. clear Hp. unfold RESCUE_WINDOW.
    destruct started.
    + replace (Z.of_nat i - Z.of_nat i =? 12) with false
        by (symmetry; apply Z.eqb_neq; lia).
      exists i. repeat split; try lia. apply Hs. reflexivity.
    + assert (Hns : ~ frontier_started a obs i)
        by (intros Hx; apply Hs in Hx; discriminate).
      destruct (last_panic_step (frontier_at a obs i)) as [s |].
      * destruct IH as [k [Hk [Hr [Hst Hno]]]]. subst s.
        destruct (Z.of_nat i - Z.of_nat k =? 12) eqn:Ew.
        -- apply Z.eqb_eq in Ew. intros k2 Hk2.
           destruct (Nat.eq_dec k2 i) as [-> | Hne]; [exact Hns |].
           apply Hno. lia.
        -- apply Z.eqb_neq in Ew.
           exists k. repeat split; try lia; try assumption.
           intros j Hj.
           destruct (Nat.eq_dec j i) as [-> | Hne]; [exact Hns |].
           apply Hno. lia.
      * intros k2 Hk2.
        destruct (Nat.eq_dec k2 i) as [-> | Hne]; [exact Hns |].
        apply IH. lia.
Qed.

Lemma frontier_rescue_characterised obs i :
  clocked 0 obs -> (i < length obs)%nat ->
  (frontier_evaluated a obs i <->
   exists k,
     Z.of_nat i = Z.of_nat k + RESCUE_WINDOW /\
     frontier_started a obs k /\
     forall j, (k < j <= i)%nat -> ~ frontier_started a obs j).
Proof.
  intros Hc Hi.
  destruct (nth_error_lt obs i Hi) as [o E].
  destruct (frontier_call obs i o Hc E) as [started [Hs [He _]]].
  cbv zeta in He. rewrite He. clear He.
  pose proof (frontier_pending_inv obs Hc i ltac:(lia)) as Hinv.
  unfold RESCUE_WINDOW.
  destruct started.
  - split.
    + rewrite Z.eqb_eq. lia.
    + intros [k [Hk [_ Hno]]]. exfalso. apply (Hno i); [lia |].
      apply Hs. reflexivity.
  - assert (Hns : ~ frontier_started a obs i)
      by (intros Hx; apply Hs in Hx; discriminate).
    destruct (last_panic_step (frontier_at a obs i)) as [s |].
    + destruct Hinv as [k [Hk [Hr [Hst Hno]]]]. subst s.
      rewrite Z.eqb_eq. split.
      * intros Hw. exists k. repeat split; [lia | exact Hst |].
        intros j Hj.
        destruct (Nat.eq_dec j i) as [-> | Hne]; [exact Hns |].
        apply Hno. lia.
      * intros [k' [Hk' [Hst' Hno']]].
        destruct (lt_eq_lt_dec k k') as [[Hlt | Heq] | Hgt]; [| lia |].
        -- exfalso. apply (Hno k'); [lia | exact Hst'].
        -- exfalso. apply (Hno' k); [lia | exact Hst].
    + split; [discriminate |].
      intros [k [Hk [Hst _]]]. exfalso. apply (Hinv k); [lia | exact Hst].
Qed.

End FrontierRescue.

Lemma rescue_count_cons p history final_steps :
  Snake.rescue_count (p :: history) final_steps
  = (if Snake.RESCUE_WINDOW <=? final_steps - p then 1 else 0)
    + Snake.rescue_count history final_steps.
Proof.
  unfold Snake.rescue_count. cbn [filter].
  destruct (Snake.RESCUE_WINDOW <=? final_steps - p); cbn [length]; lia.
Qed.

Lemma rescue_count_bounds history final_steps :
  0 <= Snake.rescue_count history final_steps
  <= Z.of_nat (length history).
Proof.
  unfold Snake.rescue_count.
  pose proof (filter_length_le
                (fun p => Snake.RESCUE_WINDOW <=? final_steps - p) history).
  lia.
Qed.

(** C1, as stated, fails for Vacuum-X v0.3.  In the pocket run (whose
    readings are those of [StructGate.panic] on ten equal points, and in
    which the agent can only STAY) an episode starts at call 9 and the run
    lasts until call 27, more than RESCUE_WINDOW = 12 calls later, yet no
    rescue is ever evaluated: the episodes started at calls 15, 21 and 27
    each replace the pending one before its window has run out. *)
Lemma pocket_run_unevaluated_episode :
  length PanicSpec.pocket_run = 28%nat /\
  forallb (fun ko =>
             Qeq_bool (VacuumX.o_dt (snd ko))
               (VacuumX.panic (fun _ => Some [0%Q; 0%Q]) VacuumX.SVD_WINDOW
                  (PanicSpec.pocket_hist (S (fst ko)))))
          (combine (seq 0 28) PanicSpec.pocket_run) = true /\
  forallb (fun o =>
             match VacuumX.choose_escape_action (VacuumX.o_world o) with
             | VacuumX.STAY => true
             | _ => false
             end)
          PanicSpec.pocket_run = true /\
  PanicSpec.vacuum_started PanicSpec.pocket_run 9 /\
  9 + VacuumX.RESCUE_WINDOW < 28 /\
  ~ PanicSpec.vacuum_evaluated PanicSpec.pocket_run 21 /\
  VacuumX.panic_events (VacuumX.run_single PanicSpec.pocket_run) = 4 /\
  VacuumX.panic_saved (VacuumX.run_single PanicSpec.pocket_run) = 0 /\
  VacuumX.risk_drop_events (VacuumX.run_single PanicSpec.pocket_run) = 0.
Proof.
  split; [reflexivity |].
  split; [vm_compute; reflexivity |].
  split; [vm_compute; reflexivity |].
  split; [vm_compute; reflexivity |].
  split; [reflexivity |].
  split; [vm_compute; discriminate |].
  repeat split; vm_compute; reflexivity.
Qed.

(** C1, amended.  Vacuum-X v0.3 and the Coase frontier probe keep one
    pending episode, the one started last.  A call evaluates a rescue if
    and only if an episode started exactly RESCUE_WINDOW calls earlier and
    no episode started since (in the frontier probe: nor at the call
    itself); so every evaluation is made exactly RESCUE_WINDOW steps after
    the start of the episode it is for, no episode is evaluated twice, and
    an episode followed by a new one within its window is never evaluated.
    In Vacuum-X v0.3 the evaluation counts a risk drop when the reading is
    below the reading at the episode's start by more than 0.15.  In
    Snake-SHM the rescues are counted once, after the run: one per episode
    whose start lies at least RESCUE_WINDOW steps before the final step
    count. *)
Theorem rescue_evaluation :
  (forall obs i,
      (i < length obs)%nat ->
      (PanicSpec.vacuum_evaluated obs i <->
       exists k,
         Z.of_nat i = Z.of_nat k + VacuumX.RESCUE_WINDOW /\
         PanicSpec.vacuum_started obs k /\
         forall j, (k < j < i)%nat -> ~ PanicSpec.vacuum_started obs j) /\
      (PanicSpec.vacuum_risk_dropped obs i <->
       PanicSpec.vacuum_evaluated obs i /\
       exists k o0 o,
         Z.of_nat i = Z.of_nat k + VacuumX.RESCUE_WINDOW /\
         nth_error obs k = Some o0 /\ nth_error obs i = Some o /\
         (VacuumX.o_dt o < VacuumX.o_dt o0 - (15 # 100))%Q)) /\
  (forall a obs i,
      Frontier.clocked 0 obs -> (i < length obs)%nat ->
      (PanicSpec.frontier_evaluated a obs i <->
       exists k,
         Z.of_nat i = Z.of_nat k + Frontier.RESCUE_WINDOW /\
         PanicSpec.frontier_started a obs k /\
         forall j, (k < j <= i)%nat -> ~ PanicSpec.frontier_started a obs j)) /\
  (forall p history final_steps,
      Snake.rescue_count [] final_steps = 0 /\
      Snake.rescue_count (p :: history) final_steps
      = (if Snake.RESCUE_WINDOW <=? final_steps - p then 1 else 0)
        + Snake.rescue_count history final_steps /\
      0 <= Snake.rescue_count history final_steps
      <= Z.of_nat (length history)).
Proof.
  split; [intros obs i Hi; apply vacuum_rescue_characterised; exact Hi |].
  split; [intros a obs i Hc Hi; apply frontier_rescue_characterised;
          assumption |].
  intros p history final_steps.
  split; [reflexivity |].
  split; [apply rescue_count_cons | apply rescue_count_bounds].
Qed.

Lemma rescue_evaluation_witness :
  (21 < length PanicSpec.pocket_run)%nat /\
  Frontier.clocked 0 PanicSpec.homing_run /\
  (51 < length PanicSpec.homing_run)%nat /\
  (PanicSpec.vacuum_evaluated PanicSpec.pocket_run 21 <->
   exists k,
     Z.of_nat 21 = Z.of_nat k + VacuumX.RESCUE_WINDOW /\
     PanicSpec.vacuum_started PanicSpec.pocket_run k /\
     forall j, (k < j < 21)%nat ->
               ~ PanicSpec.vacuum_started PanicSpec.pocket_run j) /\
  (PanicSpec.frontier_evaluated 1 PanicSpec.homing_run 51 <->
   exists k,
     Z.of_nat 51 = Z.of_nat k + Frontier.RESCUE_WINDOW /\
     PanicSpec.frontier_started 1 PanicSpec.homing_run k /\
     forall j, (k < j <= 51)%nat ->
               ~ PanicSpec.frontier_started 1 PanicSpec.homing_run j).
Proof.
  assert (H1 : (21 < length PanicSpec.pocket_run)%nat)
    by (vm_compute; lia).
  assert (H2 : Frontier.clocked 0 PanicSpec.homing_run)
    by (vm_compute; repeat split).
  assert (H3 : (51 < length PanicSpec.homing_run)%nat)
    by (vm_compute; lia).
  split; [exact H1 |]. split; [exact H2 |]. split; [exact H3 |].
  split.
  - apply (proj1 (proj1 rescue_evaluation PanicSpec.pocket_run 21%nat H1)).
  - apply (proj1 (proj2 rescue_evaluation) 1%Q PanicSpec.homing_run 51%nat
             H2 H3).
Defined.

(* ================================================================== *)
(** * Part III.  Further properties of the code                        *)
(* ================================================================== *)

(** ** The trajectory window *)

Lemma lastn_short {A : Type} (n : nat) (l : list A) :
  (length l <= n)%nat -> MoreSpec.lastn n l = l.
Proof.
  intros H. unfold MoreSpec.lastn.
  replace (length l - n)%nat with 0%nat by lia. reflexivity.
Qed.

Lemma lastn_length {A : Type} (n : nat) (l : list A) :
  length (MoreSpec.lastn n l) = Nat.min n (length l).
Proof. unfold MoreSpec.lastn. rewrite length_skipn. lia. Qed.

Lemma skipn_S_snoc {A : Type} (k : nat) :
  forall (l : list A) (x : A),
    (k <= length l)%nat -> skipn (S k) (l ++ [x]) = tl (skipn k l ++ [x]).
Proof.
  induction k as [| k IH]; intros l x H.
  - destruct l; reflexivity.
  - destruct l as [| a l]; [simpl in H; lia |].
    simpl in H. change (skipn (S (S k)) ((a :: l) ++ [x]))
      with (skipn (S k) (l ++ [x])).
    rewrite IH by lia. reflexivity.
Qed.

Lemma lastn_snoc_full {A : Type} (n : nat) (l : list A) (x : A) :
  (n <= length l)%nat ->
  MoreSpec.lastn n (l ++ [x]) = tl (MoreSpec.lastn n l ++ [x]).
Proof.
  intros H. unfold MoreSpec.lastn. rewrite length_app. simpl length.
  replace (length l + 1 - n)%nat with (S (length l - n)) by lia.
  apply skipn_S_snoc. lia.
Qed.

Lemma vacuum_hist_update_lastn window pre p :
  VacuumX.hist_update window (MoreSpec.lastn window pre) p
  = MoreSpec.lastn window (pre ++ [p]).
Proof.
  unfold VacuumX.hist_update. rewrite lastn_length.
  destruct (Nat.min window (length pre) <? window)%nat eqn:E.
  - apply Nat.ltb_lt in E.
    rewrite (lastn_short window pre) by lia.
    rewrite lastn_short; [reflexivity |].
    rewrite length_app. simpl. lia.
  - apply Nat.ltb_ge in E. symmetry. apply lastn_snoc_full. lia.
Qed.

Lemma vacuum_hist_fold window ps :
  forall pre,
    fold_left (VacuumX.hist_update window) ps (MoreSpec.lastn window pre)
    = MoreSpec.lastn window (pre ++ ps).
Proof.
  induction ps as [| p ps IH]; intros pre; cbn [fold_left].
  - rewrite app_nil_r. reflexivity.
  - rewrite vacuum_hist_update_lastn, IH, <- app_assoc. reflexivity.
Qed.

Lemma frontier_hist_update_eq hist p :
  Frontier.hist_update hist p
  = VacuumX.hist_update Frontier.SVD_WINDOW hist p.
Proof. reflexivity. Qed.

(** X1: the trajectory window ([deque(maxlen=...)] fed by
    [StructGate.update]) holds, after any sequence of updates from the
    empty window, exactly the last [maxlen] positions in their order; so
    its length never exceeds its capacity.  This holds for the window of
    Vacuum-X v0.3 at any capacity and for the window of the Coase frontier
    probe at its capacity 10. *)
Theorem trajectory_window_keeps_last :
  forall (window : nat) (ps : list Pos),
    fold_left (VacuumX.hist_update window) ps [] = MoreSpec.lastn window ps /\
    (length (fold_left (VacuumX.hist_update window) ps []) <= window)%nat /\
    fold_left Frontier.hist_update ps []
    = MoreSpec.lastn Frontier.SVD_WINDOW ps /\
    (length (fold_left Frontier.hist_update ps []) <= Frontier.SVD_WINDOW)%nat.
Proof.
  intros window ps.
  assert (H : forall n, fold_left (VacuumX.hist_update n) ps []
                        = MoreSpec.lastn n ps).
  { intros n. apply (vacuum_hist_fold n ps []). }
  assert (F : fold_left Frontier.hist_update ps []
              = MoreSpec.lastn Frontier.SVD_WINDOW ps).
  { rewrite <- H. reflexivity. }
  split; [apply H |]. split; [rewrite H, lastn_length; lia |].
  split; [exact F |]. rewrite F, lastn_length. lia.
Qed.

(** ** Reachable area: bounds *)

Lemma grid_cells_length (w h : Z) :
  Z.of_nat (length (grid_cells w h)) = Z.max 0 w * Z.max 0 h.
Proof.
  unfold grid_cells, zrange, Pos.
  rewrite length_prod, !length_map, !length_seq. lia.
Qed.

(** X2: [flood_fill_count] never exceeds the number of cells of the grid
    plus one (the start cell is counted even when it lies outside the
    grid or on an obstacle); from a start cell that is in bounds and not an
    obstacle it never exceeds the number of free cells of the grid. *)
Theorem flood_fill_count_upper_bound :
  forall start obstacles w h,
    Snake.flood_fill_count start obstacles w h
    <= 1 + Z.max 0 w * Z.max 0 h /\
    (Snake.passable obstacles w h start = true ->
     Snake.flood_fill_count start obstacles w h
     <= Z.of_nat (length (filter (Snake.passable obstacles w h)
                                 (grid_cells w h))) /\
     Snake.flood_fill_count start obstacles w h
     <= Z.max 0 w * Z.max 0 h).
Proof.
  intros start obstacles w h.
  destruct (flood_fill_count_spec start obstacles w h)
    as [comp [E [_ [Hnd Hc]]]].
  rewrite E.
  assert (Hcell : forall c, In c comp ->
                            c = start \/
                            Snake.passable obstacles w h c = true).
  { intros c Hin. apply Hc in Hin. destruct Hin as [p Hp].
    apply (path_to_ok _ _ _ _ Hp). }
  split.
  - assert (Hincl : incl comp (start :: grid_cells w h)).
    { intros c Hin. destruct (Hcell c Hin) as [-> | Hp];
        [left; reflexivity | right; apply (passable_in_cells _ _ _ _ Hp)]. }
    pose proof (NoDup_incl_length Hnd Hincl) as Hle. simpl in Hle.
    pose proof (grid_cells_length w h). lia.
  - intros Hs.
    assert (Hincl : incl comp (filter (Snake.passable obstacles w h)
                                      (grid_cells w h))).
    { intros c Hin. apply filter_In.
      destruct (Hcell c Hin) as [-> | Hp];
        (split; [apply (passable_in_cells obstacles w h) |]); assumption. }
    pose proof (NoDup_incl_length Hnd Hincl) as Hle.
    pose proof (filter_length_le (Snake.passable obstacles w h)
                  (grid_cells w h)) as Hf.
    pose proof (grid_cells_length w h). lia.
Qed.

Lemma flood_fill_count_upper_bound_witness :
  Snake.passable [(1, 1)] 3 3 (0, 0) = true /\
  Snake.flood_fill_count (0, 0) [(1, 1)] 3 3
  <= Z.of_nat (length (filter (Snake.passable [(1, 1)] 3 3)
                              (grid_cells 3 3))) /\
  Snake.flood_fill_count (0, 0) [(1, 1)] 3 3 <= Z.max 0 3 * Z.max 0 3.
Proof.
  assert (H : Snake.passable [(1, 1)] 3 3 (0, 0) = true) by reflexivity.
  split; [exact H |].
  apply (proj2 (flood_fill_count_upper_bound (0, 0) [(1, 1)] 3 3) H).
Defined.

(** ** Shortest paths among obstacles *)

Lemma bfs_search_progress start goal obstacles w h m p :
  Snake.bfs_search start goal obstacles w h = Ret (Some (m :: p)) ->
  exists p2,
    Snake.bfs_search (SearchSpec.step start m) goal obstacles w h
    = Ret (Some p2) /\ length p2 = length p.
Proof.
  intros E.
  pose proof (bfs_search_spec start goal obstacles w h) as H1.
  rewrite E in H1. destruct H1 as [Hp Hmin].
  apply path_to_uncons in Hp. destruct Hp as [Hok Hp].
  pose proof (bfs_search_spec (SearchSpec.step start m) goal obstacles w h)
    as H2.
  destruct (Snake.bfs_search (SearchSpec.step start m) goal obstacles w h)
    as [| [p2 |]]; [contradiction | | exfalso; apply (H2 p Hp)].
  destruct H2 as [Hp2 Hmin2]. exists p2. split; [reflexivity |].
  pose proof (Hmin2 p Hp) as Hle.
  pose proof (Hmin (m :: p2) (path_to_cons _ _ _ _ _ Hok Hp2)) as Hge.
  simpl in Hge. lia.
Qed.

Lemma bfs_search_self start obstacles w h :
  Snake.bfs_search start start obstacles w h = Ret (Some []).
Proof.
  unfold Snake.bfs_search, search_fuel. cbn [Snake.bfs_loop].
  rewrite pos_eqb_refl. reflexivity.
Qed.

Lemma bfs_path_of_search start goal obstacles w h p :
  Snake.bfs_search start goal obstacles w h = Ret (Some p) ->
  Snake.bfs_path start goal obstacles w h = hd_error p.
Proof.
  intros E. unfold Snake.bfs_path. rewrite E. destruct p; reflexivity.
Qed.

(** X3: among obstacles too, a move returned by [bfs_path] is the first
    move of a path from the start to the goal that stays in bounds and off
    the obstacles and that no such path is shorter than. *)
Theorem bfs_path_first_move_of_shortest_path :
  forall start goal obstacles w h m,
    Snake.bfs_path start goal obstacles w h = Some m ->
    exists p,
      SearchSpec.path_to (Snake.passable obstacles w h) start (m :: p) goal /\
      forall p',
        SearchSpec.path_to (Snake.passable obstacles w h) start p' goal ->
        (length (m :: p) <= length p')%nat.
Proof.
  intros start goal obstacles w h m. unfold Snake.bfs_path.
  pose proof (bfs_search_spec start goal obstacles w h) as Hspec.
  destruct (Snake.bfs_search start goal obstacles w h) as [| [[| m' p] |]];
    try discriminate.
  intros E. inversion E; subst m'. exists p. exact Hspec.
Qed.

Lemma bfs_path_first_move_of_shortest_path_witness :
  Snake.bfs_path (0, 0) (2, 0) [(1, 0)] 3 3 = Some Snake.DOWN /\
  exists p,
    SearchSpec.path_to (Snake.passable [(1, 0)] 3 3) (0, 0)
      (Snake.DOWN :: p) (2, 0) /\
    forall p',
      SearchSpec.path_to (Snake.passable [(1, 0)] 3 3) (0, 0) p' (2, 0) ->
      (length (Snake.DOWN :: p) <= length p')%nat.
Proof.
  assert (H : Snake.bfs_path (0, 0) (2, 0) [(1, 0)] 3 3 = Some Snake.DOWN)
    by (vm_compute; reflexivity).
  split; [exact H |].
  apply (bfs_path_first_move_of_shortest_path (0, 0) (2, 0) [(1, 0)] 3 3
           Snake.DOWN H).
Defined.

(** X4: on fixed obstacles, following the moves that [bfs_path] returns
    makes steady progress: if the search from the start finds a path of
    [n] moves then, after [j <= n] moves, the search finds a path of
    [n - j] moves; after [n] moves the goal is reached, and not before. *)
Theorem bfs_path_followed_reaches_goal :
  forall start goal obstacles w h p,
    Snake.bfs_search start goal obstacles w h = Ret (Some p) ->
    (forall j, (j <= length p)%nat ->
       exists pj,
         Snake.bfs_search (MoreSpec.follow j start goal obstacles w h)
           goal obstacles w h = Ret (Some pj) /\
         length pj = (length p - j)%nat) /\
    MoreSpec.follow (length p) start goal obstacles w h = goal /\
    (forall j, (j < length p)%nat ->
       MoreSpec.follow j start goal obstacles w h <> goal).
Proof.
  intros start goal obstacles w h p E.
  assert (Hj : forall j c pc,
             Snake.bfs_search c goal obstacles w h = Ret (Some pc) ->
             (j <= length pc)%nat ->
             exists pj,
               Snake.bfs_search (MoreSpec.follow j c goal obstacles w h)
                 goal obstacles w h = Ret (Some pj) /\
               length pj = (length pc - j)%nat).
  { induction j as [| j IH]; intros c pc Ec Hle.
    - exists pc. split; [exact Ec | simpl; lia].
    - destruct pc as [| m pc']; [simpl in Hle; lia |].
      cbn [MoreSpec.follow].
      rewrite (bfs_path_of_search _ _ _ _ _ _ Ec). cbn [hd_error].
      destruct (bfs_search_progress _ _ _ _ _ _ _ Ec) as [p2 [E2 Hl2]].
      destruct (IH _ p2 E2 ltac:(simpl in Hle; lia)) as [pj [Ej Hlj]].
      exists pj. split; [exact Ej | simpl; lia]. }
  assert (Hat : forall c, Snake.bfs_search c goal obstacles w h
                          = Ret (Some []) -> c = goal).
  { intros c Ec.
    pose proof (bfs_search_spec c goal obstacles w h) as Hs.
    rewrite Ec in Hs. destruct Hs as [Hp _].
    apply path_to_uncons in Hp. simpl in Hp. congruence. }
  split; [intros j Hle; apply (Hj j start p E Hle) |]. split.
  - destruct (Hj (length p) start p E (Nat.le_refl _)) as [pj [Ej Hlj]].
    destruct pj; [| simpl in Hlj; lia]. apply Hat. exact Ej.
  - intros j Hlt Heq.
    destruct (Hj j start p E ltac:(lia)) as [pj [Ej Hlj]].
    rewrite Heq in Ej.
    rewrite bfs_search_self in Ej. inversion Ej; subst pj.
    simpl in Hlj. lia.
Qed.

Lemma bfs_path_followed_reaches_goal_witness :
  let p := [Snake.DOWN; Snake.RIGHT; Snake.RIGHT; Snake.UP] in
  Snake.bfs_search (0, 0) (2, 0) [(1, 0)] 3 3 = Ret (Some p) /\
  MoreSpec.follow (length p) (0, 0) (2, 0) [(1, 0)] 3 3 = (2, 0).
Proof.
  intros p.
  assert (H : Snake.bfs_search (0, 0) (2, 0) [(1, 0)] 3 3 = Ret (Some p))
    by (vm_compute; reflexivity).
  split; [exact H |].
  apply (proj1 (proj2 (bfs_path_followed_reaches_goal
                         (0, 0) (2, 0) [(1, 0)] 3 3 p H))).
Defined.

(** ** The moves of last resort *)

Lemma max_reach_loop_choice head obstacles w h moves :
  Forall (fun e => snd e = SearchSpec.delta (fst e)) moves ->
  forall best max_area m,
    Snake.max_reach_loop moves head obstacles w h best max_area = Some m ->
    (best = Some m /\
     forall m' d, In (m', d) moves ->
       Snake.passable obstacles w h (SearchSpec.step head m') = true ->
       Snake.flood_fill_count (SearchSpec.step head m') obstacles w h
       <= max_area) \/
    (exists pre post,
        moves = pre ++ (m, SearchSpec.delta m) :: post /\
        Snake.passable obstacles w h (SearchSpec.step head m) = true /\
        max_area
        < Snake.flood_fill_count (SearchSpec.step head m) obstacles w h /\
        (forall m' d, In (m', d) pre ->
           Snake.passable obstacles w h (SearchSpec.step head m') = true ->
           Snake.flood_fill_count (SearchSpec.step head m') obstacles w h
           < Snake.flood_fill_count (SearchSpec.step head m) obstacles w h) /\
        (forall m' d, In (m', d) post ->
           Snake.passable obstacles w h (SearchSpec.step head m') = true ->
           Snake.flood_fill_count (SearchSpec.step head m') obstacles w h
           <= Snake.flood_fill_count (SearchSpec.step head m) obstacles w h)).
Proof.
  induction 1 as [| [m0 [dx dy]] rest Hd _ IH]; intros best max_area m E;
    cbn [Snake.max_reach_loop] in E.
  - left. split; [exact E | intros ? ? []].
  - simpl in Hd.
    assert (Hstep : (fst head + dx, snd head + dy) = SearchSpec.step head m0)
      by (unfold SearchSpec.step; rewrite <- Hd; reflexivity).
    rewrite Hstep in E.
    destruct (Snake.passable obstacles w h (SearchSpec.step head m0)) eqn:Ep.
    + destruct (max_area <?
                Snake.flood_fill_count (SearchSpec.step head m0) obstacles w h)
        eqn:El.
      * apply Z.ltb_lt in El. apply IH in E.
        destruct E as [[Eb Hall] | [pre [post [Em [Hp [Hlt [Hpre Hpost]]]]]]].
        -- inversion Eb; subst m0. right. exists [], rest.
           rewrite <- Hd. repeat split; auto. intros ? ? [].
        -- right. exists ((m0, (dx, dy)) :: pre), post.
           rewrite Em. repeat split; auto; try lia.
           intros m' d [Eq | Hin] Hp'; [inversion Eq; subst; lia | eauto].
      * apply Z.ltb_ge in El. apply IH in E.
        destruct E as [[Eb Hall] | [pre [post [Em [Hp [Hlt [Hpre Hpost]]]]]]].
        -- left. split; [exact Eb |].
           intros m' d [Eq | Hin] Hp'; [inversion Eq; subst; lia | eauto].
        -- right. exists ((m0, (dx, dy)) :: pre), post.
           rewrite Em. repeat split; auto.
           intros m' d [Eq | Hin] Hp'; [inversion Eq; subst; lia | eauto].
    + apply IH in E.
      destruct E as [[Eb Hall] | [pre [post [Em [Hp [Hlt [Hpre Hpost]]]]]]].
      * left. split; [exact Eb |].
        intros m' d [Eq | Hin] Hp'; [inversion Eq; subst; congruence | eauto].
      * right. exists ((m0, (dx, dy)) :: pre), post.
        rewrite Em. repeat split; auto.
        intros m' d [Eq | Hin] Hp'; [inversion Eq; subst; congruence | eauto].
Qed.

(** X5: when [get_max_reach_move] returns a move, that move enters a cell
    in bounds and off the obstacles whose reachable area is the largest
    among the four neighbours that can be entered; on a tie the first in
    the order UP, DOWN, LEFT, RIGHT wins: every move before it in that
    order has a strictly smaller area. *)
Theorem get_max_reach_move_is_best :
  forall head obstacles w h m,
    Snake.get_max_reach_move head obstacles w h = Some m ->
    Snake.passable obstacles w h (SearchSpec.step head m) = true /\
    (forall m',
        Snake.passable obstacles w h (SearchSpec.step head m') = true ->
        Snake.flood_fill_count (SearchSpec.step head m') obstacles w h
        <= Snake.flood_fill_count (SearchSpec.step head m) obstacles w h) /\
    exists pre post,
      Snake.MOVES = pre ++ (m, SearchSpec.delta m) :: post /\
      forall m' d, In (m', d) pre ->
        Snake.passable obstacles w h (SearchSpec.step head m') = true ->
        Snake.flood_fill_count (SearchSpec.step head m') obstacles w h
        < Snake.flood_fill_count (SearchSpec.step head m) obstacles w h.
Proof.
  intros head obstacles w h m E. unfold Snake.get_max_reach_move in E.
  apply (max_reach_loop_choice head obstacles w h Snake.MOVES MOVES_delta)
    in E.
  destruct E as [[Eb _] | [pre [post [Em [Hp [_ [Hpre Hpost]]]]]]];
    [discriminate |].
  split; [exact Hp |]. split.
  - intros m' Hp'. pose proof (MOVES_all m') as Hin. rewrite Em in Hin.
    apply in_app_or in Hin. destruct Hin as [Hin | [Eq | Hin]].
    + apply Z.lt_le_incl. eapply Hpre; eassumption.
    + inversion Eq; subst. lia.
    + eapply Hpost; eassumption.
  - exists pre, post. split; [exact Em | exact Hpre].
Qed.

Lemma get_max_reach_move_is_best_witness :
  Snake.get_max_reach_move (1, 1) [(1, 0); (0, 0); (0, 2)] 3 3
  = Some Snake.DOWN /\
  Snake.passable [(1, 0); (0, 0); (0, 2)] 3 3
    (SearchSpec.step (1, 1) Snake.DOWN) = true.
Proof.
  assert (H : Snake.get_max_reach_move (1, 1) [(1, 0); (0, 0); (0, 2)] 3 3
              = Some Snake.DOWN) by (vm_compute; reflexivity).
  split; [exact H |].
  apply (proj1 (get_max_reach_move_is_best
                  (1, 1) [(1, 0); (0, 0); (0, 2)] 3 3 Snake.DOWN H)).
Defined.

Lemma escape_loop_choice world acts :
  forall best best_score a,
    VacuumX.escape_loop world acts best best_score = Some a ->
    (best = Some a /\
     forall a', In a' acts ->
       VacuumX.is_free world (VacuumX.move (VacuumX.pos world) a') = true ->
       VacuumX.local_reachable_count world
         (VacuumX.move (VacuumX.pos world) a') VacuumX.LOCAL_REACH_DEPTH
       <= best_score) \/
    (exists pre post,
        acts = pre ++ a :: post /\
        VacuumX.is_free world (VacuumX.move (VacuumX.pos world) a) = true /\
        best_score
        < VacuumX.local_reachable_count world
            (VacuumX.move (VacuumX.pos world) a) VacuumX.LOCAL_REACH_DEPTH /\
        (forall a', In a' pre ->
           VacuumX.is_free world (VacuumX.move (VacuumX.pos world) a') = true ->
           VacuumX.local_reachable_count world
             (VacuumX.move (VacuumX.pos world) a') VacuumX.LOCAL_REACH_DEPTH
           < VacuumX.local_reachable_count world
               (VacuumX.move (VacuumX.pos world) a) VacuumX.LOCAL_REACH_DEPTH) /\
        (forall a', In a' post ->
           VacuumX.is_free world (VacuumX.move (VacuumX.pos world) a') = true ->
           VacuumX.local_reachable_count world
             (VacuumX.move (VacuumX.pos world) a') VacuumX.LOCAL_REACH_DEPTH
           <= VacuumX.local_reachable_count world
                (VacuumX.move (VacuumX.pos world) a)
                VacuumX.LOCAL_REACH_DEPTH)).
Proof.
  induction acts as [| a0 rest IH]; intros best best_score a E;
    cbn [VacuumX.escape_loop] in E.
  - left. split; [exact E | intros ? []].
  - destruct (VacuumX.is_free world (VacuumX.move (VacuumX.pos world) a0))
      eqn:Ef; cbn [negb] in E.
    + destruct (best_score <?
                VacuumX.local_reachable_count world
                  (VacuumX.move (VacuumX.pos world) a0)
                  VacuumX.LOCAL_REACH_DEPTH) eqn:El.
      * apply Z.ltb_lt in El. apply IH in E.
        destruct E as [[Eb Hall] | [pre [post [Em [Hp [Hlt [Hpre Hpost]]]]]]].
        -- inversion Eb; subst a0. right. exists [], rest.
           repeat split; auto. intros ? [].
        -- right. exists (a0 :: pre), post.
           rewrite Em. repeat split; auto; try lia.
           intros a' [Eq | Hin] Hp'; [subst; lia | eauto].
      * apply Z.ltb_ge in El. apply IH in E.
        destruct E as [[Eb Hall] | [pre [post [Em [Hp [Hlt [Hpre Hpost]]]]]]].
        -- left. split; [exact Eb |].
           intros a' [Eq | Hin] Hp'; [subst; lia | eauto].
        -- right. exists (a0 :: pre), post.
           rewrite Em. repeat split; auto.
           intros a' [Eq | Hin] Hp'; [subst; lia | eauto].
    + apply IH in E.
      destruct E as [[Eb Hall] | [pre [post [Em [Hp [Hlt [Hpre Hpost]]]]]]].
      * left. split; [exact Eb |].
        intros a' [Eq | Hin] Hp'; [subst; congruence | eauto].
      * right. exists (a0 :: pre), post.
        rewrite Em. repeat split; auto.
        intros a' [Eq | Hin] Hp'; [subst; congruence | eauto].
Qed.

(** X6: when [choose_escape_action] returns a move other than STAY, that
    move enters a free cell whose budgeted reachability score is the
    largest among the free neighbours; on a tie the first in the order UP,
    DOWN, LEFT, RIGHT wins. *)
Theorem choose_escape_action_is_best :
  forall world,
    VacuumX.choose_escape_action world <> VacuumX.STAY ->
    let a := VacuumX.choose_escape_action world in
    let score := fun a' =>
      VacuumX.local_reachable_count world
        (VacuumX.move (VacuumX.pos world) a') VacuumX.LOCAL_REACH_DEPTH in
    VacuumX.is_free world (VacuumX.move (VacuumX.pos world) a) = true /\
    (forall a', a' <> VacuumX.STAY ->
       VacuumX.is_free world (VacuumX.move (VacuumX.pos world) a') = true ->
       score a' <= score a) /\
    exists pre post,
      [VacuumX.UP; VacuumX.DOWN; VacuumX.LEFT; VacuumX.RIGHT]
      = pre ++ a :: post /\
      forall a', In a' pre ->
        VacuumX.is_free world (VacuumX.move (VacuumX.pos world) a') = true ->
        score a' < score a.
Proof.
  intros world. unfold VacuumX.choose_escape_action.
  destruct (VacuumX.escape_loop world
              [VacuumX.UP; VacuumX.DOWN; VacuumX.LEFT; VacuumX.RIGHT]
              None (-1)) as [a |] eqn:E; [| congruence].
  intros _. cbv zeta.
  apply escape_loop_choice in E.
  destruct E as [[Eb _] | [pre [post [Em [Hp [_ [Hpre Hpost]]]]]]];
    [discriminate |].
  split; [exact Hp |]. split.
  - intros a' Hns Hf.
    assert (Hin : In a' [VacuumX.UP; VacuumX.DOWN; VacuumX.LEFT;
                         VacuumX.RIGHT])
      by (destruct a'; simpl; auto; congruence).
    rewrite Em in Hin. apply in_app_or in Hin.
    destruct Hin as [Hin | [Eq | Hin]].
    + apply Z.lt_le_incl. apply Hpre; assumption.
    + subst. lia.
    + apply Hpost; assumption.
  - exists pre, post. split; [exact Em | exact Hpre].
Qed.

(** Vacuum-X: the cells visited by the budgeted search. *)
Lemma reach_expand_spec world p acts :
  forall q vis,
    NoDup vis ->
    let vis' := snd (VacuumX.reach_expand world p acts q vis) in
    NoDup vis' /\
    (length vis' <= length vis + length acts)%nat /\
    (forall c, In c vis' -> In c vis \/ VacuumX.is_free world c = true).
Proof.
  induction acts as [| a rest IH]; intros q vis Hnd;
    cbn [VacuumX.reach_expand].
  - cbn. repeat split; auto. lia.
  - destruct (mem (VacuumX.move p a) vis) eqn:Em.
    + destruct (IH q vis Hnd) as [H1 [H2 H3]]. cbv zeta.
      repeat split; auto. simpl length. lia.
    + destruct (VacuumX.is_free world (VacuumX.move p a)) eqn:Ef.
      * apply mem_not_In in Em.
        destruct (IH (q ++ [VacuumX.move p a]) (VacuumX.move p a :: vis)
                    ltac:(constructor; assumption)) as [H1 [H2 H3]].
        cbv zeta. repeat split; auto.
        -- simpl length in *. lia.
        -- intros c Hc. destruct (H3 c Hc) as [[<- | Hv] | Hf]; auto.
      * destruct (IH q vis Hnd) as [H1 [H2 H3]]. cbv zeta.
        repeat split; auto. simpl length. lia.
Qed.

Lemma reach_loop_spec budget world :
  forall q vis,
    NoDup vis ->
    let cells := VacuumX.reach_loop budget world q vis in
    NoDup cells /\
    (length cells <= length vis + 4 * budget)%nat /\
    (forall c, In c cells -> In c vis \/ VacuumX.is_free world c = true).
Proof.
  induction budget as [| b IH]; intros q vis Hnd;
    cbn [VacuumX.reach_loop].
  - cbv zeta. repeat split; auto. lia.
  - destruct q as [| p q]; [cbv zeta; repeat split; auto; lia |].
    pose proof (reach_expand_spec world p
                  [VacuumX.UP; VacuumX.DOWN; VacuumX.LEFT; VacuumX.RIGHT]
                  q vis Hnd) as He.
    destruct (VacuumX.reach_expand world p
                [VacuumX.UP; VacuumX.DOWN; VacuumX.LEFT; VacuumX.RIGHT] q vis)
      as [q'' vis'].
    cbv zeta in He. cbn [snd] in He. destruct He as [E1 [E2 E3]].
    destruct (IH q'' vis' E1) as [H1 [H2 H3]]. cbv zeta.
    repeat split; auto.
    + simpl length in E2. lia.
    + intros c Hc. destruct (H3 c Hc) as [Hv | Hf]; auto.
Qed.

(** X7: [local_reachable_count] returns the size of a duplicate-free set
    of cells, each of which is the start cell or a free cell; the count is
    at least 1 and at most 1 + 4 * max_expand, since every expansion adds at
    most four cells. *)
Theorem local_reachable_count_bounds :
  forall world start max_expand,
    let cells :=
      VacuumX.reach_loop (Z.to_nat max_expand) world [start] [start] in
    VacuumX.local_reachable_count world start max_expand
    = Z.of_nat (length cells) /\
    NoDup cells /\
    In start cells /\
    (forall c, In c cells -> c = start \/ VacuumX.is_free world c = true) /\
    1 <= VacuumX.local_reachable_count world start max_expand
    <= 1 + 4 * Z.max 0 max_expand.
Proof.
  intros world start max_expand cells.
  destruct (reach_loop_spec (Z.to_nat max_expand) world [start] [start]
              ltac:(constructor; [intros [] | constructor]))
    as [H1 [H2 H3]].
  cbv zeta in H1, H2, H3. fold cells in H1, H2, H3.
  pose proof (local_reachable_count_pos world start max_expand) as Hpos.
  assert (Hc : forall c, In c cells ->
                         c = start \/ VacuumX.is_free world c = true).
  { intros c Hin. destruct (H3 c Hin) as [[<- | []] | Hf]; auto. }
  split; [reflexivity |]. split; [exact H1 |]. split.
  - unfold cells. clear.
    generalize (Z.to_nat max_expand). intros b.
    assert (G : forall b q vis, In start vis ->
                                In start (VacuumX.reach_loop b world q vis)).
    { clear. induction b as [| b IH]; intros q vis Hin;
        cbn [VacuumX.reach_loop]; [exact Hin |].
      destruct q as [| p q]; [exact Hin |].
      assert (E : forall acts q vis, In start vis ->
                    In start (snd (VacuumX.reach_expand world p acts q vis))).
      { clear. induction acts as [| a rest IHa]; intros q vis Hin;
          cbn [VacuumX.reach_expand]; [exact Hin |].
        destruct (mem (VacuumX.move p a) vis); [apply IHa; exact Hin |].
        destruct (VacuumX.is_free world (VacuumX.move p a));
          apply IHa; [right |]; exact Hin. }
      specialize (E [VacuumX.UP; VacuumX.DOWN; VacuumX.LEFT; VacuumX.RIGHT]
                    q vis Hin).
      destruct (VacuumX.reach_expand world p
                  [VacuumX.UP; VacuumX.DOWN; VacuumX.LEFT; VacuumX.RIGHT]
                  q vis) as [q'' vis'].
      apply IH. exact E. }
    apply G. left. reflexivity.
  - split; [exact Hc |].
    split; [exact Hpos |].
    unfold VacuumX.local_reachable_count. fold cells.
    simpl length in H2. lia.
Qed.

Lemma choose_escape_action_is_best_witness :
  let world :=
    {| VacuumX.w := 12; VacuumX.h := 12; VacuumX.grid := PanicSpec.pocket_grid;
       VacuumX.dock := (0, 0); VacuumX.pos := (8, 8);
       VacuumX.battery := 60; VacuumX.steps := 0 |} in
  VacuumX.choose_escape_action world <> VacuumX.STAY /\
  VacuumX.is_free world
    (VacuumX.move (VacuumX.pos world) (VacuumX.choose_escape_action world))
  = true /\
  forall a', a' <> VacuumX.STAY ->
    VacuumX.is_free world (VacuumX.move (VacuumX.pos world) a') = true ->
    VacuumX.local_reachable_count world
      (VacuumX.move (VacuumX.pos world) a') VacuumX.LOCAL_REACH_DEPTH
    <= VacuumX.local_reachable_count world
         (VacuumX.move (VacuumX.pos world)
            (VacuumX.choose_escape_action world))
         VacuumX.LOCAL_REACH_DEPTH.
Proof.
  intros world.
  assert (H : VacuumX.choose_escape_action world <> VacuumX.STAY)
    by (vm_compute; discriminate).
  split; [exact H |].
  split; [exact (proj1 (choose_escape_action_is_best world H)) |].
  exact (proj1 (proj2 (choose_escape_action_is_best world H))).
Defined.

Lemma local_reachable_count_bounds_witness :
  let world :=
    {| VacuumX.w := 12; VacuumX.h := 12; VacuumX.grid := PanicSpec.pocket_grid;
       VacuumX.dock := (0, 0); VacuumX.pos := (5, 5);
       VacuumX.battery := 60; VacuumX.steps := 0 |} in
  In (5, 5) (VacuumX.reach_loop 30 world [(5, 5)] [(5, 5)]) /\
  ((5, 5) = (5, 5) \/ VacuumX.is_free world (5, 5) = true) /\
  1 <= VacuumX.local_reachable_count world (5, 5) 30 <= 121.
Proof.
  intros world.
  destruct (local_reachable_count_bounds world (5, 5) 30)
    as [_ [_ [Hin [Hc Hb]]]].
  split; [exact Hin |]. split; [exact (Hc (5, 5) Hin) | exact Hb].
Defined.

(** ** Snake-SHM: the alpha sweep against the base agent *)

(** At alpha = 1.0 the effective gain is the gain itself, 0.5 * 1.0 being
    0.5 in binary64: the two agents compute the same threshold. *)
Lemma sweep_threshold_alpha_one hunger :
  SnakeSweep.threshold_f 1%float hunger = Snake.risk_threshold_f hunger.
Proof. reflexivity. Qed.

Lemma sweep_get_action_alpha risk_f ag g a ag' :
  SnakeSweep.get_action risk_f ag g = Some (a, ag') ->
  SnakeSweep.alpha ag' = SnakeSweep.alpha ag /\
  Snake.is_coase (SnakeSweep.base ag') = Snake.is_coase (SnakeSweep.base ag).
Proof.
  unfold SnakeSweep.get_action. destruct (Snake.snake g) as [| head rest];
    [discriminate |].
  destruct (PrimFloat.leb _ _); intros E; inversion E; subst; clear E;
    cbn [SnakeSweep.base SnakeSweep.alpha]; split; try reflexivity.
  unfold Snake.enter_panic. destruct (Snake.in_panic (SnakeSweep.base ag));
    reflexivity.
Qed.

Lemma sweep_get_action_alpha_one risk_f ag g :
  SnakeSweep.alpha ag = 1%float ->
  Snake.is_coase (SnakeSweep.base ag) = true ->
  option_map (fun r => (fst r, SnakeSweep.base (snd r)))
             (SnakeSweep.get_action risk_f ag g)
  = Snake.get_action risk_f (SnakeSweep.base ag) g.
Proof.
  intros Ha Hc. unfold SnakeSweep.get_action, Snake.get_action.
  destruct (Snake.snake g) as [| head rest]; [reflexivity |].
  rewrite Hc, Ha, sweep_threshold_alpha_one.
  destruct (PrimFloat.leb _ _); reflexivity.
Qed.

(** X8: at alpha = 1.0 the sweep agent of v0.3.4 is the Coase agent of
    v0.3.2.  Both compare the value of [StructGate.analyze_risk] with a
    threshold computed in binary64, and at alpha = 1.0 the two thresholds
    are the same binary64 value for every hunger; so each call of
    [get_action] returns the same move and leaves the same panic history
    and flag, and so does a whole run (a run that raises for one raises
    for the other). *)
Theorem sweep_agent_alpha_one_is_base_agent :
  forall risk_f ag,
    SnakeSweep.alpha ag = 1%float ->
    Snake.is_coase (SnakeSweep.base ag) = true ->
    (forall hunger,
        SnakeSweep.threshold_f (SnakeSweep.alpha ag) hunger
        = Snake.risk_threshold_f hunger) /\
    (forall g,
        option_map (fun r => (fst r, SnakeSweep.base (snd r)))
                   (SnakeSweep.get_action risk_f ag g)
        = Snake.get_action risk_f (SnakeSweep.base ag) g) /\
    (forall games,
        option_map SnakeSweep.base (SnakeSweep.run_agent risk_f ag games)
        = Snake.run_agent risk_f (SnakeSweep.base ag) games).
Proof.
  intros risk_f ag Ha Hc. split; [| split].
  - intros hunger. rewrite Ha. apply sweep_threshold_alpha_one.
  - intros g. apply sweep_get_action_alpha_one; assumption.
  - intros games. revert ag Ha Hc.
    induction games as [| g rest IH]; intros ag Ha Hc;
      cbn [SnakeSweep.run_agent Snake.run_agent]; [reflexivity |].
    pose proof (sweep_get_action_alpha_one risk_f ag g Ha Hc) as E.
    destruct (SnakeSweep.get_action risk_f ag g) as [[a ag1] |] eqn:Eg;
      cbn [option_map fst snd] in E; rewrite <- E; [| reflexivity].
    destruct (sweep_get_action_alpha risk_f ag g a ag1 Eg) as [E1 E2].
    apply IH; [rewrite E1; exact Ha | rewrite E2; exact Hc].
Qed.

Lemma sweep_agent_alpha_one_is_base_agent_witness :
  let g1 :=
    {| Snake.snake := [(1, 1); (2, 1); (2, 0); (3, 0)]; Snake.food := (3, 1);
       Snake.w := 4; Snake.h := 2;
       Snake.steps_since_food := 12; Snake.steps_total := 30 |} in
  let g2 :=
    {| Snake.snake := [(1, 0); (1, 1); (2, 1); (2, 0)]; Snake.food := (3, 1);
       Snake.w := 4; Snake.h := 2;
       Snake.steps_since_food := 13; Snake.steps_total := 31 |} in
  let risk_f : risk_oracle :=
    fun body _ _ => if pos_eqb (hd (0, 0) body) (1, 1) then 0.75%float
                    else 0.25%float in
  SnakeSweep.alpha (SnakeSweep.SweepAgent_init 1%float) = 1%float /\
  Snake.run_agent risk_f (Snake.BaseAgent_init true) [g1; g2]
  = Some {| Snake.is_coase := true; Snake.panic_history := [30];
            Snake.in_panic := false |} /\
  option_map SnakeSweep.base
    (SnakeSweep.run_agent risk_f (SnakeSweep.SweepAgent_init 1%float) [g1; g2])
  = Snake.run_agent risk_f (Snake.BaseAgent_init true) [g1; g2].
Proof.
  intros g1 g2 risk_f.
  assert (H1 : SnakeSweep.alpha (SnakeSweep.SweepAgent_init 1%float)
               = 1%float) by reflexivity.
  split; [exact H1 |]. split; [vm_compute; reflexivity |].
  exact (proj2 (proj2 (sweep_agent_alpha_one_is_base_agent
                         risk_f (SnakeSweep.SweepAgent_init 1%float)
                         H1 eq_refl))
               [g1; g2]).
Defined.

Lemma hunger_ratio_mono h1 h2 :
  h1 <= h2 -> (Snake.hunger_ratio h1 <= Snake.hunger_ratio h2)%Q.
Proof.
  intros Hle. unfold Snake.hunger_ratio.
  apply Q.min_le_compat_l.
  apply Qmult_le_compat_r; [| discriminate].
  rewrite <- Zle_Qle. exact Hle.
Qed.

Lemma hunger_ratio_saturates hunger :
  Snake.MAX_STEPS_WITHOUT_FOOD <= hunger ->
  (Snake.hunger_ratio hunger == 1)%Q.
Proof.
  intros Hle. unfold Snake.hunger_ratio.
  apply Q.min_l.
  apply Qle_shift_div_l; [reflexivity |].
  rewrite Qmult_1_l. rewrite <- Zle_Qle. exact Hle.
Qed.

(** X9: for alpha at least 0 the sweep threshold never falls when the
    hunger counter grows, and from [MAX_STEPS_WITHOUT_FOOD] on the [min]
    holds it at base + gain * alpha; at alpha = 0 it is the base threshold
    whatever the hunger.  The v0.3.2 threshold behaves as the sweep at
    alpha = 1. *)
Theorem threshold_monotone_and_saturating_in_hunger :
  (forall a h1 h2,
      (0 <= a)%Q -> h1 <= h2 ->
      (SnakeSweep.threshold a h1 <= SnakeSweep.threshold a h2)%Q) /\
  (forall a hunger,
      Snake.MAX_STEPS_WITHOUT_FOOD <= hunger ->
      (SnakeSweep.threshold a hunger
       == Snake.RISK_THRESHOLD_BASE + Snake.RISK_HUNGER_GAIN * a)%Q) /\
  (forall hunger,
      (SnakeSweep.threshold 0 hunger == Snake.RISK_THRESHOLD_BASE)%Q) /\
  (forall h1 h2,
      h1 <= h2 -> (Snake.risk_threshold h1 <= Snake.risk_threshold h2)%Q) /\
  (forall hunger,
      Snake.MAX_STEPS_WITHOUT_FOOD <= hunger ->
      (Snake.risk_threshold hunger
       == Snake.RISK_THRESHOLD_BASE + Snake.RISK_HUNGER_GAIN)%Q).
Proof.
  split; [| split; [| split; [| split]]].
  - intros a h1 h2 Ha Hle. pose proof (hunger_ratio_mono h1 h2 Hle) as Hm.
    unfold SnakeSweep.threshold, SnakeSweep.threshold_at,
      SnakeSweep.effective_gain, Snake.RISK_THRESHOLD_BASE,
      Snake.RISK_HUNGER_GAIN.
    nra.
  - intros a hunger Hle.
    unfold SnakeSweep.threshold, SnakeSweep.threshold_at,
      SnakeSweep.effective_gain.
    rewrite (hunger_ratio_saturates hunger Hle). ring.
  - intros hunger.
    unfold SnakeSweep.threshold, SnakeSweep.threshold_at,
      SnakeSweep.effective_gain.
    ring.
  - intros h1 h2 Hle. pose proof (hunger_ratio_mono h1 h2 Hle) as Hm.
    unfold Snake.risk_threshold, Snake.RISK_THRESHOLD_BASE,
      Snake.RISK_HUNGER_GAIN.
    lra.
  - intros hunger Hle. unfold Snake.risk_threshold.
    rewrite (hunger_ratio_saturates hunger Hle). ring.
Qed.

Lemma threshold_monotone_and_saturating_in_hunger_witness :
  (0 <= 2)%Q /\ 50 <= 120 /\ Snake.MAX_STEPS_WITHOUT_FOOD <= 230 /\
  (SnakeSweep.threshold 2 50 <= SnakeSweep.threshold 2 120)%Q /\
  (SnakeSweep.threshold 2 230
   == Snake.RISK_THRESHOLD_BASE + Snake.RISK_HUNGER_GAIN * 2)%Q /\
  (Snake.risk_threshold 50 <= Snake.risk_threshold 120)%Q /\
  (Snake.risk_threshold 230
   == Snake.RISK_THRESHOLD_BASE + Snake.RISK_HUNGER_GAIN)%Q.
Proof.
  assert (H1 : (0 <= 2)%Q) by discriminate.
  assert (H2 : 50 <= 120) by lia.
  assert (H3 : Snake.MAX_STEPS_WITHOUT_FOOD <= 230)
    by (unfold Snake.MAX_STEPS_WITHOUT_FOOD; lia).
  pose proof threshold_monotone_and_saturating_in_hunger
    as [T1 [T2 [_ [T4 T5]]]].
  split; [exact H1 |]. split; [exact H2 |]. split; [exact H3 |].
  split; [exact (T1 2%Q 50 120 H1 H2) |].
  split; [exact (T2 2%Q 230 H3) |].
  split; [exact (T4 50 120 H2) | exact (T5 230 H3)].
Defined.

(** ** Snake-SHM v0.3.4: the panic-step counter *)

Lemma entries_le_count_true trace :
  forall prev,
    (PanicSpec.entries negb (fun b => b) prev trace
     <= MoreSpec.count_true trace)%nat.
Proof.
  unfold MoreSpec.count_true.
  induction trace as [| m rest IH]; intros prev;
    cbn [PanicSpec.entries filter]; [lia |].
  specialize (IH m).
  destruct m; [destruct prev |]; cbn [length andb negb];
    rewrite ?andb_false_r; lia.
Qed.

Lemma count_true_le_length trace :
  (MoreSpec.count_true trace <= length trace)%nat.
Proof. unfold MoreSpec.count_true. apply filter_length_le. Qed.

Lemma sweep_get_action_steps_in_panic risk_f ag g a ag' :
  SnakeSweep.get_action risk_f ag g = Some (a, ag') ->
  SnakeSweep.steps_in_panic ag'
  = SnakeSweep.steps_in_panic ag
    + (if Snake.in_panic (SnakeSweep.base ag') then 1 else 0).
Proof.
  unfold SnakeSweep.get_action. destruct (Snake.snake g) as [| head rest];
    [discriminate |].
  destruct (snake_enter_leave (SnakeSweep.base ag) (Snake.steps_total g))
    as [_ [H2 [_ H4]]].
  destruct (PrimFloat.leb _ _); intros E; inversion E; subst; clear E;
    cbn [SnakeSweep.base SnakeSweep.steps_in_panic];
    rewrite ?H2, ?H4; lia.
Qed.

Lemma sweep_run_flags_length risk_f games :
  forall ag ag',
    SnakeSweep.run_agent risk_f ag games = Some ag' ->
    length (PanicSpec.sweep_flags risk_f ag games) = length games.
Proof.
  induction games as [| g rest IH]; intros ag ag' Hrun;
    cbn [SnakeSweep.run_agent PanicSpec.sweep_flags] in *; [reflexivity |].
  destruct (SnakeSweep.get_action risk_f ag g) as [[a ag1] |];
    [| discriminate].
  cbn [length]. f_equal. apply (IH ag1 ag'). exact Hrun.
Qed.

Lemma sweep_run_steps_in_panic risk_f games :
  forall ag ag',
    SnakeSweep.run_agent risk_f ag games = Some ag' ->
    SnakeSweep.steps_in_panic ag'
    = SnakeSweep.steps_in_panic ag
      + Z.of_nat (MoreSpec.count_true (PanicSpec.sweep_flags risk_f ag games)).
Proof.
  unfold MoreSpec.count_true.
  induction games as [| g rest IH]; intros ag ag' Hrun;
    cbn [SnakeSweep.run_agent PanicSpec.sweep_flags] in *.
  - inversion Hrun; subst. cbn. lia.
  - destruct (SnakeSweep.get_action risk_f ag g) as [[a ag1] |] eqn:E;
      [| discriminate].
    rewrite (IH ag1 ag' Hrun).
    rewrite (sweep_get_action_steps_in_panic risk_f ag g a ag1 E).
    cbn [filter]. destruct (Snake.in_panic (SnakeSweep.base ag1));
      cbn [length]; lia.
Qed.

(** X10: over a run of the sweep agent from its initial state,
    [steps_in_panic] is the number of calls that ended with [in_panic]
    set; it is at most the number of calls and at least the number of
    recorded episodes, each episode containing the call that opened it. *)
Theorem steps_in_panic_counts_panic_calls :
  forall risk_f a games ag',
    SnakeSweep.run_agent risk_f (SnakeSweep.SweepAgent_init a) games = Some ag' ->
    let flags :=
      PanicSpec.sweep_flags risk_f (SnakeSweep.SweepAgent_init a) games in
    SnakeSweep.steps_in_panic ag' = Z.of_nat (MoreSpec.count_true flags) /\
    Z.of_nat (length (Snake.panic_history (SnakeSweep.base ag')))
    <= SnakeSweep.steps_in_panic ag'
    <= Z.of_nat (length games).
Proof.
  intros risk_f a games ag' Hrun flags.
  pose proof (sweep_run_steps_in_panic risk_f games _ _ Hrun) as Hs.
  pose proof (sweep_run_history risk_f games _ _ Hrun) as Hh.
  pose proof (sweep_run_flags_length risk_f games _ _ Hrun) as Hl.
  fold flags in Hs, Hh, Hl.
  cbn [SnakeSweep.SweepAgent_init SnakeSweep.steps_in_panic SnakeSweep.base
       Snake.BaseAgent_init Snake.panic_history Snake.in_panic length] in Hs, Hh.
  pose proof (entries_le_count_true flags false) as He.
  pose proof (count_true_le_length flags) as Hc.
  split; [lia |]. lia.
Qed.

Lemma steps_in_panic_counts_panic_calls_witness :
  let game body t :=
    {| Snake.snake := body; Snake.food := (3, 1); Snake.w := 4; Snake.h := 2;
       Snake.steps_since_food := t - 18; Snake.steps_total := t |} in
  let games :=
    [game [(1, 1); (2, 1); (2, 0); (3, 0)] 30;
     game [(1, 0); (1, 1); (2, 1); (2, 0)] 31;
     game [(0, 0); (1, 0); (1, 1); (2, 1)] 32;
     game [(0, 1); (0, 0); (1, 0); (1, 1)] 33] in
  let risk_f : risk_oracle :=
    fun body _ _ => if pos_eqb (hd (0, 0) body) (0, 0) then 0.25%float
                    else 0.75%float in
  let ag' :=
    {| SnakeSweep.base :=
         {| Snake.is_coase := true; Snake.panic_history := [30; 33];
            Snake.in_panic := true |};
       SnakeSweep.alpha := 0.5%float;
       SnakeSweep.steps_in_panic := 3 |} in
  SnakeSweep.run_agent risk_f (SnakeSweep.SweepAgent_init 0.5%float) games
  = Some ag' /\
  PanicSpec.sweep_flags risk_f (SnakeSweep.SweepAgent_init 0.5%float) games
  = [true; true; false; true] /\
  SnakeSweep.steps_in_panic ag'
  = Z.of_nat (MoreSpec.count_true
                (PanicSpec.sweep_flags risk_f
                   (SnakeSweep.SweepAgent_init 0.5%float) games)) /\
  Z.of_nat (length (Snake.panic_history (SnakeSweep.base ag')))
  <= SnakeSweep.steps_in_panic ag' <= Z.of_nat (length games).
Proof.
  intros game games risk_f ag'.
  assert (E : SnakeSweep.run_agent risk_f
                (SnakeSweep.SweepAgent_init 0.5%float) games = Some ag')
    by (vm_compute; reflexivity).
  split; [exact E |]. split; [vm_compute; reflexivity |].
  exact (steps_in_panic_counts_panic_calls risk_f 0.5%float games ag' E).
Defined.

(** ** Vacuum-X v0.3: the mode machine *)

Lemma vacuum_rescue_update_keeps ag t d_t :
  VacuumX.mon (VacuumX.rescue_update ag t d_t) = VacuumX.mon ag /\
  VacuumX.mode (VacuumX.rescue_update ag t d_t) = VacuumX.mode ag /\
  VacuumX.escape_timer (VacuumX.rescue_update ag t d_t)
  = VacuumX.escape_timer ag /\
  VacuumX.cooldown (VacuumX.rescue_update ag t d_t) = VacuumX.cooldown ag.
Proof.
  unfold VacuumX.rescue_update.
  destruct (VacuumX.pending_rescue ag) as [[t0 r0] |];
    [destruct (VacuumX.RESCUE_WINDOW <=? t - t0) |];
    repeat split; reflexivity.
Qed.

(** What one call of [mode_update] does to the mode, the two timers and
    the action. *)
Lemma vacuum_mode_update_machine ag t o panic_th bat_th :
  let r := VacuumX.mode_update ag t o panic_th bat_th in
  let ag' := snd r in
  let cd1 := if 0 <? VacuumX.cooldown ag then VacuumX.cooldown ag - 1
             else VacuumX.cooldown ag in
  let low :=
    Qlt_bool (inject_Z (VacuumX.battery (VacuumX.o_world o))) bat_th in
  VacuumX.mon ag' = VacuumX.mon ag /\
  match VacuumX.mode ag with
  | VacuumX.SURVIVAL =>
      VacuumX.mode ag' = VacuumX.SURVIVAL /\
      fst r = VacuumX.o_greedy o /\
      VacuumX.escape_timer ag' = VacuumX.escape_timer ag /\
      VacuumX.cooldown ag' = cd1
  | VacuumX.ESCAPE =>
      VacuumX.cooldown ag' = cd1 /\
      if VacuumX.escape_timer ag <=? 0 then
        VacuumX.mode ag' = VacuumX.NORMAL /\
        VacuumX.escape_timer ag' = VacuumX.escape_timer ag
      else if low then
        VacuumX.mode ag' = VacuumX.SURVIVAL /\
        VacuumX.escape_timer ag' = VacuumX.escape_timer ag
      else
        VacuumX.mode ag' = VacuumX.ESCAPE /\
        VacuumX.escape_timer ag' = VacuumX.escape_timer ag - 1
  | VacuumX.NORMAL =>
      if low then
        VacuumX.mode ag' = VacuumX.SURVIVAL /\
        VacuumX.escape_timer ag' = VacuumX.escape_timer ag /\
        VacuumX.cooldown ag' = cd1
      else if (cd1 =? 0) && Qle_bool panic_th (VacuumX.o_dt o) then
        VacuumX.mode ag' = VacuumX.ESCAPE /\
        VacuumX.escape_timer ag' = VacuumX.ESCAPE_STEPS - 1 /\
        VacuumX.cooldown ag' = VacuumX.COOLDOWN_STEPS
      else
        VacuumX.mode ag' = VacuumX.NORMAL /\
        VacuumX.escape_timer ag' = VacuumX.escape_timer ag /\
        VacuumX.cooldown ag' = cd1
  end.
Proof.
  destruct ag as [m md et cd pr pe ps rde rds].
  unfold VacuumX.mode_update. cbv zeta.
  cbn [fst snd VacuumX.mon VacuumX.mode VacuumX.cooldown VacuumX.escape_timer
       VacuumX.pending_rescue VacuumX.panic_events VacuumX.panic_saved
       VacuumX.risk_drop_events VacuumX.risk_drop_success].
  split; [reflexivity |].
  destruct (Qlt_bool (inject_Z (VacuumX.battery (VacuumX.o_world o))) bat_th);
    destruct md; cbn [VacuumX.Mode_eqb andb];
    try (destruct ((if 0 <? cd then cd - 1 else cd) =? 0);
         destruct (Qle_bool panic_th (VacuumX.o_dt o)));
    cbn [VacuumX.Mode_eqb andb];
    try (destruct (et <=? 0));
    cbn [fst snd VacuumX.mon VacuumX.mode VacuumX.cooldown
         VacuumX.escape_timer VacuumX.Mode_eqb andb];
    repeat split; reflexivity.
Qed.

(** The same for [act], whose thresholds come from the monitor. *)
Lemma vacuum_act_machine ag t o :
  let r := VacuumX.act ag t o in
  let ag' := snd r in
  let m := VacuumX.LPIMonitor_update (VacuumX.mon ag) (VacuumX.o_dt o)
             (pos_eqb (VacuumX.pos (VacuumX.o_world o))
                      (VacuumX.dock (VacuumX.o_world o))) in
  let panic_th :=
    VacuumX.panic_threshold (VacuumX.mon_lpi m)
      (VacuumX.battery (VacuumX.o_world o)) in
  let bat_th := VacuumX.battery_threshold (VacuumX.mon_lpi m) in
  let cd1 := if 0 <? VacuumX.cooldown ag then VacuumX.cooldown ag - 1
             else VacuumX.cooldown ag in
  let low :=
    Qlt_bool (inject_Z (VacuumX.battery (VacuumX.o_world o))) bat_th in
  VacuumX.mon ag' = m /\
  match VacuumX.mode ag with
  | VacuumX.SURVIVAL =>
      VacuumX.mode ag' = VacuumX.SURVIVAL /\
      fst r = VacuumX.o_greedy o /\
      VacuumX.escape_timer ag' = VacuumX.escape_timer ag /\
      VacuumX.cooldown ag' = cd1
  | VacuumX.ESCAPE =>
      VacuumX.cooldown ag' = cd1 /\
      if VacuumX.escape_timer ag <=? 0 then
        VacuumX.mode ag' = VacuumX.NORMAL /\
        VacuumX.escape_timer ag' = VacuumX.escape_timer ag
      else if low then
        VacuumX.mode ag' = VacuumX.SURVIVAL /\
        VacuumX.escape_timer ag' = VacuumX.escape_timer ag
      else
        VacuumX.mode ag' = VacuumX.ESCAPE /\
        VacuumX.escape_timer ag' = VacuumX.escape_timer ag - 1
  | VacuumX.NORMAL =>
      if low then
        VacuumX.mode ag' = VacuumX.SURVIVAL /\
        VacuumX.escape_timer ag' = VacuumX.escape_timer ag /\
        VacuumX.cooldown ag' = cd1
      else if (cd1 =? 0) && Qle_bool panic_th (VacuumX.o_dt o) then
        VacuumX.mode ag' = VacuumX.ESCAPE /\
        VacuumX.escape_timer ag' = VacuumX.ESCAPE_STEPS - 1 /\
        VacuumX.cooldown ag' = VacuumX.COOLDOWN_STEPS
      else
        VacuumX.mode ag' = VacuumX.NORMAL /\
        VacuumX.escape_timer ag' = VacuumX.escape_timer ag /\
        VacuumX.cooldown ag' = cd1
  end.
Proof.
  unfold VacuumX.act, VacuumX._dynamic_thresholds. cbv zeta.
  match goal with
  | |- context [VacuumX.mode_update (VacuumX.rescue_update ?a t ?d) t o ?p ?b] =>
      pose proof (vacuum_mode_update_machine
                    (VacuumX.rescue_update a t d) t o p b) as Hm;
      destruct (vacuum_rescue_update_keeps a t d) as [K1 [K2 [K3 K4]]]
  end.
  cbv zeta in Hm. rewrite K1, K2, K3, K4 in Hm.
  cbn [VacuumX.mon VacuumX.mode VacuumX.cooldown VacuumX.escape_timer] in Hm.
  exact Hm.
Qed.

Lemma vacuum_at_le_length obs i :
  (length obs <= i)%nat -> PanicSpec.vacuum_at obs i = VacuumX.run_single obs.
Proof.
  intros Hi. unfold PanicSpec.vacuum_at. rewrite firstn_all2 by lia.
  reflexivity.
Qed.

Lemma vacuum_survival_step ag t o :
  VacuumX.mode ag = VacuumX.SURVIVAL ->
  VacuumX.mode (snd (VacuumX.act ag t o)) = VacuumX.SURVIVAL /\
  VacuumX.panic_events (snd (VacuumX.act ag t o)) = VacuumX.panic_events ag /\
  fst (VacuumX.act ag t o) = VacuumX.o_greedy o.
Proof.
  intros Hm.
  destruct (vacuum_act_machine ag t o) as [_ Hmach].
  destruct (vacuum_act_step ag t o) as [Hpe _].
  cbv zeta in Hmach, Hpe. rewrite Hm in Hmach, Hpe.
  destruct Hmach as [H1 [H2 _]].
  cbn [VacuumX.Mode_eqb andb] in Hpe.
  split; [exact H1 |]. split; [lia | exact H2].
Qed.

(** X11: in Vacuum-X v0.3 SURVIVAL is absorbing.  Once a call of [act]
    leaves the agent in SURVIVAL mode, every later call of the run does,
    whatever the battery (a recharge at the dock included); each of them
    returns the homing action, and no further panic episode is counted. *)
Theorem vacuum_survival_is_absorbing :
  forall obs i j,
    (i <= j)%nat ->
    VacuumX.mode (PanicSpec.vacuum_at obs i) = VacuumX.SURVIVAL ->
    VacuumX.mode (PanicSpec.vacuum_at obs j) = VacuumX.SURVIVAL /\
    VacuumX.panic_events (PanicSpec.vacuum_at obs j)
    = VacuumX.panic_events (PanicSpec.vacuum_at obs i) /\
    (forall o, nth_error obs j = Some o ->
       fst (VacuumX.act (PanicSpec.vacuum_at obs j) (Z.of_nat j) o)
       = VacuumX.o_greedy o).
Proof.
  intros obs i j Hij Hi.
  assert (Hj : VacuumX.mode (PanicSpec.vacuum_at obs j) = VacuumX.SURVIVAL /\
               VacuumX.panic_events (PanicSpec.vacuum_at obs j)
               = VacuumX.panic_events (PanicSpec.vacuum_at obs i)).
  { induction Hij as [| j Hij IH]; [split; [exact Hi | reflexivity] |].
    destruct IH as [IH1 IH2].
    destruct (le_lt_dec (length obs) j) as [Hle | Hlt].
    - rewrite (vacuum_at_beyond obs j Hle). split; assumption.
    - destruct (nth_error_lt obs j Hlt) as [o E].
      rewrite (vacuum_at_S obs j o E).
      destruct (vacuum_survival_step (PanicSpec.vacuum_at obs j)
                  (Z.of_nat j) o IH1) as [S1 [S2 _]].
      split; [exact S1 | congruence]. }
  destruct Hj as [Hj1 Hj2]. split; [exact Hj1 |]. split; [exact Hj2 |].
  intros o _.
  apply (vacuum_survival_step (PanicSpec.vacuum_at obs j) (Z.of_nat j) o Hj1).
Qed.

Lemma vacuum_survival_is_absorbing_witness :
  let world b :=
    {| VacuumX.w := 12; VacuumX.h := 12; VacuumX.grid := PanicSpec.pocket_grid;
       VacuumX.dock := (0, 0); VacuumX.pos := (0, 0);
       VacuumX.battery := b; VacuumX.steps := 0 |} in
  let o b :=
    {| VacuumX.o_dt := 0; VacuumX.o_world := world b;
       VacuumX.o_random := VacuumX.UP; VacuumX.o_greedy := VacuumX.LEFT |} in
  let obs := [o 10; o 60; o 60] in
  (1 <= 3)%nat /\
  VacuumX.mode (PanicSpec.vacuum_at obs 1) = VacuumX.SURVIVAL /\
  VacuumX.mode (PanicSpec.vacuum_at obs 3) = VacuumX.SURVIVAL.
Proof.
  intros world o obs.
  assert (H1 : (1 <= 3)%nat) by lia.
  assert (H2 : VacuumX.mode (PanicSpec.vacuum_at obs 1) = VacuumX.SURVIVAL)
    by (vm_compute; reflexivity).
  split; [exact H1 |]. split; [exact H2 |].
  exact (proj1 (vacuum_survival_is_absorbing obs 1%nat 3%nat H1 H2)).
Defined.

(** A call starts an episode exactly when it triggers ESCAPE. *)
Lemma vacuum_started_trigger obs i :
  PanicSpec.vacuum_started obs i ->
  VacuumX.mode (PanicSpec.vacuum_at obs i) = VacuumX.NORMAL /\
  VacuumX.cooldown (PanicSpec.vacuum_at obs i) <= 1 /\
  VacuumX.mode (PanicSpec.vacuum_at obs (S i)) = VacuumX.ESCAPE /\
  VacuumX.escape_timer (PanicSpec.vacuum_at obs (S i))
  = VacuumX.ESCAPE_STEPS - 1 /\
  VacuumX.cooldown (PanicSpec.vacuum_at obs (S i)) = VacuumX.COOLDOWN_STEPS.
Proof.
  intros Hs. pose proof (vacuum_started_in_run obs i Hs) as Hlt.
  destruct (nth_error_lt obs i Hlt) as [o E].
  unfold PanicSpec.vacuum_started in Hs.
  rewrite (vacuum_at_S obs i o E) in *.
  destruct (vacuum_act_step (PanicSpec.vacuum_at obs i) (Z.of_nat i) o)
    as [Hpe _].
  destruct (vacuum_act_machine (PanicSpec.vacuum_at obs i) (Z.of_nat i) o)
    as [_ Hmach].
  cbv zeta in Hpe, Hmach. rewrite Hpe in Hs. apply bump_iff in Hs.
  apply andb_true_iff in Hs. destruct Hs as [Hn He].
  destruct (VacuumX.mode (PanicSpec.vacuum_at obs i)); try discriminate.
  destruct (Qlt_bool _ _);
    [destruct Hmach as [Hm _]; rewrite Hm in He; discriminate |].
  destruct (((if 0 <? VacuumX.cooldown (PanicSpec.vacuum_at obs i)
              then VacuumX.cooldown (PanicSpec.vacuum_at obs i) - 1
              else VacuumX.cooldown (PanicSpec.vacuum_at obs i)) =? 0)
            && Qle_bool _ _) eqn:Et;
    [| destruct Hmach as [Hm _]; rewrite Hm in He; discriminate].
  destruct Hmach as [Hm [Ht Hc]].
  apply andb_true_iff in Et. destruct Et as [Et _]. apply Z.eqb_eq in Et.
  split; [reflexivity |]. split; [| auto].
  destruct (0 <? VacuumX.cooldown (PanicSpec.vacuum_at obs i)) eqn:E0; lia.
Qed.

Lemma vacuum_cooldown_decay obs i :
  VacuumX.cooldown (PanicSpec.vacuum_at obs i) - 1
  <= VacuumX.cooldown (PanicSpec.vacuum_at obs (S i)).
Proof.
  destruct (le_lt_dec (length obs) i) as [Hle | Hlt].
  - rewrite (vacuum_at_beyond obs i Hle). lia.
  - destruct (nth_error_lt obs i Hlt) as [o E].
    rewrite (vacuum_at_S obs i o E).
    destruct (vacuum_act_machine (PanicSpec.vacuum_at obs i) (Z.of_nat i) o)
      as [_ Hmach].
    cbv zeta in Hmach.
    set (cd := VacuumX.cooldown (PanicSpec.vacuum_at obs i)) in *.
    assert (Hcd1 : cd - 1 <= (if 0 <? cd then cd - 1 else cd))
      by (destruct (0 <? cd); lia).
    destruct (VacuumX.mode (PanicSpec.vacuum_at obs i)).
    + destruct (Qlt_bool _ _); [destruct Hmach as [_ [_ Hc]]; lia |].
      destruct (((if 0 <? cd then cd - 1 else cd) =? 0) && Qle_bool _ _)
        eqn:Et.
      * destruct Hmach as [_ [_ Hc]]. rewrite Hc.
        apply andb_true_iff in Et. destruct Et as [Et _].
        apply Z.eqb_eq in Et. unfold VacuumX.COOLDOWN_STEPS. lia.
      * destruct Hmach as [_ [_ Hc]]. lia.
    + destruct Hmach as [Hc _]. lia.
    + destruct Hmach as [_ [_ [_ Hc]]]. lia.
Qed.

(** X12: two panic episodes of a run of Vacuum-X v0.3 start at least
    [COOLDOWN_STEPS] calls apart: the cooldown set when an episode starts
    falls by one per call and must have run out before the next trigger. *)
Theorem vacuum_episodes_cooldown_apart :
  forall obs i j,
    PanicSpec.vacuum_started obs i ->
    PanicSpec.vacuum_started obs j ->
    (i < j)%nat ->
    Z.of_nat i + VacuumX.COOLDOWN_STEPS <= Z.of_nat j.
Proof.
  intros obs i j Hi Hj Hlt.
  destruct (vacuum_started_trigger obs i Hi) as [_ [_ [_ [_ Hc]]]].
  destruct (vacuum_started_trigger obs j Hj) as [_ [Hcj _]].
  assert (Hd : forall k,
             VacuumX.COOLDOWN_STEPS - Z.of_nat k
             <= VacuumX.cooldown (PanicSpec.vacuum_at obs (S i + k))).
  { induction k as [| k IH].
    - rewrite Nat.add_0_r, Hc. lia.
    - pose proof (vacuum_cooldown_decay obs (S i + k)) as Hdec.
      replace (S i + S k)%nat with (S (S i + k)) by lia. lia. }
  specialize (Hd (j - S i)%nat).
  replace (S i + (j - S i))%nat with j in Hd by lia.
  unfold VacuumX.COOLDOWN_STEPS in *. lia.
Qed.

Lemma vacuum_episodes_cooldown_apart_witness :
  PanicSpec.vacuum_started PanicSpec.pocket_run 9 /\
  PanicSpec.vacuum_started PanicSpec.pocket_run 15 /\
  Z.of_nat 9 + VacuumX.COOLDOWN_STEPS <= Z.of_nat 15.
Proof.
  assert (H1 : PanicSpec.vacuum_started PanicSpec.pocket_run 9)
    by (vm_compute; reflexivity).
  assert (H2 : PanicSpec.vacuum_started PanicSpec.pocket_run 15)
    by (vm_compute; reflexivity).
  split; [exact H1 |]. split; [exact H2 |].
  exact (vacuum_episodes_cooldown_apart PanicSpec.pocket_run 9%nat 15%nat
           H1 H2 ltac:(lia)).
Defined.

Lemma vacuum_burst_state obs i :
  PanicSpec.vacuum_started obs i ->
  forall k, (k < 4)%nat -> (i + k < length obs)%nat ->
    (VacuumX.mode (PanicSpec.vacuum_at obs (S (i + k))) = VacuumX.ESCAPE /\
     VacuumX.escape_timer (PanicSpec.vacuum_at obs (S (i + k)))
     = VacuumX.ESCAPE_STEPS - 1 - Z.of_nat k) \/
    VacuumX.mode (PanicSpec.vacuum_at obs (S (i + k))) = VacuumX.SURVIVAL.
Proof.
  intros Hs.
  destruct (vacuum_started_trigger obs i Hs) as [_ [_ [Hm [Ht _]]]].
  induction k as [| k IH]; intros Hk Hlen.
  - rewrite Nat.add_0_r. left. split; [exact Hm | rewrite Ht; lia].
  - specialize (IH ltac:(lia) ltac:(lia)).
    replace (i + S k)%nat with (S (i + k)) in * by lia.
    destruct (nth_error_lt obs (S (i + k)) Hlen) as [o E].
    rewrite (vacuum_at_S obs (S (i + k)) o E).
    destruct (vacuum_act_machine (PanicSpec.vacuum_at obs (S (i + k)))
                (Z.of_nat (S (i + k))) o) as [_ Hmach].
    cbv zeta in Hmach.
    destruct IH as [[IHm IHt] | IHm]; rewrite IHm in Hmach.
    + destruct Hmach as [_ Hmach]. rewrite IHt in Hmach.
      unfold VacuumX.ESCAPE_STEPS in *.
      destruct (4 - 1 - Z.of_nat k <=? 0) eqn:E0;
        [apply Z.leb_le in E0; lia |].
      destruct (Qlt_bool _ _); destruct Hmach as [M1 M2];
        [right; exact M1 | left; split; [exact M1 | lia]].
    + right. apply Hmach.
Qed.

(** X13: an escape burst lasts at most [ESCAPE_STEPS] calls.  During the
    [ESCAPE_STEPS] calls that begin with the one starting an episode the
    agent is left in ESCAPE mode, or in SURVIVAL once the battery has
    interrupted the burst; the call after them never leaves it in ESCAPE
    mode. *)
Theorem vacuum_escape_burst_length :
  forall obs i,
    PanicSpec.vacuum_started obs i ->
    (forall k, Z.of_nat k < VacuumX.ESCAPE_STEPS ->
       (i + k < length obs)%nat ->
       VacuumX.mode (PanicSpec.vacuum_at obs (S (i + k))) = VacuumX.ESCAPE \/
       VacuumX.mode (PanicSpec.vacuum_at obs (S (i + k))) = VacuumX.SURVIVAL) /\
    ((i + 4 < length obs)%nat ->
     VacuumX.mode (PanicSpec.vacuum_at obs (S (i + 4))) <> VacuumX.ESCAPE).
Proof.
  intros obs i Hs. split.
  - intros k Hk Hlen. unfold VacuumX.ESCAPE_STEPS in Hk.
    destruct (vacuum_burst_state obs i Hs k ltac:(lia) Hlen) as [[H _] | H];
      auto.
  - intros Hlen.
    pose proof (vacuum_burst_state obs i Hs 3 ltac:(lia) ltac:(lia)) as H3.
    replace (i + 4)%nat with (S (i + 3)) in * by lia.
    destruct (nth_error_lt obs (S (i + 3)) Hlen) as [o E].
    rewrite (vacuum_at_S obs (S (i + 3)) o E).
    destruct (vacuum_act_machine (PanicSpec.vacuum_at obs (S (i + 3)))
                (Z.of_nat (S (i + 3))) o) as [_ Hmach].
    cbv zeta in Hmach.
    destruct H3 as [[IHm IHt] | IHm]; rewrite IHm in Hmach.
    + destruct Hmach as [_ Hmach]. rewrite IHt in Hmach.
      unfold VacuumX.ESCAPE_STEPS in Hmach.
      change (4 - 1 - Z.of_nat 3 <=? 0) with true in Hmach.
      destruct Hmach as [M1 _]. rewrite M1. discriminate.
    + destruct Hmach as [M1 _]. rewrite M1. discriminate.
Qed.

Lemma vacuum_escape_burst_length_witness :
  PanicSpec.vacuum_started PanicSpec.pocket_run 9 /\
  VacuumX.mode (PanicSpec.vacuum_at PanicSpec.pocket_run (S (9 + 4)))
  <> VacuumX.ESCAPE.
Proof.
  assert (H1 : PanicSpec.vacuum_started PanicSpec.pocket_run 9)
    by (vm_compute; reflexivity).
  split; [exact H1 |].
  apply (proj2 (vacuum_escape_burst_length PanicSpec.pocket_run 9%nat H1)).
  apply Nat.ltb_lt. vm_compute. reflexivity.
Defined.

(** ** The accounting of the two Vacuum-X agents *)

Lemma vacuum_accounting_step ag t o :
  let inv := fun ag =>
    0 <= VacuumX.risk_drop_success ag <= VacuumX.risk_drop_events ag /\
    VacuumX.risk_drop_events ag = VacuumX.panic_saved ag /\
    VacuumX.panic_saved ag
    + (match VacuumX.pending_rescue ag with Some _ => 1 | None => 0 end)
    <= VacuumX.panic_events ag in
  inv ag -> inv (snd (VacuumX.act ag t o)).
Proof.
  cbv zeta. intros [H1 [H2 H3]].
  destruct (vacuum_act_step ag t o) as [S1 [S2 [S3 [S4 S5]]]].
  cbv zeta in S1, S2, S3, S4, S5. rewrite S1, S2, S3, S4, S5.
  destruct (VacuumX.pending_rescue ag) as [[t0 r0] |];
    [destruct (VacuumX.RESCUE_WINDOW <=? t - t0);
     destruct (Qlt_bool (VacuumX.o_dt o) (r0 - (15 # 100))) |];
    destruct (VacuumX.Mode_eqb (VacuumX.mode ag) VacuumX.NORMAL
              && VacuumX.Mode_eqb
                   (VacuumX.mode (snd (VacuumX.act ag t o))) VacuumX.ESCAPE);
    cbn [andb]; repeat split; lia.
Qed.

Lemma vacuum_accounting_run obs :
  forall t ag,
    0 <= VacuumX.risk_drop_success ag <= VacuumX.risk_drop_events ag /\
    VacuumX.risk_drop_events ag = VacuumX.panic_saved ag /\
    VacuumX.panic_saved ag
    + (match VacuumX.pending_rescue ag with Some _ => 1 | None => 0 end)
    <= VacuumX.panic_events ag ->
    0 <= VacuumX.risk_drop_success (VacuumX.run_from t ag obs)
    <= VacuumX.risk_drop_events (VacuumX.run_from t ag obs) /\
    VacuumX.risk_drop_events (VacuumX.run_from t ag obs)
    = VacuumX.panic_saved (VacuumX.run_from t ag obs) /\
    VacuumX.panic_saved (VacuumX.run_from t ag obs)
    + (match VacuumX.pending_rescue (VacuumX.run_from t ag obs) with
       | Some _ => 1 | None => 0 end)
    <= VacuumX.panic_events (VacuumX.run_from t ag obs).
Proof.
  induction obs as [| o rest IH]; intros t ag H0;
    cbn [VacuumX.run_from]; [exact H0 |].
  apply IH. apply (vacuum_accounting_step ag t o H0).
Qed.

Lemma rate_range num den :
  0 <= num <= den ->
  (0 <= VacuumEnv.rate num den)%Q /\ (VacuumEnv.rate num den <= 1)%Q.
Proof.
  intros [H0 H1]. unfold VacuumEnv.rate.
  destruct (0 <? den) eqn:E; [| split; discriminate].
  apply Z.ltb_lt in E.
  assert (Hd : (0 < inject_Z den)%Q) by (rewrite <- (Zlt_Qlt 0); exact E).
  split.
  - apply Qle_shift_div_l; [exact Hd |]. rewrite Qmult_0_l.
    apply inject_Z_nonneg. exact H0.
  - apply Qle_shift_div_r; [exact Hd |]. rewrite Qmult_1_l.
    rewrite <- Zle_Qle. exact H1.
Qed.

(** X14: the counters of Vacuum-X v0.3 after any run.  Every evaluated
    rescue is counted as saved, so [panic_saved] equals
    [risk_drop_events]; risk drops are at most the evaluations and the
    evaluations at most the episodes, one episode at most being still
    pending; hence both rates of [summarize] lie in [0, 1]. *)
Theorem vacuum_counters_consistent :
  forall obs,
    let ag := VacuumX.run_single obs in
    VacuumX.panic_saved ag = VacuumX.risk_drop_events ag /\
    0 <= VacuumX.risk_drop_success ag <= VacuumX.risk_drop_events ag /\
    VacuumX.panic_saved ag
    + (match VacuumX.pending_rescue ag with Some _ => 1 | None => 0 end)
    <= VacuumX.panic_events ag /\
    (0 <= VacuumEnv.rate (VacuumX.panic_saved ag) (VacuumX.panic_events ag)
     <= 1)%Q /\
    (0 <= VacuumEnv.rate (VacuumX.risk_drop_success ag)
            (VacuumX.risk_drop_events ag)
     <= 1)%Q.
Proof.
  intros obs ag.
  assert (Hinv :
            0 <= VacuumX.risk_drop_success ag <= VacuumX.risk_drop_events ag /\
            VacuumX.risk_drop_events ag = VacuumX.panic_saved ag /\
            VacuumX.panic_saved ag
            + (match VacuumX.pending_rescue ag with
               | Some _ => 1 | None => 0 end)
            <= VacuumX.panic_events ag).
  { subst ag. unfold VacuumX.run_single.
    apply vacuum_accounting_run. cbn. lia. }
  destruct Hinv as [H1 [H2 H3]].
  assert (Hp : 0 <= (match VacuumX.pending_rescue ag with
                     | Some _ => 1 | None => 0 end))
    by (destruct (VacuumX.pending_rescue ag); lia).
  split; [congruence |]. split; [exact H1 |]. split; [exact H3 |].
  split; apply rate_range; lia.
Qed.

Lemma frontier_accounting_step ag o :
  let inv := fun ag =>
    0 <= Frontier.panic_saved ag /\
    Frontier.panic_saved ag
    + (match Frontier.last_panic_step ag with Some _ => 1 | None => 0 end)
    <= Frontier.panic_events ag in
  inv ag -> inv (snd (Frontier.choose ag o)).
Proof.
  cbv zeta. intros [H1 H2].
  destruct (frontier_choose_step ag o) as [_ [S1 [S2 S3]]].
  cbv zeta in S1, S2, S3. rewrite S1, S2, S3.
  destruct (negb (Frontier.Mode_eqb (Frontier.mode ag) Frontier.PANIC)
            && Frontier.Mode_eqb
                 (Frontier.mode (snd (Frontier.choose ag o))) Frontier.PANIC);
    [| destruct (Frontier.last_panic_step ag) as [s |]];
    try destruct (_ =? Frontier.RESCUE_WINDOW);
    destruct (Frontier.last_panic_step ag);
    destruct (Frontier.done (Frontier.o_world o));
    cbn [andb negb]; split; lia.
Qed.

Lemma save_rate_range saved panic :
  0 <= saved <= panic ->
  (0 <= FrontierEnv.save_rate saved panic)%Q /\
  (FrontierEnv.save_rate saved panic <= 1)%Q.
Proof.
  intros [H0 H1]. unfold FrontierEnv.save_rate.
  assert (Hd : (0 < inject_Z (Z.max 1 panic))%Q)
    by (rewrite <- (Zlt_Qlt 0); lia).
  split.
  - apply Qle_shift_div_l; [exact Hd |]. rewrite Qmult_0_l.
    apply inject_Z_nonneg. exact H0.
  - apply Qle_shift_div_r; [exact Hd |]. rewrite Qmult_1_l.
    rewrite <- Zle_Qle. lia.
Qed.

(** X15: the counters of the Coase frontier agent after any sequence of
    calls of [choose] from its initial state: [panic_saved] is at least 0
    and at most [panic_events], one episode at most still waiting for its
    window; so the save rate of a run lies in [0, 1]. *)
Theorem frontier_counters_consistent :
  forall a obs,
    let ag := Frontier.run_from (Frontier.CoaseAgent_init a) obs in
    0 <= Frontier.panic_saved ag /\
    Frontier.panic_saved ag
    + (match Frontier.last_panic_step ag with Some _ => 1 | None => 0 end)
    <= Frontier.panic_events ag /\
    (0 <= FrontierEnv.save_rate (Frontier.panic_saved ag)
            (Frontier.panic_events ag)
     <= 1)%Q.
Proof.
  intros a obs ag.
  assert (Hinv :
            0 <= Frontier.panic_saved ag /\
            Frontier.panic_saved ag
            + (match Frontier.last_panic_step ag with
               | Some _ => 1 | None => 0 end)
            <= Frontier.panic_events ag).
  { subst ag.
    assert (H0 :
              0 <= Frontier.panic_saved (Frontier.CoaseAgent_init a) /\
              Frontier.panic_saved (Frontier.CoaseAgent_init a)
              + (match Frontier.last_panic_step (Frontier.CoaseAgent_init a)
                 with Some _ => 1 | None => 0 end)
              <= Frontier.panic_events (Frontier.CoaseAgent_init a))
      by (cbn; lia).
    revert H0. generalize (Frontier.CoaseAgent_init a).
    induction obs as [| o rest IH]; intros ag0 H0;
      cbn [Frontier.run_from]; [exact H0 |].
    apply IH. apply (frontier_accounting_step ag0 o H0). }
  destruct Hinv as [H1 H2].
  assert (Hp : 0 <= (match Frontier.last_panic_step ag with
                     | Some _ => 1 | None => 0 end))
    by (destruct (Frontier.last_panic_step ag); lia).
  split; [exact H1 |]. split; [exact H2 |].
  apply save_rate_range. lia.
Qed.

(** ** Vacuum-X v0.3: the stress monitor and the thresholds in a run *)

Lemma vacuum_panic_range svd window hist :
  (0 <= VacuumX.panic svd window hist)%Q /\
  (VacuumX.panic svd window hist <= 1)%Q.
Proof.
  unfold VacuumX.panic.
  destruct (length hist <? window)%nat; [split; discriminate |].
  destruct (svd (centre hist)) as [[| s0 [| s1 s]] |];
    try (split; discriminate).
  apply clip_bounds. discriminate.
Qed.

Lemma vacuum_monitor_step m d_t is_safe :
  (0 <= VacuumX.mon_H m)%Q /\ (VacuumX.mon_H m <= 1)%Q ->
  (0 <= VacuumX.mon_lpi m)%Q /\ (VacuumX.mon_lpi m <= 82 # 1000)%Q ->
  (0 <= d_t)%Q /\ (d_t <= 1)%Q ->
  let m' := VacuumX.LPIMonitor_update m d_t is_safe in
  ((0 <= VacuumX.mon_H m')%Q /\ (VacuumX.mon_H m' <= 1)%Q) /\
  ((0 <= VacuumX.mon_lpi m')%Q /\ (VacuumX.mon_lpi m' <= 82 # 1000)%Q).
Proof.
  intros [H0 H1] [L0 L1] [D0 D1]. destruct m as [Hm l].
  cbn [VacuumX.mon_H VacuumX.mon_lpi] in *.
  unfold VacuumX.LPIMonitor_update. cbv zeta.
  cbn [VacuumX.mon_H VacuumX.mon_lpi]. rewrite !Qred_correct.
  unfold VacuumX.STEP_DECAY, VacuumX.COLLAPSE_DECAY, VacuumX.RECOVERY_GAIN,
    VacuumX.DAMAGE_GAIN, VacuumX.LPI_RHO.
  set (dl := if is_safe then (- (1 # 1000) - (4 # 100) * d_t + (6 # 100))%Q
             else (- (1 # 1000) - (4 # 100) * d_t)%Q).
  assert (Hdl : (- (41 # 1000) <= dl)%Q) by (subst dl; destruct is_safe; lra).
  split; [apply clip_bounds; discriminate |].
  unfold clip.
  destruct (Q.max_spec (Hm + dl) 0) as [[A1 A2] | [A1 A2]];
    destruct (Q.min_spec (Qmax (Hm + dl) 0) 1) as [[B1 B2] | [B1 B2]];
    destruct (Q.max_spec 0 (Hm - Qmin (Qmax (Hm + dl) 0) 1))
      as [[C1 C2] | [C1 C2]];
    rewrite C2; rewrite ?B2, ?A2 in *; split; lra.
Qed.

Lemma vacuum_monitor_run obs :
  Forall (fun o => (0 <= VacuumX.o_dt o)%Q /\ (VacuumX.o_dt o <= 1)%Q) obs ->
  forall i,
    ((0 <= VacuumX.mon_H (VacuumX.mon (PanicSpec.vacuum_at obs i)))%Q /\
     (VacuumX.mon_H (VacuumX.mon (PanicSpec.vacuum_at obs i)) <= 1)%Q) /\
    ((0 <= VacuumX.mon_lpi (VacuumX.mon (PanicSpec.vacuum_at obs i)))%Q /\
     (VacuumX.mon_lpi (VacuumX.mon (PanicSpec.vacuum_at obs i))
      <= 82 # 1000)%Q).
Proof.
  intros Hall. induction i as [| i IH].
  - unfold PanicSpec.vacuum_at. cbn. repeat split; discriminate.
  - destruct (le_lt_dec (length obs) i) as [Hle | Hlt].
    + rewrite (vacuum_at_beyond obs i Hle). exact IH.
    + destruct (nth_error_lt obs i Hlt) as [o E].
      rewrite (vacuum_at_S obs i o E).
      destruct (vacuum_act_machine (PanicSpec.vacuum_at obs i) (Z.of_nat i) o)
        as [Hmon _].
      cbv zeta in Hmon. rewrite Hmon.
      destruct IH as [IH1 IH2].
      apply vacuum_monitor_step; [exact IH1 | exact IH2 |].
      rewrite Forall_forall in Hall. apply Hall.
      apply nth_error_In with i. exact E.
Qed.

Lemma vacuum_thresholds_unclamped lpi battery :
  (0 <= lpi)%Q /\ (lpi <= 82 # 1000)%Q ->
  0 <= battery <= VacuumX.BATTERY_MAX ->
  (VacuumX.panic_threshold lpi battery
   == VacuumX.PANIC_TH_BASE - lpi * VacuumX.HUNGER_GAIN_PANIC
      - VacuumX.BAT_PRESSURE_GAIN
        * (1 - inject_Z battery / inject_Z VacuumX.BATTERY_MAX))%Q /\
  ((5172 # 10000 <= VacuumX.panic_threshold lpi battery)%Q /\
   (VacuumX.panic_threshold lpi battery <= 8 # 10)%Q).
Proof.
  intros [L0 L1] [B0 B1].
  unfold VacuumX.panic_threshold, VacuumX.PANIC_TH_BASE,
    VacuumX.HUNGER_GAIN_PANIC, VacuumX.BAT_PRESSURE_GAIN, VacuumX.BATTERY_MAX
    in *.
  cbv zeta.
  assert (R0 : (0 <= inject_Z battery / inject_Z 60)%Q).
  { apply Qle_shift_div_l; [reflexivity |]. rewrite Qmult_0_l.
    apply inject_Z_nonneg. exact B0. }
  assert (R1 : (inject_Z battery / inject_Z 60 <= 1)%Q).
  { apply Qle_shift_div_r; [reflexivity |]. rewrite Qmult_1_l.
    rewrite <- Zle_Qle. exact B1. }
  generalize dependent (inject_Z battery / inject_Z 60)%Q. intros r R0 R1.
  unfold clip.
  destruct (Q.max_spec
              ((80 # 100) - lpi * (40 # 100) - (25 # 100) * (1 - r))
              (20 # 100)) as [[A1 A2] | [A1 A2]]; [lra |].
  destruct (Q.min_spec
              (Qmax ((80 # 100) - lpi * (40 # 100) - (25 # 100) * (1 - r))
                    (20 # 100))
              (95 # 100)) as [[B1' B2] | [B1' B2]];
    [| lra].
  split; [| split]; lra.
Qed.

Lemma vacuum_battery_threshold_unclamped lpi :
  (0 <= lpi)%Q /\ (lpi <= 82 # 1000)%Q ->
  (VacuumX.battery_threshold lpi
   == VacuumX.LOW_BAT_BASE + lpi * VacuumX.HUNGER_GAIN_BAT)%Q /\
  ((20 <= VacuumX.battery_threshold lpi)%Q /\
   (VacuumX.battery_threshold lpi <= 2164 # 100)%Q).
Proof.
  intros [L0 L1].
  unfold VacuumX.battery_threshold, VacuumX.LOW_BAT_BASE,
    VacuumX.HUNGER_GAIN_BAT, VacuumX.BATTERY_MAX.
  cbv zeta. change (inject_Z (60 - 1)) with 59%Q.
  unfold clip.
  destruct (Q.max_spec (20 + lpi * 20) 5) as [[A1 A2] | [A1 A2]]; [lra |].
  destruct (Q.min_spec (Qmax (20 + lpi * 20) 5) 59) as [[B1 B2] | [B1 B2]];
    [| lra].
  split; [| split]; lra.
Qed.

(** X16: in a run of Vacuum-X v0.3 whose risk readings lie in [0, 1], as
    every reading of [StructGate.panic] does, the health of the monitor
    stays in [0, 1] and the stress [lpi] in [0, 0.082]: one call damages
    the health by at most 0.041.  For such a stress and a battery between 0
    and [BATTERY_MAX] the clamps of [_dynamic_thresholds] are never active:
    the risk threshold is the unclamped expression and lies in
    [0.5172, 0.8], the battery threshold is 20 + 20 * lpi and lies in
    [20, 21.64]. *)
Theorem vacuum_stress_bounded_thresholds_unclamped :
  (forall svd window hist,
      (0 <= VacuumX.panic svd window hist)%Q /\
      (VacuumX.panic svd window hist <= 1)%Q) /\
  (forall obs,
      Forall (fun o => (0 <= VacuumX.o_dt o)%Q /\ (VacuumX.o_dt o <= 1)%Q)
             obs ->
      forall i,
        let m := VacuumX.mon (PanicSpec.vacuum_at obs i) in
        ((0 <= VacuumX.mon_H m)%Q /\ (VacuumX.mon_H m <= 1)%Q) /\
        ((0 <= VacuumX.mon_lpi m)%Q /\ (VacuumX.mon_lpi m <= 82 # 1000)%Q)) /\
  (forall lpi battery,
      (0 <= lpi)%Q /\ (lpi <= 82 # 1000)%Q ->
      0 <= battery <= VacuumX.BATTERY_MAX ->
      (fst (VacuumX._dynamic_thresholds lpi battery)
       == VacuumX.PANIC_TH_BASE - lpi * VacuumX.HUNGER_GAIN_PANIC
          - VacuumX.BAT_PRESSURE_GAIN
            * (1 - inject_Z battery / inject_Z VacuumX.BATTERY_MAX))%Q /\
      (snd (VacuumX._dynamic_thresholds lpi battery)
       == VacuumX.LOW_BAT_BASE + lpi * VacuumX.HUNGER_GAIN_BAT)%Q /\
      ((5172 # 10000 <= fst (VacuumX._dynamic_thresholds lpi battery))%Q /\
       (fst (VacuumX._dynamic_thresholds lpi battery) <= 8 # 10)%Q) /\
      ((20 <= snd (VacuumX._dynamic_thresholds lpi battery))%Q /\
       (snd (VacuumX._dynamic_thresholds lpi battery) <= 2164 # 100)%Q)).
Proof.
  split; [exact vacuum_panic_range |].
  split; [intros obs Hall i; apply vacuum_monitor_run; exact Hall |].
  intros lpi battery Hl Hb. unfold VacuumX._dynamic_thresholds.
  cbn [fst snd].
  destruct (vacuum_thresholds_unclamped lpi battery Hl Hb) as [P1 P2].
  destruct (vacuum_battery_threshold_unclamped lpi Hl) as [B1 B2].
  split; [exact P1 |]. split; [exact B1 |]. split; [exact P2 | exact B2].
Qed.

Lemma vacuum_stress_bounded_thresholds_unclamped_witness :
  ((0 <= 5 # 100)%Q /\ (5 # 100 <= 82 # 1000)%Q) /\
  0 <= 30 <= VacuumX.BATTERY_MAX /\
  (snd (VacuumX._dynamic_thresholds (5 # 100) 30)
   == VacuumX.LOW_BAT_BASE + (5 # 100) * VacuumX.HUNGER_GAIN_BAT)%Q /\
  (VacuumX.mon_lpi (VacuumX.mon (PanicSpec.vacuum_at [] 0)) <= 82 # 1000)%Q.
Proof.
  assert (H1 : (0 <= 5 # 100)%Q /\ (5 # 100 <= 82 # 1000)%Q)
    by (split; discriminate).
  assert (H2 : 0 <= 30 <= VacuumX.BATTERY_MAX)
    by (unfold VacuumX.BATTERY_MAX; lia).
  split; [exact H1 |]. split; [exact H2 |]. split.
  - exact (proj1 (proj2 (proj2 (proj2
             vacuum_stress_bounded_thresholds_unclamped)
             (5 # 100)%Q 30 H1 H2))).
  - exact (proj2 (proj2 (proj1 (proj2
             vacuum_stress_bounded_thresholds_unclamped)
             [] (Forall_nil _) 0%nat))).
Defined.

(** X17: the battery band of the SURVIVAL switch in such a run.  A call
    made with a battery below 20 leaves the agent in SURVIVAL mode, unless
    it is the call that ends an escape burst, which leaves it in NORMAL
    mode; and a call that takes the agent into SURVIVAL mode is made with a
    battery of at most 21. *)
Theorem vacuum_survival_battery_band :
  forall obs i o,
    Forall (fun o => (0 <= VacuumX.o_dt o)%Q /\ (VacuumX.o_dt o <= 1)%Q) obs ->
    nth_error obs i = Some o ->
    (VacuumX.battery (VacuumX.o_world o) < 20 ->
     VacuumX.mode (PanicSpec.vacuum_at obs (S i)) = VacuumX.SURVIVAL \/
     (VacuumX.mode (PanicSpec.vacuum_at obs i) = VacuumX.ESCAPE /\
      VacuumX.escape_timer (PanicSpec.vacuum_at obs i) <= 0 /\
      VacuumX.mode (PanicSpec.vacuum_at obs (S i)) = VacuumX.NORMAL)) /\
    (VacuumX.mode (PanicSpec.vacuum_at obs i) <> VacuumX.SURVIVAL ->
     VacuumX.mode (PanicSpec.vacuum_at obs (S i)) = VacuumX.SURVIVAL ->
     VacuumX.battery (VacuumX.o_world o) <= 21).
Proof.
  intros obs i o Hall E.
  pose proof (vacuum_monitor_run obs Hall (S i)) as [_ Hl].
  rewrite (vacuum_at_S obs i o E) in *.
  destruct (vacuum_act_machine (PanicSpec.vacuum_at obs i) (Z.of_nat i) o)
    as [Hmon Hmach].
  cbv zeta in Hmon, Hmach. rewrite Hmon in Hl.
  destruct (vacuum_battery_threshold_unclamped _ Hl) as [_ [T0 T1]].
  set (bt := VacuumX.battery_threshold _) in *.
  set (b := VacuumX.battery (VacuumX.o_world o)) in *.
  assert (Hlow : b < 20 -> Qlt_bool (inject_Z b) bt = true).
  { intros Hb. unfold Qlt_bool. apply negb_true_iff.
    apply not_true_iff_false. rewrite Qle_bool_iff. intros Hc.
    assert (Hq : (inject_Z b <= 19)%Q)
      by (change 19%Q with (inject_Z 19); rewrite <- Zle_Qle; lia).
    lra. }
  assert (Hhigh : Qlt_bool (inject_Z b) bt = true -> b <= 21).
  { unfold Qlt_bool. rewrite negb_true_iff, <- not_true_iff_false,
      Qle_bool_iff.
    intros Hc. destruct (Z_le_gt_dec b 21) as [Hle | Hgt]; [exact Hle |].
    exfalso. apply Hc.
    assert (Hq : (22 <= inject_Z b)%Q)
      by (change 22%Q with (inject_Z 22); rewrite <- Zle_Qle; lia).
    lra. }
  split.
  - intros Hb. specialize (Hlow Hb). rewrite Hlow in Hmach.
    destruct (VacuumX.mode (PanicSpec.vacuum_at obs i)).
    + left. apply Hmach.
    + destruct Hmach as [_ Hmach].
      destruct (VacuumX.escape_timer (PanicSpec.vacuum_at obs i) <=? 0)
        eqn:Et.
      * right. apply Z.leb_le in Et. split; [reflexivity |].
        split; [exact Et | apply Hmach].
      * left. apply Hmach.
    + left. apply Hmach.
  - intros Hns Hs.
    destruct (Qlt_bool (inject_Z b) bt) eqn:El; [apply Hhigh; reflexivity |].
    exfalso.
    destruct (VacuumX.mode (PanicSpec.vacuum_at obs i)).
    + destruct (_ && _); destruct Hmach as [Hm _]; rewrite Hm in Hs;
        discriminate.
    + destruct Hmach as [_ Hmach].
      destruct (_ <=? 0); destruct Hmach as [Hm _]; rewrite Hm in Hs;
        discriminate.
    + apply Hns. reflexivity.
Qed.

Lemma vacuum_survival_battery_band_witness :
  let world b :=
    {| VacuumX.w := 12; VacuumX.h := 12; VacuumX.grid := PanicSpec.pocket_grid;
       VacuumX.dock := (0, 0); VacuumX.pos := (0, 1);
       VacuumX.battery := b; VacuumX.steps := 0 |} in
  let o b :=
    {| VacuumX.o_dt := 0; VacuumX.o_world := world b;
       VacuumX.o_random := VacuumX.UP; VacuumX.o_greedy := VacuumX.LEFT |} in
  let obs := [o 20; o 19] in
  VacuumX.battery (VacuumX.o_world (o 19)) < 20 /\
  (VacuumX.mode (PanicSpec.vacuum_at obs 2) = VacuumX.SURVIVAL \/
   (VacuumX.mode (PanicSpec.vacuum_at obs 1) = VacuumX.ESCAPE /\
    VacuumX.escape_timer (PanicSpec.vacuum_at obs 1) <= 0 /\
    VacuumX.mode (PanicSpec.vacuum_at obs 2) = VacuumX.NORMAL)).
Proof.
  intros world o obs.
  assert (Hall : Forall (fun o => (0 <= VacuumX.o_dt o)%Q /\
                                  (VacuumX.o_dt o <= 1)%Q) obs)
    by (repeat constructor; discriminate).
  assert (Hb : VacuumX.battery (VacuumX.o_world (o 19)) < 20)
    by (cbn; lia).
  split; [exact Hb |].
  exact (proj1 (vacuum_survival_battery_band obs 1%nat (o 19) Hall eq_refl)
               Hb).
Defined.

(** ** Vacuum-X v0.4: the monitor and the SURVIVAL switch in a run *)

Lemma frontier_risk_nonneg svd hist : (0 <= Frontier.risk svd hist)%Q.
Proof.
  unfold Frontier.risk.
  destruct (length hist <? 5)%nat; [discriminate |].
  destruct (svd (centre hist)) as [[| s0 [| s1 s]] |]; try discriminate.
  cbv zeta.
  pose proof (Q.le_min_r (s1 / (s0 + (1 # 1000000)) * 5) 1) as Hm. lra.
Qed.

Lemma frontier_monitor_step m r :
  (0 <= Frontier.mon_H m)%Q /\ (Frontier.mon_H m <= 1)%Q ->
  (0 <= Frontier.mon_LPI m)%Q ->
  (0 <= r)%Q ->
  let m' := Frontier.LPIMonitor_update m r in
  (0 <= Frontier.mon_H m')%Q /\
  (Frontier.mon_H m' <= Qmax 0 (Frontier.mon_H m - (1 # 1000)))%Q /\
  (Frontier.mon_H m' <= Frontier.mon_H m)%Q /\
  (0 <= Frontier.mon_LPI m')%Q /\
  ((r <= 1)%Q -> (Frontier.mon_LPI m <= 1051 # 1000)%Q ->
   (Frontier.mon_LPI m' <= 1051 # 1000)%Q).
Proof.
  intros [H0 H1] L0 R0. destruct m as [Hm l].
  cbn [Frontier.mon_H Frontier.mon_LPI] in *.
  unfold Frontier.LPIMonitor_update. cbv zeta.
  cbn [Frontier.mon_H Frontier.mon_LPI]. rewrite !Qred_correct.
  unfold Frontier.LPI_RHO.
  destruct (Q.max_spec 0 (Hm - ((1 # 1000) + (5 # 100) * r)))
    as [[A1 A2] | [A1 A2]];
    destruct (Q.max_spec 0 (Hm - (1 # 1000))) as [[B1 B2] | [B1 B2]];
    destruct (Q.max_spec 0
                (Hm - Qmax 0 (Hm - ((1 # 1000) + (5 # 100) * r))))
      as [[C1 C2] | [C1 C2]];
    repeat split; try intros R1 L1; lra.
Qed.

Lemma frontier_choose_machine ag o :
  let m := Frontier.LPIMonitor_update (Frontier.lpi ag) (Frontier.o_r o) in
  let ag' := snd (Frontier.choose ag o) in
  Frontier.lpi ag' = m /\
  Frontier.mode ag'
  = (if Qlt_bool (inject_Z (Frontier.battery (Frontier.o_world o)))
                 (Frontier.low_bat_th (Frontier.alpha ag) (Frontier.mon_LPI m))
     then Frontier.SURVIVAL
     else if Qlt_bool
               (Frontier.panic_th (Frontier.alpha ag) (Frontier.mon_LPI m)
                  (Frontier.battery (Frontier.o_world o)))
               (Frontier.o_r o)
          then Frontier.PANIC else Frontier.NORMAL) /\
  fst (Frontier.choose ag o)
  = match Frontier.mode ag' with
    | Frontier.SURVIVAL => Frontier.LEFT
    | _ => Frontier.o_random o
    end.
Proof.
  destruct ag as [a m md pe ps lp].
  unfold Frontier.choose, Frontier.mode_update, Frontier.rescue_update.
  cbv zeta.
  cbn [Frontier.alpha Frontier.lpi Frontier.mode Frontier.panic_events
       Frontier.panic_saved Frontier.last_panic_step].
  destruct (Qlt_bool (inject_Z (Frontier.battery (Frontier.o_world o))) _);
    [| destruct (Qlt_bool _ (Frontier.o_r o)); [destruct md |]];
    repeat (cbn [Frontier.Mode_eqb negb andb fst snd Frontier.alpha
                 Frontier.lpi Frontier.mode Frontier.panic_events
                 Frontier.panic_saved Frontier.last_panic_step];
            match goal with
            | |- context [match ?x with Some _ => _ | None => _ end] =>
                is_var x; destruct x
            | |- context [if ?c then _ else _] => destruct c eqn:?
            end);
    cbn [Frontier.Mode_eqb negb andb fst snd Frontier.alpha Frontier.lpi
         Frontier.mode Frontier.panic_events Frontier.panic_saved
         Frontier.last_panic_step];
    repeat split; reflexivity.
Qed.

Lemma frontier_alpha_run a obs i :
  Frontier.alpha (PanicSpec.frontier_at a obs i) = a.
Proof.
  induction i as [| i IH]; [reflexivity |].
  destruct (le_lt_dec (length obs) i) as [Hle | Hlt].
  - rewrite (frontier_at_beyond a obs i Hle). exact IH.
  - destruct (nth_error_lt obs i Hlt) as [o E].
    rewrite (frontier_at_S a obs i o E).
    destruct (frontier_choose_step (PanicSpec.frontier_at a obs i) o)
      as [Ha _].
    cbv zeta in Ha. congruence.
Qed.

Lemma frontier_monitor_run a obs :
  Forall (fun o => (0 <= Frontier.o_r o)%Q /\ (Frontier.o_r o <= 1)%Q) obs ->
  forall i,
    let m := Frontier.lpi (PanicSpec.frontier_at a obs i) in
    ((0 <= Frontier.mon_H m)%Q /\ (Frontier.mon_H m <= 1)%Q) /\
    ((i <= length obs)%nat ->
     (Frontier.mon_H m
      <= Qmax 0 (1 - inject_Z (Z.of_nat i) * (1 # 1000)))%Q) /\
    (Frontier.mon_H (Frontier.lpi (PanicSpec.frontier_at a obs (S i)))
     <= Frontier.mon_H m)%Q /\
    ((0 <= Frontier.mon_LPI m)%Q /\ (Frontier.mon_LPI m <= 1051 # 1000)%Q).
Proof.
  intros Hall.
  assert (Hstep : forall i o,
             nth_error obs i = Some o ->
             Frontier.lpi (PanicSpec.frontier_at a obs (S i))
             = Frontier.LPIMonitor_update
                 (Frontier.lpi (PanicSpec.frontier_at a obs i))
                 (Frontier.o_r o) /\
             (0 <= Frontier.o_r o)%Q /\ (Frontier.o_r o <= 1)%Q).
  { intros i o E. rewrite (frontier_at_S a obs i o E).
    destruct (frontier_choose_machine (PanicSpec.frontier_at a obs i) o)
      as [Hm _].
    cbv zeta in Hm. split; [exact Hm |].
    rewrite Forall_forall in Hall. apply Hall.
    apply nth_error_In with i. exact E. }
  assert (Hinv : forall i,
             ((0 <= Frontier.mon_H
                      (Frontier.lpi (PanicSpec.frontier_at a obs i)))%Q /\
              (Frontier.mon_H (Frontier.lpi (PanicSpec.frontier_at a obs i))
               <= 1)%Q) /\
             ((i <= length obs)%nat ->
              (Frontier.mon_H (Frontier.lpi (PanicSpec.frontier_at a obs i))
               <= Qmax 0 (1 - inject_Z (Z.of_nat i) * (1 # 1000)))%Q) /\
             ((0 <= Frontier.mon_LPI
                      (Frontier.lpi (PanicSpec.frontier_at a obs i)))%Q /\
              (Frontier.mon_LPI (Frontier.lpi (PanicSpec.frontier_at a obs i))
               <= 1051 # 1000)%Q)).
  { induction i as [| i IH].
    - unfold PanicSpec.frontier_at. cbn.
      repeat split; discriminate.
    - destruct IH as [[I0 I1] [I2 [I3 I4]]].
      destruct (le_lt_dec (length obs) i) as [Hle | Hlt].
      + rewrite (frontier_at_beyond a obs i Hle).
        split; [split; assumption |]. split; [intros Hc; lia |].
        split; assumption.
      + destruct (nth_error_lt obs i Hlt) as [o E].
        destruct (Hstep i o E) as [Em [R0 R1]]. rewrite Em.
        destruct (frontier_monitor_step
                    (Frontier.lpi (PanicSpec.frontier_at a obs i))
                    (Frontier.o_r o) (conj I0 I1) I3 R0)
          as [M0 [M1 [M2 [M3 M4]]]].
        cbv zeta in M0, M1, M2, M3, M4.
        split; [split; [exact M0 | lra] |].
        split; [| split; [exact M3 | exact (M4 R1 I4)]].
        intros _. specialize (I2 ltac:(lia)).
        rewrite Nat2Z.inj_succ. unfold Z.succ. rewrite inject_Z_plus.
        change (inject_Z 1) with 1%Q.
        set (n := inject_Z (Z.of_nat i)) in *.
        set (hm := Frontier.mon_H
                     (Frontier.lpi (PanicSpec.frontier_at a obs i))) in *.
        set (hm' := Frontier.mon_H _) in *.
        destruct (Q.max_spec 0 (hm - (1 # 1000))) as [[A1 A2] | [A1 A2]];
          destruct (Q.max_spec 0 (1 - n * (1 # 1000)))
            as [[B1 B2] | [B1 B2]];
          destruct (Q.max_spec 0 (1 - (n + 1) * (1 # 1000)))
            as [[C1 C2] | [C1 C2]];
          lra. }
  intros i. cbv zeta.
  destruct (Hinv i) as [[I0 I1] [I2 [I3 I4]]].
  split; [split; assumption |]. split; [exact I2 |].
  split; [| split; assumption].
  destruct (le_lt_dec (length obs) i) as [Hle | Hlt].
  - rewrite (frontier_at_beyond a obs i Hle). lra.
  - destruct (nth_error_lt obs i Hlt) as [o E].
    destruct (Hstep i o E) as [Em [R0 R1]]. rewrite Em.
    apply (frontier_monitor_step
             (Frontier.lpi (PanicSpec.frontier_at a obs i))
             (Frontier.o_r o) (conj I0 I1) I3 R0).
Qed.

(** X18: the monitor of the Coase frontier agent in a run whose risk
    readings lie in [0, 1].  Its health has no recovery term: it never
    rises, loses at least 0.001 per call until it reaches 0, so that after
    [i] calls it is at most max(0, 1 - i / 1000); the stress [LPI] stays in
    [0, 1.051].  Every reading of [StructGate.risk] is at least 0. *)
Theorem frontier_monitor_health_never_recovers :
  (forall svd hist, (0 <= Frontier.risk svd hist)%Q) /\
  (forall a obs,
      Forall (fun o => (0 <= Frontier.o_r o)%Q /\ (Frontier.o_r o <= 1)%Q)
             obs ->
      forall i,
        let m := Frontier.lpi (PanicSpec.frontier_at a obs i) in
        ((0 <= Frontier.mon_H m)%Q /\ (Frontier.mon_H m <= 1)%Q) /\
        ((i <= length obs)%nat ->
         (Frontier.mon_H m
          <= Qmax 0 (1 - inject_Z (Z.of_nat i) * (1 # 1000)))%Q) /\
        (Frontier.mon_H (Frontier.lpi (PanicSpec.frontier_at a obs (S i)))
         <= Frontier.mon_H m)%Q /\
        ((0 <= Frontier.mon_LPI m)%Q /\
         (Frontier.mon_LPI m <= 1051 # 1000)%Q)).
Proof.
  split; [exact frontier_risk_nonneg |].
  intros a obs Hall i. apply frontier_monitor_run. exact Hall.
Qed.

Lemma frontier_monitor_health_never_recovers_witness :
  Forall (fun o => (0 <= Frontier.o_r o)%Q /\ (Frontier.o_r o <= 1)%Q)
         (firstn 3 PanicSpec.homing_run) /\
  (Frontier.mon_H
     (Frontier.lpi (PanicSpec.frontier_at 1 (firstn 3 PanicSpec.homing_run) 3))
   <= Frontier.mon_H
        (Frontier.lpi
           (PanicSpec.frontier_at 1 (firstn 3 PanicSpec.homing_run) 2)))%Q.
Proof.
  assert (Hall : Forall (fun o => (0 <= Frontier.o_r o)%Q /\
                                  (Frontier.o_r o <= 1)%Q)
                        (firstn 3 PanicSpec.homing_run))
    by (repeat constructor; discriminate).
  split; [exact Hall |].
  exact (proj1 (proj2 (proj2
           (proj2 frontier_monitor_health_never_recovers 1%Q
              (firstn 3 PanicSpec.homing_run) Hall 2%nat)))).
Defined.

(** X19: the SURVIVAL switch of the Coase frontier agent, for alpha at
    least 0 and risk readings in [0, 1].  The mode is recomputed at every
    call: a call made with a battery below 20 leaves the agent in SURVIVAL
    mode and returns LEFT, whatever the mode before; and a call that leaves
    it in SURVIVAL mode is made with a battery below
    20 + 21.02 * alpha. *)
Theorem frontier_survival_battery_band :
  forall a obs i o,
    (0 <= a)%Q ->
    Forall (fun o => (0 <= Frontier.o_r o)%Q /\ (Frontier.o_r o <= 1)%Q) obs ->
    nth_error obs i = Some o ->
    (Frontier.battery (Frontier.o_world o) < 20 ->
     Frontier.mode (PanicSpec.frontier_at a obs (S i)) = Frontier.SURVIVAL /\
     fst (Frontier.choose (PanicSpec.frontier_at a obs i) o) = Frontier.LEFT) /\
    (Frontier.mode (PanicSpec.frontier_at a obs (S i)) = Frontier.SURVIVAL ->
     (inject_Z (Frontier.battery (Frontier.o_world o))
      < 20 + (2102 # 100) * a)%Q).
Proof.
  intros a obs i o Ha Hall E.
  pose proof (frontier_monitor_run a obs Hall (S i)) as [_ [_ [_ [L0 L1]]]].
  cbv zeta in L0, L1.
  rewrite (frontier_at_S a obs i o E) in *.
  destruct (frontier_choose_machine (PanicSpec.frontier_at a obs i) o)
    as [Hm [Hmode Hact]].
  cbv zeta in Hm, Hmode, Hact. rewrite Hm in L0, L1.
  rewrite (frontier_alpha_run a obs i) in Hmode.
  set (l := Frontier.mon_LPI _) in *.
  set (b := Frontier.battery (Frontier.o_world o)) in *.
  assert (Hth : (20 <= Frontier.low_bat_th a l)%Q /\
                (Frontier.low_bat_th a l <= 20 + (2102 # 100) * a)%Q).
  { unfold Frontier.low_bat_th, Frontier.BASE_LOW_BAT, Frontier.GAIN_BAT.
    split; nra. }
  destruct Hth as [T0 T1].
  split.
  - intros Hb.
    assert (Hlow : Qlt_bool (inject_Z b) (Frontier.low_bat_th a l) = true).
    { unfold Qlt_bool. apply negb_true_iff.
      apply not_true_iff_false. rewrite Qle_bool_iff. intros Hc.
      assert (Hq : (inject_Z b <= 19)%Q)
        by (change 19%Q with (inject_Z 19); rewrite <- Zle_Qle; lia).
      lra. }
    rewrite Hlow in Hmode. rewrite Hmode in Hact.
    split; [exact Hmode | exact Hact].
  - intros Hs. rewrite Hmode in Hs.
    destruct (Qlt_bool (inject_Z b) (Frontier.low_bat_th a l)) eqn:El.
    + unfold Qlt_bool in El. rewrite negb_true_iff, <- not_true_iff_false,
        Qle_bool_iff in El.
      apply Qnot_le_lt in El. lra.
    + destruct (Qlt_bool _ (Frontier.o_r o)); discriminate.
Qed.

Lemma frontier_survival_battery_band_witness :
  (0 <= 1)%Q /\
  Frontier.mode (PanicSpec.frontier_at 1 (firstn 42 PanicSpec.homing_run) 42)
  = Frontier.SURVIVAL.
Proof.
  assert (Ha : (0 <= 1)%Q) by discriminate.
  assert (Hall : Forall (fun o => (0 <= Frontier.o_r o)%Q /\
                                  (Frontier.o_r o <= 1)%Q)
                        (firstn 42 PanicSpec.homing_run))
    by (repeat constructor; discriminate).
  split; [exact Ha |].
  pose (o := {| Frontier.o_world :=
                  {| Frontier.battery := 19; Frontier.steps := 41 |};
                Frontier.o_r := 0%Q; Frontier.o_random := Frontier.UP |}).
  assert (E : nth_error (firstn 42 PanicSpec.homing_run) 41 = Some o)
    by (vm_compute; reflexivity).
  apply (proj1 (frontier_survival_battery_band 1%Q
                  (firstn 42 PanicSpec.homing_run) 41%nat o Ha Hall E)).
  cbn. lia.
Defined.

(** ** Snake-SHM v0.3.2: the game under the agent *)

Lemma removelast_cons2 {A : Type} (a b : A) (l : list A) :
  removelast (a :: b :: l) = a :: removelast (b :: l).
Proof. reflexivity. Qed.

Lemma removelast_In {A : Type} (l : list A) (x : A) :
  In x (removelast l) -> In x l.
Proof.
  induction l as [| a [| b l] IH]; [intros [] | intros [] |].
  rewrite removelast_cons2. intros [<- | Hin]; [left; reflexivity |].
  right. apply IH. exact Hin.
Qed.

Lemma removelast_NoDup {A : Type} (l : list A) :
  NoDup l -> NoDup (removelast l).
Proof.
  induction l as [| a [| b l] IH]; intros Hnd; [constructor | constructor |].
  rewrite removelast_cons2. inversion Hnd; subst. constructor.
  - intros Hin. apply removelast_In in Hin. contradiction.
  - apply IH. assumption.
Qed.

Lemma removelast_length {A : Type} (a : A) (l : list A) :
  length (removelast (a :: l)) = length l.
Proof.
  revert a. induction l as [| b l IH]; intros a; [reflexivity |].
  rewrite removelast_cons2. cbn [length]. f_equal. apply IH.
Qed.

Lemma removelast_chain (l : list Pos) :
  MoreSpec.chain l -> MoreSpec.chain (removelast l).
Proof.
  induction l as [| a [| b [| c l]] IH]; intros Hc; try exact I.
  rewrite removelast_cons2. destruct Hc as [H1 H2].
  specialize (IH H2). rewrite removelast_cons2 in *.
  split; assumption.
Qed.

Lemma snake_collision_test obstacles w h n :
  negb ((0 <=? fst n) && (fst n <? w) && (0 <=? snd n) && (snd n <? h))
  || mem n obstacles
  = negb (Snake.passable obstacles w h n).
Proof.
  unfold Snake.passable.
  destruct ((0 <=? fst n) && (fst n <? w) && (0 <=? snd n) && (snd n <? h));
    destruct (mem n obstacles); reflexivity.
Qed.

Lemma snake_action_delta_step head m :
  (fst head + fst (SnakeEnv.action_delta (Some m)),
   snd head + snd (SnakeEnv.action_delta (Some m)))
  = SearchSpec.step head m.
Proof. destruct m; reflexivity. Qed.

Lemma snake_action_delta_none (head : Pos) :
  (fst head + fst (SnakeEnv.action_delta None),
   snd head + snd (SnakeEnv.action_delta None))
  = head.
Proof. destruct head as [x y]. cbn. f_equal; lia. Qed.

(** [step] on a move into a passable cell. *)
Lemma snake_step_move draws g m head rest :
  SnakeEnv.done g = false ->
  Snake.snake (SnakeEnv.state g) = head :: rest ->
  Snake.passable (removelast (head :: rest)) (Snake.w (SnakeEnv.state g))
    (Snake.h (SnakeEnv.state g)) (SearchSpec.step head m) = true ->
  let s := SnakeEnv.state g in
  let n := SearchSpec.step head m in
  let eaten := pos_eqb n (Snake.food s) in
  let hunger' := if eaten then 0 else Snake.steps_since_food s + 1 in
  let starved := Snake.MAX_STEPS_WITHOUT_FOOD <=? hunger' in
  SnakeEnv.step draws g (Some m)
  = Some {| SnakeEnv.state :=
              {| Snake.snake := if eaten then n :: head :: rest
                                else n :: removelast (head :: rest);
                 Snake.food := if eaten
                               then SnakeEnv._spawn_food draws
                                      (n :: head :: rest)
                               else Snake.food s;
                 Snake.w := Snake.w s; Snake.h := Snake.h s;
                 Snake.steps_since_food := hunger';
                 Snake.steps_total := Snake.steps_total s + 1 |};
            SnakeEnv.done := starved;
            SnakeEnv.death := if starved then SnakeEnv.Starvation
                              else SnakeEnv.death g |}.
Proof.
  intros Hd Hs Hp. cbv zeta. unfold SnakeEnv.step. rewrite Hd, Hs.
  cbv zeta. rewrite snake_action_delta_step, snake_collision_test, Hp.
  cbn [negb]. rewrite removelast_cons2.
  destruct (pos_eqb (SearchSpec.step head m)
              (Snake.food (SnakeEnv.state g))); reflexivity.
Qed.

(** [step] on a blocked cell. *)
Lemma snake_step_collision draws g action head rest :
  SnakeEnv.done g = false ->
  Snake.snake (SnakeEnv.state g) = head :: rest ->
  Snake.passable (removelast (head :: rest)) (Snake.w (SnakeEnv.state g))
    (Snake.h (SnakeEnv.state g))
    (fst head + fst (SnakeEnv.action_delta action),
     snd head + snd (SnakeEnv.action_delta action)) = false ->
  let s := SnakeEnv.state g in
  SnakeEnv.step draws g action
  = Some {| SnakeEnv.state :=
              {| Snake.snake := head :: rest; Snake.food := Snake.food s;
                 Snake.w := Snake.w s; Snake.h := Snake.h s;
                 Snake.steps_since_food := Snake.steps_since_food s + 1;
                 Snake.steps_total := Snake.steps_total s + 1 |};
            SnakeEnv.done := true;
            SnakeEnv.death := SnakeEnv.Collision |}.
Proof.
  intros Hd Hs Hp. cbv zeta. unfold SnakeEnv.step. rewrite Hd, Hs.
  cbv zeta. rewrite snake_collision_test, Hp. reflexivity.
Qed.

Lemma snake_get_action_some risk_f ag game head rest :
  Snake.snake game = head :: rest ->
  exists a ag',
    Snake.get_action risk_f ag game = Some (a, ag') /\
    (a = None <->
     SearchSpec.boxed (removelast (head :: rest))
       (Snake.w game) (Snake.h game) head) /\
    (forall m, a = Some m ->
       Snake.passable (removelast (head :: rest))
         (Snake.w game) (Snake.h game) (SearchSpec.step head m) = true).
Proof.
  intros Hs. unfold Snake.get_action. rewrite Hs.
  destruct (Snake.is_coase ag);
    [destruct (PrimFloat.leb _ _) |];
    eexists; eexists; (split; [reflexivity |]);
    match goal with
    | |- (Snake.or_max_reach ?a1 ?hd ?obst ?w ?h = None <-> _) /\ _ =>
        destruct (final_action_spec hd (Snake.food game)
                    (last (head :: rest) head) obst w h a1)
          as [F1 [F2 _]]; [auto | split; [exact F1 | exact F2]]
    end.
Qed.

(** X20: the game under the agent.  On a running game with a non-empty
    snake, [get_action] returns and [step] accepts its result.  A move it
    returns never collides: the head enters the cell of the move, the
    snake grows by one exactly when that cell holds the food, and the game
    can only end by starvation.  When it returns [None] (the head is boxed
    in) and the snake has at least two cells, [step], which takes the
    missing action as a zero displacement, ends the game by a collision of
    the head with itself. *)
Theorem snake_step_after_get_action :
  forall risk_f draws ag g head rest,
    SnakeEnv.done g = false ->
    Snake.snake (SnakeEnv.state g) = head :: rest ->
    exists a ag' g',
      Snake.get_action risk_f ag (SnakeEnv.state g) = Some (a, ag') /\
      SnakeEnv.step draws g a = Some g' /\
      Snake.steps_total (SnakeEnv.state g')
      = Snake.steps_total (SnakeEnv.state g) + 1 /\
      (forall m, a = Some m ->
         hd_error (Snake.snake (SnakeEnv.state g'))
         = Some (SearchSpec.step head m) /\
         length (Snake.snake (SnakeEnv.state g'))
         = (length (head :: rest)
            + (if pos_eqb (SearchSpec.step head m)
                    (Snake.food (SnakeEnv.state g))
               then 1 else 0))%nat /\
         (SnakeEnv.done g' = true ->
          SnakeEnv.death g' = SnakeEnv.Starvation)) /\
      (a = None -> rest <> [] ->
         SnakeEnv.done g' = true /\
         SnakeEnv.death g' = SnakeEnv.Collision /\
         Snake.snake (SnakeEnv.state g') = head :: rest).
Proof.
  intros risk_f draws ag g head rest Hd Hs.
  destruct (snake_get_action_some risk_f ag (SnakeEnv.state g) head rest Hs)
    as [a [ag' [Hg [Hnone Hsome]]]].
  exists a, ag'. destruct a as [m |].
  - pose proof (snake_step_move draws g m head rest Hd Hs
                  (Hsome m eq_refl)) as Hstep.
    cbv zeta in Hstep. eexists. split; [exact Hg |].
    split; [exact Hstep |]. cbn [SnakeEnv.state SnakeEnv.done SnakeEnv.death
                                  Snake.snake Snake.steps_total].
    split; [reflexivity |]. split; [| discriminate].
    intros m' Hm. inversion Hm; subst m'.
    destruct (pos_eqb (SearchSpec.step head m)
                (Snake.food (SnakeEnv.state g))).
    + split; [reflexivity |]. split; [cbn [length]; lia |].
      destruct (Snake.MAX_STEPS_WITHOUT_FOOD <=? 0); [reflexivity |].
      discriminate.
    + split; [reflexivity |].
      split; [cbn [length]; rewrite removelast_length; lia |].
      destruct (Snake.MAX_STEPS_WITHOUT_FOOD
                <=? Snake.steps_since_food (SnakeEnv.state g) + 1);
        [reflexivity | discriminate].
  - destruct rest as [| r1 rest].
    + (* a single cell: the displacement (0, 0) is no collision *)
      unfold SnakeEnv.step. rewrite Hd, Hs. cbv zeta.
      rewrite snake_action_delta_none, snake_collision_test.
      destruct (Snake.passable _ _ _ head); cbn [negb];
        eexists; (split; [exact Hg |]); (split; [reflexivity |]);
        cbn [SnakeEnv.state Snake.steps_total];
        (split; [reflexivity |]); (split; [discriminate |]);
        intros _ Hc; contradiction.
    + assert (Hp : Snake.passable (removelast (head :: r1 :: rest))
                     (Snake.w (SnakeEnv.state g)) (Snake.h (SnakeEnv.state g))
                     (fst head + fst (SnakeEnv.action_delta None),
                      snd head + snd (SnakeEnv.action_delta None)) = false).
      { rewrite snake_action_delta_none. unfold Snake.passable.
        rewrite removelast_cons2, mem_cons, pos_eqb_refl.
        cbn [orb negb]. apply andb_false_r. }
      pose proof (snake_step_collision draws g None head (r1 :: rest)
                    Hd Hs Hp) as Hstep.
      cbv zeta in Hstep. eexists. split; [exact Hg |].
      split; [exact Hstep |].
      cbn [SnakeEnv.state SnakeEnv.done SnakeEnv.death
           Snake.snake Snake.steps_total].
      split; [reflexivity |]. split; [discriminate |].
      intros _ _. repeat split; reflexivity.
Qed.

Lemma snake_step_after_get_action_witness :
  let risk_f : risk_oracle := fun _ _ _ => 0.75%float in
  let running s :=
    {| SnakeEnv.state := s; SnakeEnv.done := false;
       SnakeEnv.death := SnakeEnv.ALIVE |} in
  let g :=
    running {| Snake.snake := [(1, 1); (2, 1); (2, 0); (3, 0)];
               Snake.food := (3, 1); Snake.w := 4; Snake.h := 2;
               Snake.steps_since_food := 12; Snake.steps_total := 30 |} in
  let boxed :=
    running {| Snake.snake := [(0, 0); (0, 1); (1, 1); (1, 0); (2, 0)];
               Snake.food := (5, 5); Snake.w := 20; Snake.h := 20;
               Snake.steps_since_food := 3; Snake.steps_total := 10 |} in
  SnakeEnv.done g = false /\
  (exists ag' g',
      Snake.get_action risk_f (Snake.BaseAgent_init true) (SnakeEnv.state g)
      = Some (Some Snake.UP, ag') /\
      SnakeEnv.step [(5, 5)] g (Some Snake.UP) = Some g' /\
      hd_error (Snake.snake (SnakeEnv.state g')) = Some (1, 0) /\
      length (Snake.snake (SnakeEnv.state g')) = 4%nat) /\
  (exists ag' g',
      Snake.get_action risk_f (Snake.BaseAgent_init true)
        (SnakeEnv.state boxed) = Some (None, ag') /\
      SnakeEnv.step [(5, 5)] boxed None = Some g' /\
      SnakeEnv.done g' = true /\
      SnakeEnv.death g' = SnakeEnv.Collision).
Proof.
  intros risk_f running g boxed.
  assert (Hd : SnakeEnv.done g = false) by reflexivity.
  split; [exact Hd |]. split.
  - destruct (snake_step_after_get_action risk_f [(5, 5)]
                (Snake.BaseAgent_init true) g (1, 1)
                [(2, 1); (2, 0); (3, 0)] Hd eq_refl)
      as [a [ag' [g' [H1 [H2 [_ [H4 _]]]]]]].
    assert (Ha : a = Some Snake.UP).
    { assert (E : option_map fst
                    (Snake.get_action risk_f (Snake.BaseAgent_init true)
                       (SnakeEnv.state g)) = Some (Some Snake.UP))
        by (vm_compute; reflexivity).
      rewrite H1 in E. cbn [option_map fst] in E. congruence. }
    subst a. destruct (H4 Snake.UP eq_refl) as [K1 [K2 _]].
    exists ag', g'. split; [exact H1 |]. split; [exact H2 |].
    split; [exact K1 | exact K2].
  - destruct (snake_step_after_get_action risk_f [(5, 5)]
                (Snake.BaseAgent_init true) boxed (0, 0)
                [(0, 1); (1, 1); (1, 0); (2, 0)] eq_refl eq_refl)
      as [a [ag' [g' [H1 [H2 [_ [_ H5]]]]]]].
    assert (Ha : a = None).
    { assert (E : option_map fst
                    (Snake.get_action risk_f (Snake.BaseAgent_init true)
                       (SnakeEnv.state boxed)) = Some None)
        by (vm_compute; reflexivity).
      rewrite H1 in E. cbn [option_map fst] in E. congruence. }
    subst a. destruct (H5 eq_refl ltac:(discriminate)) as [K1 [K2 _]].
    exists ag', g'. split; [exact H1 |]. split; [exact H2 |].
    split; [exact K1 | exact K2].
Defined.

Lemma spawn_food_spec draws snake :
  let p := SnakeEnv._spawn_food draws snake in
  (In p (firstn 100 draws) /\ ~ In p snake) \/
  (p = (0, 0) /\ forall d, In d (firstn 100 draws) -> In d snake).
Proof.
  cbv zeta. unfold SnakeEnv._spawn_food.
  destruct (find (fun p => negb (mem p snake)) (firstn 100 draws))
    as [p |] eqn:E.
  - left. apply find_some in E. destruct E as [Hin Hp].
    split; [exact Hin |]. apply mem_not_In. apply negb_true_iff. exact Hp.
  - right. split; [reflexivity |]. intros d Hd.
    pose proof (find_none _ _ E d Hd) as Hn. cbv beta in Hn.
    apply negb_false_iff in Hn. apply mem_In. exact Hn.
Qed.

Lemma manhattan_step_one head m :
  SearchSpec.manhattan (SearchSpec.step head m) head = 1.
Proof.
  destruct head as [x y]. unfold SearchSpec.manhattan, SearchSpec.step.
  destruct m; cbn [SearchSpec.delta fst snd]; lia.
Qed.

(** X21: the shape of the snake under the moves of the agent.  When
    [get_action] returns a move and [step] takes it, a snake whose
    consecutive cells are grid neighbours stays so, a snake inside the grid
    stays inside, and a duplicate-free snake that does not cover the food
    stays duplicate-free.  The food moves only when eaten; the new food is
    then a drawn cell off the grown snake, or (0, 0) when the first 100
    draws all fall on the snake. *)
Theorem snake_step_keeps_shape :
  forall risk_f draws ag g m ag' g',
    SnakeEnv.done g = false ->
    Snake.get_action risk_f ag (SnakeEnv.state g) = Some (Some m, ag') ->
    SnakeEnv.step draws g (Some m) = Some g' ->
    let s := SnakeEnv.state g in
    let s' := SnakeEnv.state g' in
    (MoreSpec.chain (Snake.snake s) -> MoreSpec.chain (Snake.snake s')) /\
    ((forall c, In c (Snake.snake s) ->
        SearchSpec.in_grid (Snake.w s) (Snake.h s) c) ->
     forall c, In c (Snake.snake s') ->
        SearchSpec.in_grid (Snake.w s') (Snake.h s') c) /\
    (NoDup (Snake.snake s) -> ~ In (Snake.food s) (Snake.snake s) ->
     NoDup (Snake.snake s')) /\
    (~ In (Snake.food s) (Snake.snake s') -> Snake.food s' = Snake.food s) /\
    (In (Snake.food s) (Snake.snake s') -> ~ In (Snake.food s) (Snake.snake s) ->
     (In (Snake.food s') (firstn 100 draws) /\
      ~ In (Snake.food s') (Snake.snake s')) \/
     (Snake.food s' = (0, 0) /\
      forall d, In d (firstn 100 draws) -> In d (Snake.snake s'))).
Proof.
  intros risk_f draws ag g m ag' g' Hd Hg Hstep. cbv zeta.
  destruct (Snake.snake (SnakeEnv.state g)) as [| head rest] eqn:Hs;
    [unfold Snake.get_action in Hg; rewrite Hs in Hg; discriminate |].
  destruct (snake_get_action_some risk_f ag (SnakeEnv.state g) head rest Hs)
    as [a [ag1 [Hg1 [_ Hsome]]]].
  rewrite Hg in Hg1.
  assert (Ea : a = Some m) by congruence. subst a. clear Hg1.
  specialize (Hsome m eq_refl).
  pose proof (snake_step_move draws g m head rest Hd Hs Hsome) as Hmv.
  cbv zeta in Hmv. rewrite Hstep in Hmv.
  assert (Eg : g' = _) by (injection Hmv; intros E; exact E).
  clear Hmv. rewrite Eg.
  cbn [SnakeEnv.state Snake.snake Snake.food Snake.w Snake.h].
  apply passable_spec in Hsome. destruct Hsome as [Hgrid Hnin].
  set (s := SnakeEnv.state g) in *.
  set (n := SearchSpec.step head m) in *.
  pose proof (manhattan_step_one head m) as Hman. fold n in Hman.
  destruct (pos_eqb n (Snake.food s)) eqn:Ee.
  - apply pos_eqb_eq in Ee.
    split; [intros Hc; split; assumption |].
    split; [intros Hin c [<- | Hc]; [exact Hgrid | apply Hin; exact Hc] |].
    split; [intros Hnd Hf; constructor; [rewrite Ee; exact Hf | exact Hnd] |].
    split; [intros Hc; exfalso; apply Hc; left; exact Ee |].
    intros _ _. apply spawn_food_spec.
  - apply pos_eqb_neq in Ee.
    split.
    { intros Hc. apply removelast_chain in Hc.
      destruct rest as [| r1 rest]; [exact I |].
      rewrite removelast_cons2 in *. split; assumption. }
    split.
    { intros Hin c [<- | Hc]; [exact Hgrid |].
      apply Hin. apply (removelast_In (head :: rest)). exact Hc. }
    split.
    { intros Hnd _. constructor; [exact Hnin |].
      apply (removelast_NoDup (head :: rest)). exact Hnd. }
    split; [reflexivity |].
    intros [Hc | Hc] Hf; [congruence |].
    exfalso. apply Hf. apply (removelast_In (head :: rest)). exact Hc.
Qed.

Lemma snake_step_keeps_shape_witness :
  let risk_f : risk_oracle := fun _ _ _ => 0.25%float in
  let draws := [(1, 1); (0, 1)] in
  let g :=
    {| SnakeEnv.state :=
         {| Snake.snake := [(1, 1); (2, 1); (2, 0); (3, 0)];
            Snake.food := (1, 0); Snake.w := 4; Snake.h := 2;
            Snake.steps_since_food := 12; Snake.steps_total := 30 |};
       SnakeEnv.done := false; SnakeEnv.death := SnakeEnv.ALIVE |} in
  let g' :=
    {| SnakeEnv.state :=
         {| Snake.snake := [(1, 0); (1, 1); (2, 1); (2, 0); (3, 0)];
            Snake.food := (0, 1); Snake.w := 4; Snake.h := 2;
            Snake.steps_since_food := 0; Snake.steps_total := 31 |};
       SnakeEnv.done := false; SnakeEnv.death := SnakeEnv.ALIVE |} in
  SnakeEnv.done g = false /\
  Snake.get_action risk_f (Snake.BaseAgent_init true) (SnakeEnv.state g)
  = Some (Some Snake.UP,
          {| Snake.is_coase := true; Snake.panic_history := [];
             Snake.in_panic := false |}) /\
  SnakeEnv.step draws g (Some Snake.UP) = Some g' /\
  MoreSpec.chain (Snake.snake (SnakeEnv.state g')) /\
  NoDup (Snake.snake (SnakeEnv.state g')) /\
  ((In (Snake.food (SnakeEnv.state g')) (firstn 100 draws) /\
    ~ In (Snake.food (SnakeEnv.state g')) (Snake.snake (SnakeEnv.state g'))) \/
   (Snake.food (SnakeEnv.state g') = (0, 0) /\
    forall d, In d (firstn 100 draws) ->
              In d (Snake.snake (SnakeEnv.state g')))).
Proof.
  intros risk_f draws g g'.
  assert (Hd : SnakeEnv.done g = false) by reflexivity.
  assert (Hg : Snake.get_action risk_f (Snake.BaseAgent_init true)
                 (SnakeEnv.state g)
               = Some (Some Snake.UP,
                       {| Snake.is_coase := true; Snake.panic_history := [];
                          Snake.in_panic := false |}))
    by (vm_compute; reflexivity).
  assert (Hs : SnakeEnv.step draws g (Some Snake.UP) = Some g')
    by (vm_compute; reflexivity).
  assert (Hc : MoreSpec.chain (Snake.snake (SnakeEnv.state g)))
    by (vm_compute; repeat split).
  assert (Hn : NoDup (Snake.snake (SnakeEnv.state g)))
    by (repeat constructor; cbn; intuition congruence).
  assert (Hf : ~ In (Snake.food (SnakeEnv.state g))
                    (Snake.snake (SnakeEnv.state g)))
    by (cbn; intuition congruence).
  destruct (snake_step_keeps_shape risk_f draws (Snake.BaseAgent_init true)
              g Snake.UP _ g' Hd Hg Hs) as [Kc [_ [Kn [_ Ke]]]].
  split; [exact Hd |]. split; [exact Hg |]. split; [exact Hs |].
  split; [exact (Kc Hc) |]. split; [exact (Kn Hn Hf) |].
  apply Ke; [left; reflexivity | exact Hf].
Defined.

Lemma snake_step_total draws g a head rest :
  SnakeEnv.done g = false ->
  Snake.snake (SnakeEnv.state g) = head :: rest ->
  exists g',
    SnakeEnv.step draws g a = Some g' /\
    Snake.steps_total (SnakeEnv.state g')
    = Snake.steps_total (SnakeEnv.state g) + 1 /\
    Snake.snake (SnakeEnv.state g') <> [] /\
    (SnakeEnv.done g' = false ->
     SnakeEnv.death g' = SnakeEnv.death g /\
     Snake.steps_since_food (SnakeEnv.state g')
     < Snake.MAX_STEPS_WITHOUT_FOOD).
Proof.
  intros Hd Hs. unfold SnakeEnv.step. rewrite Hd, Hs. cbv zeta.
  destruct (negb _ || mem _ _).
  - eexists. split; [reflexivity |].
    cbn [SnakeEnv.state SnakeEnv.done SnakeEnv.death Snake.snake
         Snake.steps_total Snake.steps_since_food].
    split; [reflexivity |]. split; [discriminate | discriminate].
  - eexists. split; [reflexivity |].
    cbn [SnakeEnv.state SnakeEnv.done SnakeEnv.death Snake.snake
         Snake.steps_total Snake.steps_since_food].
    split; [reflexivity |]. split.
    + rewrite removelast_cons2. destruct (pos_eqb _ _); discriminate.
    + intros Hst. rewrite Hst. split; [reflexivity |].
      apply Z.leb_gt. exact Hst.
Qed.

Lemma play_terminates risk_f draws :
  forall fuel ag g,
    Snake.snake (SnakeEnv.state g) <> [] ->
    (Z.to_nat (Snake.MAX_TOTAL_STEPS - Snake.steps_total (SnakeEnv.state g))
     < fuel)%nat ->
    exists ag' g',
      SnakeEnv.play fuel risk_f draws ag g = Ret (Some (ag', g')) /\
      (SnakeEnv.done g' = true \/
       Snake.MAX_TOTAL_STEPS <= Snake.steps_total (SnakeEnv.state g')) /\
      Snake.steps_total (SnakeEnv.state g)
      <= Snake.steps_total (SnakeEnv.state g') /\
      (Snake.steps_total (SnakeEnv.state g) <= Snake.MAX_TOTAL_STEPS ->
       Snake.steps_total (SnakeEnv.state g') <= Snake.MAX_TOTAL_STEPS) /\
      Snake.snake (SnakeEnv.state g') <> [].
Proof.
  induction fuel as [| fuel IH]; intros ag g Hne Hfuel; [lia |].
  cbn [SnakeEnv.play].
  destruct (SnakeEnv.done g) eqn:Hd; cbn [negb andb].
  - exists ag, g. split; [reflexivity |]. split; [left; exact Hd |].
    split; [lia |]. split; [auto | exact Hne].
  - destruct (Snake.steps_total (SnakeEnv.state g) <? Snake.MAX_TOTAL_STEPS)
      eqn:Hlt.
    + apply Z.ltb_lt in Hlt.
      destruct (Snake.snake (SnakeEnv.state g)) as [| head rest] eqn:Hs;
        [contradiction |].
      destruct (snake_get_action_some risk_f ag (SnakeEnv.state g) head rest Hs)
        as [a [ag1 [Hg _]]].
      rewrite Hg.
      destruct (snake_step_total
                  (draws (Snake.steps_total (SnakeEnv.state g)))
                  g a head rest Hd Hs) as [g1 [Hst [Htot [Hne1 _]]]].
      rewrite Hst.
      destruct (IH ag1 g1 Hne1 ltac:(rewrite Htot; lia))
        as [ag' [g' [Hp [Hend [Hle [Hmax Hne']]]]]].
      exists ag', g'. split; [exact Hp |]. split; [exact Hend |].
      split; [lia |]. split; [intros _; apply Hmax; lia | exact Hne'].
    + apply Z.ltb_ge in Hlt.
      exists ag, g. split; [reflexivity |]. split; [right; exact Hlt |].
      split; [lia |]. split; [auto | exact Hne].
Qed.

(** X22: the run loop of [run_experiment] ends.  From any game with a
    non-empty snake, [play] returns within [play_fuel] iterations, without
    an [IndexError]; when it returns the game is done or has reached
    [MAX_TOTAL_STEPS], the step counter has not gone back and, if it
    started at or below the limit, has not passed it. *)
Theorem play_returns :
  forall risk_f draws ag g,
    Snake.snake (SnakeEnv.state g) <> [] ->
    exists ag' g',
      SnakeEnv.play (SnakeEnv.play_fuel g) risk_f draws ag g
      = Ret (Some (ag', g')) /\
      (SnakeEnv.done g' = true \/
       Snake.MAX_TOTAL_STEPS <= Snake.steps_total (SnakeEnv.state g')) /\
      Snake.steps_total (SnakeEnv.state g)
      <= Snake.steps_total (SnakeEnv.state g') /\
      (Snake.steps_total (SnakeEnv.state g) <= Snake.MAX_TOTAL_STEPS ->
       Snake.steps_total (SnakeEnv.state g') <= Snake.MAX_TOTAL_STEPS).
Proof.
  intros risk_f draws ag g Hne.
  destruct (play_terminates risk_f draws (SnakeEnv.play_fuel g) ag g Hne
              ltac:(unfold SnakeEnv.play_fuel; lia))
    as [ag' [g' [H1 [H2 [H3 [H4 _]]]]]].
  exists ag', g'. repeat split; assumption.
Qed.

Lemma play_returns_witness :
  let g := SnakeEnv.SnakeGame_init [(3, 3)] in
  Snake.snake (SnakeEnv.state g) <> [] /\
  exists ag' g',
    SnakeEnv.play (SnakeEnv.play_fuel g) (fun _ _ _ => 0.75%float) (fun _ => [(5, 5)])
      (Snake.BaseAgent_init true) g
    = Ret (Some (ag', g')) /\
    (SnakeEnv.done g' = true \/
     Snake.MAX_TOTAL_STEPS <= Snake.steps_total (SnakeEnv.state g')).
Proof.
  intros g.
  assert (Hne : Snake.snake (SnakeEnv.state g) <> []) by discriminate.
  split; [exact Hne |].
  destruct (play_returns (fun _ _ _ => 0.75%float) (fun _ => [(5, 5)])
              (Snake.BaseAgent_init true) g Hne)
    as [ag' [g' [H1 [H2 _]]]].
  exists ag', g'. split; [exact H1 | exact H2].
Defined.

(** ** Vacuum-X v0.3: the world under the agent *)

Lemma vacuum_move_elsewhere p a :
  a <> VacuumX.STAY ->
  pos_eqb (VacuumX.move p a) p = false /\
  SearchSpec.manhattan (VacuumX.move p a) p = 1.
Proof.
  intros Ha. destruct p as [x y]. unfold VacuumX.move, SearchSpec.manhattan.
  split; [apply pos_eqb_neq |];
    destruct a; cbn [VacuumX.DIRS fst snd]; try contradiction;
    try lia; intros E; inversion E; lia.
Qed.

Lemma vacuum_move_stay p : VacuumX.move p VacuumX.STAY = p.
Proof.
  destruct p as [x y]. unfold VacuumX.move. cbn [VacuumX.DIRS fst snd].
  f_equal; lia.
Qed.

Lemma vacuum_step_moved_iff world rc action :
  VacuumEnv.res_moved (VacuumEnv.step world rc action) = true <->
  action <> VacuumX.STAY /\
  VacuumX.is_free world (VacuumX.move (VacuumX.pos world) action) = true.
Proof.
  unfold VacuumEnv.step. cbv zeta. cbn [VacuumEnv.res_moved].
  destruct (VacuumX.is_free world (VacuumX.move (VacuumX.pos world) action))
    eqn:Ef.
  - destruct action;
      try (match goal with
           | |- context [VacuumX.move _ ?a] =>
               destruct (vacuum_move_elsewhere (VacuumX.pos world) a
                           ltac:(discriminate)) as [-> _]
           end;
           cbn [negb]; split; [intros _; split; [discriminate | reflexivity]
                              | reflexivity]).
    rewrite vacuum_move_stay, pos_eqb_refl. cbn [negb].
    split; [discriminate | intros [Hc _]; contradiction].
  - split; [discriminate | intros [_ Hc]; discriminate].
Qed.

(** X23: what [VacuumWorld.step] does.  The agent moves exactly when the
    action is not STAY and its target cell is free; then it stands on that
    cell, one grid step away, and otherwise it stays where it was; a free
    position stays free, the grid being constant.  The battery is refilled
    on the dock and loses one unit elsewhere, so it never exceeds
    [BATTERY_MAX] once at most that, and the step reports [done] exactly
    when the battery is exhausted.  The escape action moves the agent
    unless it is STAY. *)
Theorem vacuum_world_step_effect :
  forall world rc action,
    let r := VacuumEnv.step world rc action in
    let world' := VacuumEnv.res_world r in
    (VacuumEnv.res_moved r = true <->
     action <> VacuumX.STAY /\
     VacuumX.is_free world (VacuumX.move (VacuumX.pos world) action)
     = true) /\
    (VacuumEnv.res_moved r = true <->
     VacuumX.pos world' <> VacuumX.pos world) /\
    (VacuumEnv.res_moved r = false ->
     VacuumX.pos world' = VacuumX.pos world) /\
    (VacuumEnv.res_moved r = true ->
     VacuumX.pos world' = VacuumX.move (VacuumX.pos world) action /\
     VacuumX.is_free world (VacuumX.pos world') = true /\
     SearchSpec.manhattan (VacuumX.pos world') (VacuumX.pos world) = 1) /\
    (forall p, VacuumX.is_free world' p = VacuumX.is_free world p) /\
    (VacuumX.is_free world (VacuumX.pos world) = true ->
     VacuumX.is_free world' (VacuumX.pos world') = true) /\
    VacuumX.battery world'
    = (if pos_eqb (VacuumX.pos world') (VacuumX.dock world)
       then VacuumX.BATTERY_MAX else VacuumX.battery world - 1) /\
    (VacuumX.battery world <= VacuumX.BATTERY_MAX ->
     VacuumX.battery world' <= VacuumX.BATTERY_MAX) /\
    (VacuumEnv.res_done r = true <-> VacuumX.battery world' <= 0) /\
    VacuumX.steps world' = VacuumX.steps world + 1 /\
    (VacuumEnv.res_moved
       (VacuumEnv.step world rc (VacuumX.choose_escape_action world)) = true
     <-> VacuumX.choose_escape_action world <> VacuumX.STAY).
Proof.
  intros world rc action r world'.
  pose proof (vacuum_step_moved_iff world rc action) as Hmv. fold r in Hmv.
  assert (Hpos : VacuumX.pos world'
                 = if VacuumX.is_free world
                        (VacuumX.move (VacuumX.pos world) action)
                   then VacuumX.move (VacuumX.pos world) action
                   else VacuumX.pos world) by reflexivity.
  assert (Hfree : forall p,
             VacuumX.is_free world' p = VacuumX.is_free world p)
    by reflexivity.
  split; [exact Hmv |].
  split; [| split; [| split; [| split; [exact Hfree | split; [|
            split; [reflexivity |
            split; [| split; [| split; [reflexivity |]]]]]]]]].
  - rewrite Hmv, Hpos. split.
    + intros [Hns Hf]. rewrite Hf.
      apply pos_eqb_neq. apply vacuum_move_elsewhere. exact Hns.
    + destruct (VacuumX.is_free world
                  (VacuumX.move (VacuumX.pos world) action)) eqn:Ef;
        [| intros Hc; contradiction].
      intros Hne. split; [| reflexivity].
      intros ->. apply Hne. apply vacuum_move_stay.
  - intros Hm. rewrite Hpos.
    destruct (VacuumX.is_free world
                (VacuumX.move (VacuumX.pos world) action)) eqn:Ef;
      [| reflexivity].
    destruct action;
      try (rewrite (proj2 Hmv) in Hm;
           [discriminate | split; [discriminate | reflexivity]]).
    apply vacuum_move_stay.
  - intros Hm. apply Hmv in Hm. destruct Hm as [Hns Hf].
    rewrite Hpos, Hf. split; [reflexivity |]. split; [exact Hf |].
    apply vacuum_move_elsewhere. exact Hns.
  - intros Hf0. rewrite Hfree, Hpos.
    destruct (VacuumX.is_free world
                (VacuumX.move (VacuumX.pos world) action)) eqn:Ef;
      assumption.
  - intros Hb.
    change (VacuumX.battery world')
      with (if pos_eqb (VacuumX.pos world') (VacuumX.dock world)
            then VacuumX.BATTERY_MAX else VacuumX.battery world - 1).
    destruct (pos_eqb _ _); lia.
  - change (VacuumEnv.res_done r) with (VacuumX.battery world' <=? 0).
    apply Z.leb_le.
  - rewrite vacuum_step_moved_iff. split; [intros [H _]; exact H |].
    intros Hns. split; [exact Hns |].
    unfold VacuumX.choose_escape_action in *.
    destruct (escape_loop_spec world
                [VacuumX.UP; VacuumX.DOWN; VacuumX.LEFT; VacuumX.RIGHT]
                None (-1) ltac:(lia)) as [_ H2].
    destruct (VacuumX.escape_loop world
                [VacuumX.UP; VacuumX.DOWN; VacuumX.LEFT; VacuumX.RIGHT]
                None (-1)) as [a |]; [| contradiction].
    destruct (H2 a eq_refl) as [Hb | [_ Hf]]; [discriminate | exact Hf].
Qed.

Lemma dock_candidates_closer world a :
  In a (VacuumEnv.dock_candidates world) ->
  a <> VacuumX.STAY /\
  SearchSpec.manhattan (VacuumX.move (VacuumX.pos world) a)
    (VacuumX.dock world)
  = SearchSpec.manhattan (VacuumX.pos world) (VacuumX.dock world) - 1.
Proof.
  unfold VacuumEnv.dock_candidates, SearchSpec.manhattan, VacuumX.move.
  destruct (VacuumX.pos world) as [px py].
  destruct (VacuumX.dock world) as [tx ty]. cbn [fst snd].
  intros Hin. repeat (apply in_app_or in Hin; destruct Hin as [Hin | Hin]);
    [destruct (px <? tx) eqn:E | destruct (tx <? px) eqn:E
     | destruct (py <? ty) eqn:E | destruct (ty <? py) eqn:E];
    try contradiction; destruct Hin as [<- | []];
    apply Z.ltb_lt in E; cbn [VacuumX.DIRS fst snd];
    (split; [discriminate | lia]).
Qed.

(** X24: the homing helper.  Whatever order the shuffle gives the
    candidates, [greedy_to_dock_action] returns a candidate whose target
    cell is free whenever there is one, and the step on it brings the
    agent one unit closer to the dock in Manhattan distance; when no
    candidate is free, in particular on the dock, where there is none, the
    result is the random fallback. *)
Theorem greedy_to_dock_action_homes :
  forall shuffle fallback world rc,
    (forall l a, In a (shuffle l) <-> In a l) ->
    let a := VacuumEnv.greedy_to_dock_action shuffle fallback world in
    ((exists c, In c (VacuumEnv.dock_candidates world) /\
                VacuumX.is_free world (VacuumX.move (VacuumX.pos world) c)
                = true) ->
     In a (VacuumEnv.dock_candidates world) /\
     VacuumX.is_free world (VacuumX.move (VacuumX.pos world) a) = true /\
     VacuumEnv.res_moved (VacuumEnv.step world rc a) = true /\
     SearchSpec.manhattan
       (VacuumX.pos (VacuumEnv.res_world (VacuumEnv.step world rc a)))
       (VacuumX.dock world)
     = SearchSpec.manhattan (VacuumX.pos world) (VacuumX.dock world) - 1) /\
    ((forall c, In c (VacuumEnv.dock_candidates world) ->
                VacuumX.is_free world (VacuumX.move (VacuumX.pos world) c)
                = false) ->
     a = fallback) /\
    (VacuumX.pos world = VacuumX.dock world -> a = fallback).
Proof.
  intros shuffle fallback world rc Hsh a.
  unfold VacuumEnv.greedy_to_dock_action in a.
  assert (Hnone : (forall c, In c (VacuumEnv.dock_candidates world) ->
                     VacuumX.is_free world
                       (VacuumX.move (VacuumX.pos world) c) = false) ->
                  a = fallback).
  { intros Hall. subst a.
    destruct (find _ (shuffle (VacuumEnv.dock_candidates world)))
      as [c |] eqn:E; [| reflexivity].
    apply find_some in E. destruct E as [Hin Hf].
    apply (proj1 (Hsh _ _)) in Hin. rewrite (Hall c Hin) in Hf. discriminate. }
  split; [| split; [exact Hnone |]].
  - intros [c [Hc Hf]]. subst a.
    destruct (find (fun a => VacuumX.is_free world
                               (VacuumX.move (VacuumX.pos world) a))
                   (shuffle (VacuumEnv.dock_candidates world)))
      as [c' |] eqn:E.
    + apply find_some in E. destruct E as [Hin Hf'].
      apply (proj1 (Hsh _ _)) in Hin.
      destruct (dock_candidates_closer world c' Hin) as [Hns Hman].
      assert (Hmv : VacuumEnv.res_moved (VacuumEnv.step world rc c') = true)
        by (apply vacuum_step_moved_iff; split; assumption).
      split; [exact Hin |]. split; [exact Hf' |]. split; [exact Hmv |].
      unfold VacuumEnv.step. cbv zeta.
      cbn [VacuumEnv.res_world VacuumX.pos]. rewrite Hf'. exact Hman.
    + exfalso. pose proof (find_none _ _ E c (proj2 (Hsh _ c) Hc)) as Hn.
      cbv beta in Hn. congruence.
  - intros Hd. apply Hnone. intros c Hc.
    exfalso. revert Hc. unfold VacuumEnv.dock_candidates. rewrite Hd.
    rewrite !Z.ltb_irrefl. intros [].
Qed.

Lemma greedy_to_dock_action_homes_witness :
  let world :=
    {| VacuumX.w := 12; VacuumX.h := 12; VacuumX.grid := PanicSpec.pocket_grid;
       VacuumX.dock := (0, 0); VacuumX.pos := (0, 2);
       VacuumX.battery := 15; VacuumX.steps := 45 |} in
  (forall l a, In a ((fun l : list VacuumX.Action => l) l) <-> In a l) /\
  VacuumX.pos world = VacuumX.pos world /\
  SearchSpec.manhattan
    (VacuumX.pos
       (VacuumEnv.res_world
          (VacuumEnv.step world 0
             (VacuumEnv.greedy_to_dock_action (fun l => l) VacuumX.STAY
                world))))
    (VacuumX.dock world)
  = SearchSpec.manhattan (VacuumX.pos world) (VacuumX.dock world) - 1.
Proof.
  intros world.
  assert (Hsh : forall l a,
             In a ((fun l : list VacuumX.Action => l) l) <-> In a l)
    by (intros l a; cbv beta; tauto).
  split; [exact Hsh |]. split; [reflexivity |].
  apply (proj1 (greedy_to_dock_action_homes (fun l => l) VacuumX.STAY
                  world 0 Hsh)).
  exists VacuumX.UP. split; [vm_compute; auto | vm_compute; reflexivity].
Defined.

(** ** Vacuum-X v0.3: the loop of [run_single] *)

Lemma vacuum_run_iter_fields svd t d st :
  let hist := VacuumX.hist_update VacuumX.SVD_WINDOW
                (VacuumEnv.gate_hist (VacuumEnv.rs_agent st))
                (VacuumX.pos (VacuumEnv.rs_world st)) in
  let o := VacuumEnv.observe svd hist (VacuumEnv.rs_world st) d in
  let r := VacuumX.act (VacuumEnv.agent (VacuumEnv.rs_agent st)) t o in
  let res := VacuumEnv.step (VacuumEnv.rs_world st)
               (VacuumEnv.rs_recharge_cycles st) (fst r) in
  let moved_hist :=
    VacuumEnv.moved_update (VacuumEnv.rs_moved_hist st)
      (if VacuumEnv.res_moved res then 1 else 0) in
  VacuumEnv.run_iter svd t d st
  = ({| VacuumEnv.rs_world := VacuumEnv.res_world res;
        VacuumEnv.rs_recharge_cycles := VacuumEnv.res_recharge_cycles res;
        VacuumEnv.rs_agent :=
          {| VacuumEnv.gate_hist := hist; VacuumEnv.agent := snd r |};
        VacuumEnv.rs_moved_hist := moved_hist;
        VacuumEnv.rs_deadlock_steps :=
          if (length moved_hist =? VacuumEnv.STUCK_WINDOW)%nat
             && (VacuumEnv.zsum moved_hist =? 0)
          then VacuumEnv.rs_deadlock_steps st + 1
          else VacuumEnv.rs_deadlock_steps st;
        VacuumEnv.rs_useful_moves :=
          if VacuumEnv.res_moved res then VacuumEnv.rs_useful_moves st + 1
          else VacuumEnv.rs_useful_moves st |},
     VacuumEnv.res_done res).
Proof.
  cbv zeta. unfold VacuumEnv.run_iter, VacuumEnv.act_full. cbv zeta.
  destruct (VacuumX.act _ t _) as [a ag']. reflexivity.
Qed.

Lemma zsum_ge (l : list Z) (x : Z) :
  Forall (fun y => 0 <= y) l -> In x l -> x <= VacuumEnv.zsum l.
Proof.
  induction 1 as [| y l Hy Hall IH]; [intros [] |].
  cbn [VacuumEnv.zsum fold_right]. fold (VacuumEnv.zsum l).
  assert (H0 : 0 <= VacuumEnv.zsum l).
  { clear IH. induction Hall as [| z l Hz _ IHl]; [cbn; lia |].
    cbn [VacuumEnv.zsum fold_right]. fold (VacuumEnv.zsum l). lia. }
  intros [<- | Hin]; [lia |]. specialize (IH Hin). lia.
Qed.

Lemma moved_update_spec hist x :
  Forall (fun y => 0 <= y) hist -> 0 <= x ->
  Forall (fun y => 0 <= y) (VacuumEnv.moved_update hist x) /\
  In x (VacuumEnv.moved_update hist x).
Proof.
  intros Hall Hx. unfold VacuumEnv.moved_update.
  assert (Happ : Forall (fun y => 0 <= y) (hist ++ [x]))
    by (apply Forall_app; split; [exact Hall | repeat constructor; exact Hx]).
  destruct (length hist <? VacuumEnv.STUCK_WINDOW)%nat eqn:E.
  - split; [exact Happ | apply in_or_app; right; left; reflexivity].
  - apply Nat.ltb_ge in E. destruct hist as [| y hist];
      [unfold VacuumEnv.STUCK_WINDOW in E; cbn in E; lia |].
    cbn [app tl]. split.
    + inversion Happ; assumption.
    + apply in_or_app. right. left. reflexivity.
Qed.

Lemma vacuum_run_loop_spec svd draws :
  forall t st,
    Forall (fun y => 0 <= y) (VacuumEnv.rs_moved_hist st) ->
    let st' := VacuumEnv.run_loop svd t draws st in
    let trace := VacuumEnv.run_trace svd t draws st in
    VacuumEnv.agent (VacuumEnv.rs_agent st')
    = VacuumX.run_from t (VacuumEnv.agent (VacuumEnv.rs_agent st)) trace /\
    (length trace <= length draws)%nat /\
    VacuumX.steps (VacuumEnv.rs_world st')
    = VacuumX.steps (VacuumEnv.rs_world st) + Z.of_nat (length trace) /\
    VacuumEnv.rs_useful_moves st <= VacuumEnv.rs_useful_moves st' /\
    VacuumEnv.rs_deadlock_steps st <= VacuumEnv.rs_deadlock_steps st' /\
    (VacuumEnv.rs_useful_moves st' - VacuumEnv.rs_useful_moves st)
    + (VacuumEnv.rs_deadlock_steps st' - VacuumEnv.rs_deadlock_steps st)
    <= Z.of_nat (length trace).
Proof.
  induction draws as [| d rest IH]; intros t st Hmh;
    cbn [VacuumEnv.run_loop VacuumEnv.run_trace].
  - cbn [VacuumX.run_from length]. repeat split; lia.
  - pose proof (vacuum_run_iter_fields svd t d st) as Hit.
    cbv zeta in Hit. rewrite Hit. clear Hit.
    set (o := VacuumEnv.observe svd _ (VacuumEnv.rs_world st) d).
    set (r := VacuumX.act (VacuumEnv.agent (VacuumEnv.rs_agent st)) t o).
    set (res := VacuumEnv.step (VacuumEnv.rs_world st)
                  (VacuumEnv.rs_recharge_cycles st) (fst r)).
    set (x := if VacuumEnv.res_moved res then 1 else 0).
    destruct (moved_update_spec (VacuumEnv.rs_moved_hist st) x Hmh
                ltac:(subst x; destruct (VacuumEnv.res_moved res); lia))
      as [Hmh' Hin].
    set (mh := VacuumEnv.moved_update (VacuumEnv.rs_moved_hist st) x) in *.
    pose proof (zsum_ge mh x Hmh' Hin) as Hsum.
    set (dl := (length mh =? VacuumEnv.STUCK_WINDOW)%nat
               && (VacuumEnv.zsum mh =? 0)).
    assert (Hone : (if VacuumEnv.res_moved res then 1 else 0)
                   + (if dl then 1 else 0) <= 1).
    { subst dl x. destruct (VacuumEnv.res_moved res);
        [| destruct (_ && _); lia].
      destruct (VacuumEnv.zsum mh =? 0) eqn:Ez;
        [apply Z.eqb_eq in Ez; lia |].
      rewrite andb_false_r. lia. }
    assert (Hstep : VacuumX.steps (VacuumEnv.res_world res)
                    = VacuumX.steps (VacuumEnv.rs_world st) + 1)
      by reflexivity.
    destruct (VacuumEnv.res_done res).
    + cbv zeta.
      cbn [VacuumX.run_from length VacuumEnv.rs_agent VacuumEnv.agent
           VacuumEnv.rs_world VacuumEnv.rs_useful_moves
           VacuumEnv.rs_deadlock_steps].
      split; [reflexivity |]. split; [lia |]. split; [lia |].
      destruct (VacuumEnv.res_moved res); destruct dl; repeat split; lia.
    + match goal with
      | |- context [VacuumEnv.run_loop svd (t + 1) rest ?s1] =>
          specialize (IH (t + 1) s1 Hmh')
      end.
      cbv zeta in IH.
      cbn [VacuumEnv.rs_agent VacuumEnv.agent VacuumEnv.rs_world
           VacuumEnv.rs_useful_moves VacuumEnv.rs_deadlock_steps] in IH.
      destruct IH as [I1 [I2 [I3 [I4 [I5 I6]]]]].
      cbv zeta. cbn [VacuumX.run_from length].
      split; [exact I1 |]. split; [lia |]. split; [lia |].
      destruct (VacuumEnv.res_moved res); destruct dl; repeat split; lia.
Qed.

Lemma vacuum_run_trace_obs svd draws :
  forall t st,
    1 <= VacuumX.battery (VacuumEnv.rs_world st) ->
    Forall (fun o =>
              1 <= VacuumX.battery (VacuumX.o_world o) /\
              ((0 <= VacuumX.o_dt o)%Q /\ (VacuumX.o_dt o <= 1)%Q))
           (VacuumEnv.run_trace svd t draws st) /\
    forall i o,
      nth_error (VacuumEnv.run_trace svd t draws st) i = Some o ->
      VacuumX.steps (VacuumX.o_world o)
      = VacuumX.steps (VacuumEnv.rs_world st) + Z.of_nat i.
Proof.
  induction draws as [| d rest IH]; intros t st Hb;
    cbn [VacuumEnv.run_trace].
  - split; [constructor | intros [| i] o E; discriminate].
  - pose proof (vacuum_run_iter_fields svd t d st) as Hit.
    cbv zeta in Hit. rewrite Hit. clear Hit.
    set (o0 := VacuumEnv.observe svd _ (VacuumEnv.rs_world st) d).
    set (r := VacuumX.act (VacuumEnv.agent (VacuumEnv.rs_agent st)) t o0).
    set (res := VacuumEnv.step (VacuumEnv.rs_world st)
                  (VacuumEnv.rs_recharge_cycles st) (fst r)).
    assert (Ho0 : 1 <= VacuumX.battery (VacuumX.o_world o0) /\
                  ((0 <= VacuumX.o_dt o0)%Q /\ (VacuumX.o_dt o0 <= 1)%Q)).
    { split; [exact Hb |]. apply vacuum_panic_range. }
    assert (Hs0 : VacuumX.steps (VacuumX.o_world o0)
                  = VacuumX.steps (VacuumEnv.rs_world st)) by reflexivity.
    assert (Hdone : VacuumEnv.res_done res
                    = (VacuumX.battery (VacuumEnv.res_world res) <=? 0))
      by reflexivity.
    assert (Hstep : VacuumX.steps (VacuumEnv.res_world res)
                    = VacuumX.steps (VacuumEnv.rs_world st) + 1)
      by reflexivity.
    destruct (VacuumEnv.res_done res).
    + split; [repeat constructor; apply Ho0 |].
      intros [| [| i]] o E; cbn in E; try discriminate.
      inversion E; subst o. lia.
    + symmetry in Hdone. apply Z.leb_gt in Hdone.
      match goal with
      | |- context [VacuumEnv.run_trace svd (t + 1) rest ?s1] =>
          destruct (IH (t + 1) s1 ltac:(cbn [VacuumEnv.rs_world]; lia))
            as [I1 I2]
      end.
      cbn [VacuumEnv.rs_world] in I2.
      split; [constructor; [exact Ho0 | exact I1] |].
      intros [| i] o E; cbn [nth_error] in E.
      * inversion E; subst o. lia.
      * rewrite (I2 i o E). lia.
Qed.

Lemma vacuum_run_trace_readings svd draws :
  forall t st,
    Forall (fun o => (0 <= VacuumX.o_dt o)%Q /\ (VacuumX.o_dt o <= 1)%Q)
           (VacuumEnv.run_trace svd t draws st).
Proof.
  induction draws as [| d rest IH]; intros t st;
    cbn [VacuumEnv.run_trace]; [constructor |].
  destruct (VacuumEnv.run_iter svd t d st) as [st1 fin].
  destruct fin; constructor;
    try apply vacuum_panic_range; [constructor | apply IH].
Qed.

(** X25: the loop of [run_single] for the StructGate agent on any world,
    SVD and draws.  The agent it ends with is the agent that [act] yields
    over the observations of the loop, with call index [t] counting from 0;
    every observed risk reading lies in [0, 1], so the bounds on the
    monitor hold in every run.  The world has made one step per call, at
    most [max_steps]; a step counts as useful or as deadlocked but never
    both, so the two counters together are at most the number of steps.
    From a battery of at least 1 every call sees a battery of at least 1,
    and from a step counter of 0 the call index equals [world.steps]. *)
Theorem vacuum_run_single_composition :
  forall svd world draws,
    let st := VacuumEnv.run_single svd world draws in
    let trace :=
      VacuumEnv.run_trace svd 0 draws (VacuumEnv.RunState_init world) in
    VacuumEnv.agent (VacuumEnv.rs_agent st) = VacuumX.run_single trace /\
    Forall (fun o => (0 <= VacuumX.o_dt o)%Q /\ (VacuumX.o_dt o <= 1)%Q)
           trace /\
    (forall i,
        (VacuumX.mon_lpi (VacuumX.mon (PanicSpec.vacuum_at trace i))
         <= 82 # 1000)%Q) /\
    (length trace <= length draws)%nat /\
    VacuumX.steps (VacuumEnv.rs_world st)
    = VacuumX.steps world + Z.of_nat (length trace) /\
    0 <= VacuumEnv.rs_useful_moves st /\
    0 <= VacuumEnv.rs_deadlock_steps st /\
    VacuumEnv.rs_useful_moves st + VacuumEnv.rs_deadlock_steps st
    <= Z.of_nat (length trace) /\
    (1 <= VacuumX.battery world ->
     Forall (fun o => 1 <= VacuumX.battery (VacuumX.o_world o)) trace) /\
    (1 <= VacuumX.battery world -> VacuumX.steps world = 0 ->
     forall i o, nth_error trace i = Some o ->
                 VacuumX.steps (VacuumX.o_world o) = Z.of_nat i).
Proof.
  intros svd world draws st trace.
  destruct (vacuum_run_loop_spec svd draws 0 (VacuumEnv.RunState_init world)
              (Forall_nil _)) as [H1 [H2 [H3 [H4 [H5 H6]]]]].
  cbv zeta in H1, H2, H3, H4, H5, H6.
  subst st. unfold VacuumEnv.run_single. fold trace in H1, H2, H3, H6.
  cbn [VacuumEnv.RunState_init VacuumEnv.rs_agent VacuumEnv.agent
       VacuumEnv.AgentB_full_init VacuumEnv.rs_world
       VacuumEnv.rs_useful_moves VacuumEnv.rs_deadlock_steps]
    in H1, H3, H4, H5, H6.
  assert (Hdt : Forall (fun o => (0 <= VacuumX.o_dt o)%Q /\
                                 (VacuumX.o_dt o <= 1)%Q) trace).
  { apply vacuum_run_trace_readings. }
  split; [exact H1 |]. split; [exact Hdt |].
  split; [intros i; apply (vacuum_monitor_run trace Hdt i) |].
  split; [exact H2 |]. split; [exact H3 |].
  split; [lia |]. split; [lia |]. split; [lia |].
  split.
  - intros Hb.
    destruct (vacuum_run_trace_obs svd draws 0
                (VacuumEnv.RunState_init world) Hb) as [Hall _].
    fold trace in Hall. rewrite Forall_forall in *.
    intros o Ho. apply (Hall o Ho).
  - intros Hb Hs i o E.
    destruct (vacuum_run_trace_obs svd draws 0
                (VacuumEnv.RunState_init world) Hb) as [_ Hst].
    fold trace in Hst. rewrite (Hst i o E).
    cbn [VacuumEnv.RunState_init VacuumEnv.rs_world]. lia.
Qed.

Lemma vacuum_run_single_composition_witness :
  let world :=
    {| VacuumX.w := 12; VacuumX.h := 12; VacuumX.grid := PanicSpec.pocket_grid;
       VacuumX.dock := (0, 0); VacuumX.pos := (5, 5);
       VacuumX.battery := 60; VacuumX.steps := 0 |} in
  let d :=
    {| VacuumEnv.d_random := VacuumX.UP;
       VacuumEnv.d_shuffle := fun l => l;
       VacuumEnv.d_fallback := VacuumX.STAY |} in
  1 <= VacuumX.battery world /\
  Forall (fun o => 1 <= VacuumX.battery (VacuumX.o_world o))
         (VacuumEnv.run_trace (fun _ => None) 0 [d; d; d]
            (VacuumEnv.RunState_init world)).
Proof.
  intros world d.
  assert (Hb : 1 <= VacuumX.battery world) by (cbn; lia).
  split; [exact Hb |].
  destruct (vacuum_run_single_composition (fun _ => None) world [d; d; d])
    as [_ [_ [_ [_ [_ [_ [_ [_ [H _]]]]]]]]].
  exact (H Hb).
Defined.

(** ** Vacuum-X v0.4: the loop of [run_alpha] *)

Lemma frontier_run_loop_eq svd draws st :
  FrontierEnv.run_loop svd draws st
  = if Frontier.done (FrontierEnv.view (FrontierEnv.rs_world st)) then Ret st
    else
      match draws with
      | [] => Timeout
      | d :: rest =>
          let hist := Frontier.hist_update
                        (FrontierEnv.sg_hist (FrontierEnv.rs_agent st))
                        (FrontierEnv.pos (FrontierEnv.rs_world st)) in
          let o := FrontierEnv.observe svd hist (FrontierEnv.rs_world st) d in
          let r := Frontier.choose
                     (FrontierEnv.agent (FrontierEnv.rs_agent st)) o in
          FrontierEnv.run_loop svd rest
            {| FrontierEnv.rs_world :=
                 FrontierEnv.step (FrontierEnv.rs_world st) (fst r);
               FrontierEnv.rs_agent :=
                 {| FrontierEnv.sg_hist := hist;
                    FrontierEnv.agent := snd r |};
               FrontierEnv.rs_useful_steps :=
                 if Frontier.Mode_eqb (Frontier.mode (snd r)) Frontier.NORMAL
                 then FrontierEnv.rs_useful_steps st + 1
                 else FrontierEnv.rs_useful_steps st |}
      end.
Proof.
  destruct draws as [| d rest]; cbn [FrontierEnv.run_loop]; [reflexivity |].
  destruct (Frontier.done _); [reflexivity |].
  unfold FrontierEnv.choose_full. cbv zeta.
  destruct (Frontier.choose _ _) as [a ag']. reflexivity.
Qed.

Lemma frontier_run_trace_eq svd draws st :
  FrontierEnv.run_trace svd draws st
  = if Frontier.done (FrontierEnv.view (FrontierEnv.rs_world st)) then []
    else
      match draws with
      | [] => []
      | d :: rest =>
          let hist := Frontier.hist_update
                        (FrontierEnv.sg_hist (FrontierEnv.rs_agent st))
                        (FrontierEnv.pos (FrontierEnv.rs_world st)) in
          let o := FrontierEnv.observe svd hist (FrontierEnv.rs_world st) d in
          let r := Frontier.choose
                     (FrontierEnv.agent (FrontierEnv.rs_agent st)) o in
          o :: FrontierEnv.run_trace svd rest
                 {| FrontierEnv.rs_world :=
                      FrontierEnv.step (FrontierEnv.rs_world st) (fst r);
                    FrontierEnv.rs_agent :=
                      {| FrontierEnv.sg_hist := hist;
                         FrontierEnv.agent := snd r |};
                    FrontierEnv.rs_useful_steps :=
                      if Frontier.Mode_eqb (Frontier.mode (snd r))
                           Frontier.NORMAL
                      then FrontierEnv.rs_useful_steps st + 1
                      else FrontierEnv.rs_useful_steps st |}
      end.
Proof.
  destruct draws as [| d rest]; cbn [FrontierEnv.run_trace];
    [destruct (Frontier.done _); reflexivity |].
  destruct (Frontier.done _); [reflexivity |].
  unfold FrontierEnv.choose_full. cbv zeta.
  destruct (Frontier.choose _ _) as [a ag']. reflexivity.
Qed.

Lemma frontier_run_loop_spec svd draws :
  forall st,
    let trace := FrontierEnv.run_trace svd draws st in
    Frontier.clocked (FrontierEnv.steps (FrontierEnv.rs_world st)) trace /\
    Forall (fun o => (0 <= Frontier.o_r o)%Q) trace /\
    (length trace <= length draws)%nat /\
    (Frontier.MAX_STEPS - FrontierEnv.steps (FrontierEnv.rs_world st)
     <= Z.of_nat (length draws) ->
     exists st', FrontierEnv.run_loop svd draws st = Ret st') /\
    (forall st',
        FrontierEnv.run_loop svd draws st = Ret st' ->
        FrontierEnv.agent (FrontierEnv.rs_agent st')
        = Frontier.run_from (FrontierEnv.agent (FrontierEnv.rs_agent st))
            trace /\
        Frontier.done (FrontierEnv.view (FrontierEnv.rs_world st')) = true /\
        FrontierEnv.steps (FrontierEnv.rs_world st')
        = FrontierEnv.steps (FrontierEnv.rs_world st)
          + Z.of_nat (length trace) /\
        FrontierEnv.rs_useful_steps st
        <= FrontierEnv.rs_useful_steps st'
        <= FrontierEnv.rs_useful_steps st + Z.of_nat (length trace) /\
        (FrontierEnv.steps (FrontierEnv.rs_world st) <= Frontier.MAX_STEPS ->
         FrontierEnv.steps (FrontierEnv.rs_world st') <= Frontier.MAX_STEPS)).
Proof.
  induction draws as [| d rest IH]; intros st; cbv zeta;
    rewrite frontier_run_loop_eq, frontier_run_trace_eq;
    destruct (Frontier.done (FrontierEnv.view (FrontierEnv.rs_world st)))
      eqn:Hd.
  - cbn [Frontier.clocked length Frontier.run_from].
    split; [exact I |]. split; [constructor |]. split; [lia |].
    split; [intros _; eexists; reflexivity |].
    intros st' E. inversion E; subst st'. repeat split; try lia; auto.
  - cbn [Frontier.clocked length Frontier.run_from].
    split; [exact I |]. split; [constructor |]. split; [lia |].
    split; [| intros st' E; discriminate].
    intros Hc. exfalso. unfold Frontier.done in Hd.
    apply orb_false_iff in Hd. destruct Hd as [_ Hd].
    apply Z.leb_gt in Hd. cbn [FrontierEnv.view Frontier.steps] in Hd.
    cbn [length] in Hc. lia.
  - cbn [Frontier.clocked length Frontier.run_from].
    split; [exact I |]. split; [constructor |]. split; [lia |].
    split; [intros _; eexists; reflexivity |].
    intros st' E. inversion E; subst st'. repeat split; try lia; auto.
  - cbv zeta.
    set (hist := Frontier.hist_update _ _).
    set (o := FrontierEnv.observe svd hist (FrontierEnv.rs_world st) d).
    set (r := Frontier.choose (FrontierEnv.agent (FrontierEnv.rs_agent st)) o).
    match goal with
    | |- context [FrontierEnv.run_trace svd rest ?s1] =>
        set (st1 := s1); specialize (IH st1)
    end.
    cbv zeta in IH. destruct IH as [I1 [I2 [I3 [I4 I5]]]].
    assert (Hst1 : FrontierEnv.steps (FrontierEnv.rs_world st1)
                   = FrontierEnv.steps (FrontierEnv.rs_world st) + 1)
      by reflexivity.
    assert (Hag1 : FrontierEnv.agent (FrontierEnv.rs_agent st1) = snd r)
      by reflexivity.
    assert (Hu1 : FrontierEnv.rs_useful_steps st
                  <= FrontierEnv.rs_useful_steps st1
                  <= FrontierEnv.rs_useful_steps st + 1).
    { subst st1. cbn [FrontierEnv.rs_useful_steps].
      destruct (Frontier.Mode_eqb _ _); lia. }
    assert (Hlt : FrontierEnv.steps (FrontierEnv.rs_world st)
                  < Frontier.MAX_STEPS).
    { unfold Frontier.done in Hd. apply orb_false_iff in Hd.
      destruct Hd as [_ Hd]. apply Z.leb_gt in Hd. exact Hd. }
    rewrite Hst1 in *. rewrite Hag1 in *.
    cbn [Frontier.clocked length Frontier.run_from].
    split; [split; [reflexivity | split; [exact Hd | exact I1]] |].
    split; [constructor; [apply frontier_risk_nonneg | exact I2] |].
    split; [lia |].
    split; [intros Hc; apply I4; cbn [length] in Hc; lia |].
    intros st' E. destruct (I5 st' E) as [J1 [J2 [J3 [J4 J5]]]].
    split; [exact J1 |]. split; [exact J2 |]. split; [lia |].
    split; [lia |]. intros _. apply J5. lia.
Qed.

(** X26: the loop of [run_alpha] for one seed, on any world, SVD and
    draws.  It stops: from a world at step [s] it needs at most
    [MAX_STEPS - s] draws.  The calls of [choose] see the step counters
    [s], [s + 1], ... on worlds that are not done, and risk readings of at
    least 0; the agent the loop ends with is the agent that [choose] yields
    over these observations.  At the end the world is done, has made one
    step per call, never more than [MAX_STEPS] in all, and the useful
    steps are at most the steps made. *)
Theorem frontier_run_loop_composition :
  forall svd a world draws,
    let st0 :=
      {| FrontierEnv.rs_world := world;
         FrontierEnv.rs_agent := FrontierEnv.CoaseAgent_full_init a;
         FrontierEnv.rs_useful_steps := 0 |} in
    let trace := FrontierEnv.run_trace svd draws st0 in
    Frontier.clocked (FrontierEnv.steps world) trace /\
    Forall (fun o => (0 <= Frontier.o_r o)%Q) trace /\
    (length trace <= length draws)%nat /\
    (Frontier.MAX_STEPS - FrontierEnv.steps world
     <= Z.of_nat (length draws) ->
     exists st', FrontierEnv.run_loop svd draws st0 = Ret st') /\
    (forall st',
        FrontierEnv.run_loop svd draws st0 = Ret st' ->
        FrontierEnv.agent (FrontierEnv.rs_agent st')
        = Frontier.run_from (Frontier.CoaseAgent_init a) trace /\
        Frontier.done (FrontierEnv.view (FrontierEnv.rs_world st')) = true /\
        FrontierEnv.steps (FrontierEnv.rs_world st')
        = FrontierEnv.steps world + Z.of_nat (length trace) /\
        0 <= FrontierEnv.rs_useful_steps st' <= Z.of_nat (length trace) /\
        (FrontierEnv.steps world <= Frontier.MAX_STEPS ->
         FrontierEnv.steps (FrontierEnv.rs_world st')
         <= Frontier.MAX_STEPS)).
Proof.
  intros svd a world draws st0 trace.
  destruct (frontier_run_loop_spec svd draws st0) as [H1 [H2 [H3 [H4 H5]]]].
  cbv zeta in H1, H2, H3, H4, H5. fold trace in H1, H2, H3, H5.
  split; [exact H1 |]. split; [exact H2 |]. split; [exact H3 |].
  split; [exact H4 |].
  intros st' E. destruct (H5 st' E) as [J1 [J2 [J3 [J4 J5]]]].
  cbn [st0 FrontierEnv.rs_world FrontierEnv.rs_agent FrontierEnv.agent
       FrontierEnv.CoaseAgent_full_init FrontierEnv.rs_useful_steps]
    in J1, J3, J4, J5.
  split; [exact J1 |]. split; [exact J2 |]. split; [exact J3 |].
  split; [lia | exact J5].
Qed.

Lemma frontier_run_loop_composition_witness :
  let world :=
    {| FrontierEnv.grid := PanicSpec.pocket_grid; FrontierEnv.pos := (0, 0);
       FrontierEnv.battery := 60; FrontierEnv.steps := 1998 |} in
  let draws := [Frontier.DOWN; Frontier.UP] in
  Frontier.MAX_STEPS - FrontierEnv.steps world <= Z.of_nat (length draws) /\
  exists st',
    FrontierEnv.run_loop (fun _ => None) draws
      {| FrontierEnv.rs_world := world;
         FrontierEnv.rs_agent := FrontierEnv.CoaseAgent_full_init 1;
         FrontierEnv.rs_useful_steps := 0 |}
    = Ret st'.
Proof.
  intros world draws.
  assert (H : Frontier.MAX_STEPS - FrontierEnv.steps world
              <= Z.of_nat (length draws)) by (vm_compute; discriminate).
  split; [exact H |].
  destruct (frontier_run_loop_composition (fun _ => None) 1%Q world draws)
    as [_ [_ [_ [Hex _]]]].
  exact (Hex H).
Defined.

Lemma frontier_low_battery_call ag o :
  (0 <= Frontier.alpha ag)%Q ->
  (0 <= Frontier.mon_H (Frontier.lpi ag))%Q /\
  (Frontier.mon_H (Frontier.lpi ag) <= 1)%Q ->
  (0 <= Frontier.mon_LPI (Frontier.lpi ag))%Q ->
  (0 <= Frontier.o_r o)%Q ->
  Frontier.battery (Frontier.o_world o) < 20 ->
  let r := Frontier.choose ag o in
  fst r = Frontier.LEFT /\
  Frontier.mode (snd r) = Frontier.SURVIVAL /\
  Frontier.alpha (snd r) = Frontier.alpha ag /\
  ((0 <= Frontier.mon_H (Frontier.lpi (snd r)))%Q /\
   (Frontier.mon_H (Frontier.lpi (snd r)) <= 1)%Q) /\
  (0 <= Frontier.mon_LPI (Frontier.lpi (snd r)))%Q.
Proof.
  intros Ha HH HL Hr Hb. cbv zeta.
  destruct (frontier_choose_machine ag o) as [Hm [Hmode Hact]].
  destruct (frontier_choose_step ag o) as [Halpha _].
  cbv zeta in Hm, Hmode, Hact, Halpha.
  destruct (frontier_monitor_step (Frontier.lpi ag) (Frontier.o_r o)
              HH HL Hr) as [M0 [_ [M2 [M3 _]]]].
  cbv zeta in M0, M2, M3. rewrite <- Hm in M0, M2, M3.
  assert (Hlow : Qlt_bool (inject_Z (Frontier.battery (Frontier.o_world o)))
                   (Frontier.low_bat_th (Frontier.alpha ag)
                      (Frontier.mon_LPI
                         (Frontier.LPIMonitor_update (Frontier.lpi ag)
                            (Frontier.o_r o)))) = true).
  { rewrite <- Hm. unfold Qlt_bool. apply negb_true_iff.
    apply not_true_iff_false. rewrite Qle_bool_iff. intros Hc.
    assert (Hq : (inject_Z (Frontier.battery (Frontier.o_world o)) <= 19)%Q)
      by (change 19%Q with (inject_Z 19); rewrite <- Zle_Qle; lia).
    unfold Frontier.low_bat_th, Frontier.BASE_LOW_BAT, Frontier.GAIN_BAT in Hc.
    set (l := Frontier.mon_LPI _) in *.
    set (al := Frontier.alpha ag) in *. nra. }
  rewrite Hlow in Hmode. rewrite Hmode in Hact.
  destruct HH as [HH0 HH1].
  split; [exact Hact |]. split; [exact Hmode |]. split; [exact Halpha |].
  split; [split; [exact M0 | lra] | exact M3].
Qed.

Lemma frontier_step_left world :
  snd (FrontierEnv.pos world) <> 0 ->
  let world' := FrontierEnv.step world Frontier.LEFT in
  snd (FrontierEnv.pos world') = snd (FrontierEnv.pos world) /\
  fst (FrontierEnv.pos world') <= fst (FrontierEnv.pos world) /\
  FrontierEnv.battery world' = FrontierEnv.battery world - 1 /\
  FrontierEnv.steps world' = FrontierEnv.steps world + 1.
Proof.
  intros Hy. cbv zeta. unfold FrontierEnv.step. cbv zeta.
  cbn [FrontierEnv.action_delta fst snd FrontierEnv.pos FrontierEnv.battery
       FrontierEnv.steps].
  destruct (FrontierEnv.pos world) as [x y] eqn:Hp. cbn [fst snd] in *.
  rewrite Z.add_0_r.
  destruct ((0 <=? x + -1) && (x + -1 <? FrontierEnv.GRID_W) && (0 <=? y)
            && (y <? FrontierEnv.GRID_H)
            && (FrontierEnv.grid_at world (x + -1, y) =? 0));
    cbn [fst snd].
  - assert (E : pos_eqb (x + -1, y) (0, 0) = false)
      by (apply pos_eqb_neq; intros E; inversion E; lia).
    rewrite E. repeat split; lia.
  - assert (E : pos_eqb (x, y) (0, 0) = false)
      by (apply pos_eqb_neq; intros E; inversion E; lia).
    rewrite E. repeat split; lia.
Qed.

(** X27: in the Coase frontier probe, for alpha at least 0, a battery
    below 20 off the row y = 0 is never recharged.  From then on every
    call of [choose] returns LEFT, which cannot change the row, so the
    agent never reaches the dock at (0, 0): the loop of [run_alpha] counts
    no further useful step, the battery loses one unit per step, and the
    run ends, within as many steps as the battery had units, with the
    battery exhausted or at [MAX_STEPS]. *)
Theorem frontier_low_battery_off_dock_row_is_fatal :
  forall svd draws st,
    let ag := FrontierEnv.agent (FrontierEnv.rs_agent st) in
    let world := FrontierEnv.rs_world st in
    (0 <= Frontier.alpha ag)%Q ->
    (0 <= Frontier.mon_H (Frontier.lpi ag))%Q /\
    (Frontier.mon_H (Frontier.lpi ag) <= 1)%Q ->
    (0 <= Frontier.mon_LPI (Frontier.lpi ag))%Q ->
    FrontierEnv.battery world < 20 ->
    snd (FrontierEnv.pos world) <> 0 ->
    FrontierEnv.battery world <= Z.of_nat (length draws) ->
    exists st',
      FrontierEnv.run_loop svd draws st = Ret st' /\
      Forall (fun o => Frontier.battery (Frontier.o_world o) < 20)
             (FrontierEnv.run_trace svd draws st) /\
      snd (FrontierEnv.pos (FrontierEnv.rs_world st'))
      = snd (FrontierEnv.pos world) /\
      FrontierEnv.battery (FrontierEnv.rs_world st')
      = FrontierEnv.battery world
        - (FrontierEnv.steps (FrontierEnv.rs_world st')
           - FrontierEnv.steps world) /\
      FrontierEnv.steps world <= FrontierEnv.steps (FrontierEnv.rs_world st') /\
      FrontierEnv.rs_useful_steps st' = FrontierEnv.rs_useful_steps st /\
      (FrontierEnv.battery (FrontierEnv.rs_world st') <= 0 \/
       Frontier.MAX_STEPS <= FrontierEnv.steps (FrontierEnv.rs_world st')).
Proof.
  intros svd draws. induction draws as [| d rest IH];
    intros st ag world Ha HH HL Hb Hy Hlen;
    rewrite frontier_run_loop_eq, frontier_run_trace_eq;
    destruct (Frontier.done (FrontierEnv.view (FrontierEnv.rs_world st)))
      eqn:Hd;
    try (exists st; split; [reflexivity |]; split; [constructor |];
         split; [reflexivity |]; split; [subst world; lia |];
         split; [subst world; lia |]; split; [reflexivity |];
         unfold Frontier.done in Hd; apply orb_true_iff in Hd;
         cbn [FrontierEnv.view Frontier.battery Frontier.steps] in Hd;
         rewrite !Z.leb_le in Hd; exact Hd).
  - exfalso. unfold Frontier.done in Hd. apply orb_false_iff in Hd.
    destruct Hd as [Hd _]. apply Z.leb_gt in Hd.
    cbn [FrontierEnv.view Frontier.battery length] in Hd, Hlen.
    subst world. lia.
  - cbv zeta.
    set (hist := Frontier.hist_update _ _).
    set (o := FrontierEnv.observe svd hist (FrontierEnv.rs_world st) d).
    destruct (frontier_low_battery_call ag o Ha HH HL
                (frontier_risk_nonneg svd hist) Hb)
      as [C1 [C2 [C3 [C4 C5]]]].
    cbv zeta in C1, C2, C3, C4, C5. fold ag. rewrite C1, C2.
    cbn [Frontier.Mode_eqb].
    destruct (frontier_step_left world Hy) as [S1 [S2 [S3 S4]]].
    cbv zeta in S1, S2, S3, S4. fold world.
    match goal with
    | |- context [FrontierEnv.run_loop svd rest ?s1] => set (st1 := s1)
    end.
    assert (P1 : (0 <= Frontier.alpha
                        (FrontierEnv.agent (FrontierEnv.rs_agent st1)))%Q)
      by (cbn [st1 FrontierEnv.rs_agent FrontierEnv.agent]; rewrite C3;
          exact Ha).
    assert (P4 : FrontierEnv.battery (FrontierEnv.rs_world st1) < 20)
      by (cbn [st1 FrontierEnv.rs_world]; lia).
    assert (P5 : snd (FrontierEnv.pos (FrontierEnv.rs_world st1)) <> 0)
      by (cbn [st1 FrontierEnv.rs_world]; rewrite S1; exact Hy).
    assert (P6 : FrontierEnv.battery (FrontierEnv.rs_world st1)
                 <= Z.of_nat (length rest))
      by (cbn [st1 FrontierEnv.rs_world]; cbn [length] in Hlen; lia).
    destruct (IH st1 P1 C4 C5 P4 P5 P6)
      as [st' [R1 [R2 [R3 [R4 [R5 [R6 R7]]]]]]].
    cbn [st1 FrontierEnv.rs_world FrontierEnv.rs_useful_steps] in R3, R4, R5, R6.
    exists st'. split; [exact R1 |].
    split; [constructor; [exact Hb | exact R2] |].
    split; [congruence |]. split; [lia |]. split; [lia |].
    split; [exact R6 | exact R7].
Qed.

Lemma frontier_low_battery_off_dock_row_is_fatal_witness :
  let st :=
    {| FrontierEnv.rs_world :=
         {| FrontierEnv.grid := PanicSpec.pocket_grid;
            FrontierEnv.pos := (2, 3);
            FrontierEnv.battery := 3; FrontierEnv.steps := 57 |};
       FrontierEnv.rs_agent := FrontierEnv.CoaseAgent_full_init 1;
       FrontierEnv.rs_useful_steps := 40 |} in
  let draws := [Frontier.UP; Frontier.UP; Frontier.UP] in
  (0 <= 1)%Q /\
  exists st',
    FrontierEnv.run_loop (fun _ => None) draws st = Ret st' /\
    FrontierEnv.rs_useful_steps st' = 40.
Proof.
  intros st draws.
  assert (Ha : (0 <= 1)%Q) by discriminate.
  split; [exact Ha |].
  assert (HH : (0 <= 1)%Q /\ (1 <= 1)%Q) by (split; discriminate).
  assert (HL : (0 <= 0)%Q) by discriminate.
  assert (Hb : 3 < 20) by lia.
  assert (Hy : 3 <> 0) by lia.
  assert (Hlen : 3 <= Z.of_nat 3) by lia.
  destruct (frontier_low_battery_off_dock_row_is_fatal (fun _ => None)
              draws st Ha HH HL Hb Hy Hlen)
    as [st' [R1 [_ [_ [_ [_ [R6 _]]]]]]].
  exists st'. split; [exact R1 | exact R6].
Defined.

Lemma vacuum_world_step_effect_witness :
  let world :=
    {| VacuumX.w := 12; VacuumX.h := 12; VacuumX.grid := PanicSpec.pocket_grid;
       VacuumX.dock := (0, 0); VacuumX.pos := (0, 1);
       VacuumX.battery := 7; VacuumX.steps := 53 |} in
  (VacuumEnv.res_moved (VacuumEnv.step world 0 VacuumX.UP) = true /\
   VacuumX.pos (VacuumEnv.res_world (VacuumEnv.step world 0 VacuumX.UP))
   = VacuumX.move (VacuumX.pos world) VacuumX.UP) /\
  (VacuumEnv.res_moved (VacuumEnv.step world 0 VacuumX.LEFT) = false /\
   VacuumX.pos (VacuumEnv.res_world (VacuumEnv.step world 0 VacuumX.LEFT))
   = VacuumX.pos world) /\
  (VacuumX.battery world <= VacuumX.BATTERY_MAX /\
   VacuumX.battery (VacuumEnv.res_world (VacuumEnv.step world 0 VacuumX.UP))
   <= VacuumX.BATTERY_MAX).
Proof.
  intros world.
  assert (Hm : VacuumEnv.res_moved (VacuumEnv.step world 0 VacuumX.UP) = true)
    by (vm_compute; reflexivity).
  assert (Hl : VacuumEnv.res_moved (VacuumEnv.step world 0 VacuumX.LEFT)
               = false)
    by (vm_compute; reflexivity).
  assert (Hb : VacuumX.battery world <= VacuumX.BATTERY_MAX)
    by (vm_compute; discriminate).
  destruct (vacuum_world_step_effect world 0 VacuumX.UP)
    as [_ [_ [_ [Hup [_ [_ [_ [Hbat _]]]]]]]].
  destruct (vacuum_world_step_effect world 0 VacuumX.LEFT)
    as [_ [_ [Hstay _]]].
  split; [split; [exact Hm | exact (proj1 (Hup Hm))] |].
  split; [split; [exact Hl | exact (Hstay Hl)] |].
  split; [exact Hb | exact (Hbat Hb)].
Defined.
